(** * Nuwault offline cache controller: a shallow embedding

    The development follows three source files of the repository:
    - [scripts/generate-sw.js] (the service worker generator): cache version
      strings, module [SwGenerator], and the env files, module [DotEnv];
    - [src/templates/sw.template.js] (the service worker): cache lifecycle,
      request mediation and the command responder, module [Sw], with the
      predicates on its states in module [SwState];
    - [src/utils/pwaManager.js] (the page-side manager): command wrappers with
      their timers, module [PwaManager].

    Platform services the code calls (SHA-256, regular expressions, URL
    parsing, the Cache API, [fetch]) are modelled in the modules that
    precede their first use. *)

From Stdlib Require Import NArith Ascii String List Bool Lia.
From Stdlib Require Import Sorting.Sorted Sorting.Permutation.
From stdpp Require Import base strings list gmap.

Local Open Scope string_scope.
Local Open Scope list_scope.

(** ** JavaScript string operations used by the sources *)

Module JsString.

Definition chars (s : string) : list ascii := list_ascii_of_string s.
Definition of_chars (l : list ascii) : string := string_of_list_ascii l.

(** [s.startsWith(p)] *)
Definition startsWith (p s : string) : bool := String.prefix p s.

(** [s.includes(sub)] *)
Fixpoint includes (sub s : string) : bool :=
  String.prefix sub s ||
  match s with
  | EmptyString => false
  | String _ s' => includes sub s'
  end.

(** [s.substring(n)] *)
Fixpoint substring_from (n : nat) (s : string) : string :=
  match n, s with
  | O, _ => s
  | S n', String _ s' => substring_from n' s'
  | S _, EmptyString => EmptyString
  end.

(** [s.substring(0, n)] *)
Definition substring_to (n : nat) (s : string) : string := String.substring 0 n s.

(** [s.replace(pat, rep)] with a string pattern: only the first occurrence
    is replaced. *)
Fixpoint replace (pat rep s : string) : string :=
  if String.prefix pat s then rep +:+ substring_from (String.length pat) s
  else match s with
       | EmptyString => EmptyString
       | String c s' => String c (replace pat rep s')
       end.

(** Digits of [Number.prototype.toString(radix)]. *)
Definition digit_char (d : N) : ascii :=
  match String.get (N.to_nat d) "0123456789abcdefghijklmnopqrstuvwxyz" with
  | Some c => c
  | None => "?"%char
  end.

Fixpoint radix_digits (fuel : nat) (radix n : N) (acc : string) : string :=
  match fuel with
  | O => acc
  | S fuel' =>
      let acc' := String (digit_char (n mod radix)) acc in
      if (n / radix =? 0)%N then acc' else radix_digits fuel' radix (n / radix) acc'
  end.

(** [n.toString(radix)] for a non-negative integer [n] (the values the
    generator converts are [Date.now()] readings, which are integers below
    8.64e15 and print without an exponent). *)
Definition toString_radix (radix n : N) : string :=
  radix_digits (S (N.to_nat (N.log2 n))) radix n "".

Definition toString (n : N) : string := toString_radix 10 n.

End JsString.

(** ** SHA-256 (FIPS 180-4), as computed by [crypto.createHash('sha256')] *)

Module Sha256.

Definition w32 (x : N) : N := (x mod 4294967296)%N.
Definition add32 (x y : N) : N := w32 (x + y).
Definition rotr (n x : N) : N := w32 (N.lor (N.shiftr x n) (N.shiftl x (32 - n))).
Definition shr (n x : N) : N := N.shiftr x n.
Definition not32 (x : N) : N := N.lxor x 4294967295.

Definition Ch (x y z : N) : N := N.lxor (N.land x y) (N.land (not32 x) z).
Definition Maj (x y z : N) : N :=
  N.lxor (N.lxor (N.land x y) (N.land x z)) (N.land y z).
Definition bsig0 (x : N) : N := N.lxor (N.lxor (rotr 2 x) (rotr 13 x)) (rotr 22 x).
Definition bsig1 (x : N) : N := N.lxor (N.lxor (rotr 6 x) (rotr 11 x)) (rotr 25 x).
Definition ssig0 (x : N) : N := N.lxor (N.lxor (rotr 7 x) (rotr 18 x)) (shr 3 x).
Definition ssig1 (x : N) : N := N.lxor (N.lxor (rotr 17 x) (rotr 19 x)) (shr 10 x).

Record state := mkState { ha : N; hb : N; hc : N; hd : N; he : N; hf : N; hg : N; hh : N }.

(** The constants are defined as the standard defines them: the first 32
    bits of the fractional parts of the cube roots (round constants) and of
    the square roots (initial hash value) of the first primes. *)
Definition is_prime (n : nat) : bool :=
  forallb (fun d => negb (n mod d =? 0)%nat) (seq 2 (n - 2)).

Definition primes (count : nat) : list N :=
  map N.of_nat (firstn count (List.filter is_prime (seq 2 400))).

(** The integer [degree]-th root of [n], built bit by bit from bit
    [bits - 1] down. *)
Fixpoint iroot (degree : N) (bits : nat) (n x : N) : N :=
  match bits with
  | O => x
  | S bits' =>
      let x' := (x + 2 ^ N.of_nat bits')%N in
      iroot degree bits' n (if (x' ^ degree <=? n)%N then x' else x)
  end.

Definition fractional_root (degree p : N) : N :=
  w32 (iroot degree 36 (p * 2 ^ (32 * degree)) 0).

Definition K : list N := Eval vm_compute in map (fractional_root 3) (primes 64).

Definition H0 : state :=
  Eval vm_compute in
  match map (fractional_root 2) (primes 8) with
  | [a; b; c; d; e; f; g; h] => mkState a b c d e f g h
  | _ => mkState 0 0 0 0 0 0 0 0
  end.

(** Big-endian bytes of the low [8 * n] bits of [x]. *)
Fixpoint be_bytes (n : nat) (x : N) : list N :=
  match n with
  | O => []
  | S n' => be_bytes n' (N.shiftr x 8) ++ [(x mod 256)%N]
  end.

(** Padding: a one bit, zero bits up to 56 modulo 64 bytes, the bit length. *)
Definition pad (msg : list N) : list N :=
  let len := length msg in
  let zeros := (119 - len mod 64) mod 64 in
  msg ++ [128%N] ++ repeat 0%N zeros ++ be_bytes 8 (8 * N.of_nat len).

Fixpoint words (n : nat) (bytes : list N) : list N :=
  match n, bytes with
  | S n', b0 :: b1 :: b2 :: b3 :: rest =>
      (b0 * 16777216 + b1 * 65536 + b2 * 256 + b3)%N :: words n' rest
  | _, _ => []
  end.

(** The message schedule, kept newest word first while it is extended. *)
Fixpoint extend (n : nat) (w : list N) : list N :=
  match n with
  | O => w
  | S n' =>
      let wt := add32 (add32 (ssig1 (nth 1 w 0%N)) (nth 6 w 0%N))
                      (add32 (ssig0 (nth 14 w 0%N)) (nth 15 w 0%N)) in
      extend n' (wt :: w)
  end.

Definition schedule (block : list N) : list N := rev (extend 48 (rev block)).

Definition round (s : state) (kw : N * N) : state :=
  let t1 := add32 (add32 (add32 (hh s) (bsig1 (he s))) (Ch (he s) (hf s) (hg s)))
                  (add32 (fst kw) (snd kw)) in
  let t2 := add32 (bsig0 (ha s)) (Maj (ha s) (hb s) (hc s)) in
  mkState (add32 t1 t2) (ha s) (hb s) (hc s) (add32 (hd s) t1) (he s) (hf s) (hg s).

Definition compress (s : state) (block : list N) : state :=
  let r := fold_left round (combine K (schedule block)) s in
  mkState (add32 (ha s) (ha r)) (add32 (hb s) (hb r)) (add32 (hc s) (hc r))
          (add32 (hd s) (hd r)) (add32 (he s) (he r)) (add32 (hf s) (hf r))
          (add32 (hg s) (hg r)) (add32 (hh s) (hh r)).

Fixpoint absorb (nblocks : nat) (s : state) (bytes : list N) : state :=
  match nblocks with
  | O => s
  | S n' => absorb n' (compress s (words 16 (firstn 64 bytes))) (skipn 64 bytes)
  end.

Definition digest (msg : list N) : state :=
  let p := pad msg in absorb (length p / 64) H0 p.

Definition hex_digit (d : N) : ascii := JsString.digit_char (d mod 16)%N.

(** Two lower-case hexadecimal digits of a byte. *)
Definition hex_byte (b : N) (k : string) : string :=
  String (hex_digit (N.shiftr b 4)) (String (hex_digit b) k).

Definition hex_bytes (bs : list N) : string := fold_right hex_byte "" bs.

Definition hex_word (w : N) : string := hex_bytes (be_bytes 4 w).

Definition hex_state (s : state) : string :=
  hex_word (ha s) +:+ hex_word (hb s) +:+ hex_word (hc s) +:+ hex_word (hd s) +:+
  hex_word (he s) +:+ hex_word (hf s) +:+ hex_word (hg s) +:+ hex_word (hh s).

(** [createHash('sha256').update(s).digest('hex')] *)
Definition sha256_hex (s : string) : string :=
  hex_state (digest (map N_of_ascii (JsString.chars s))).

End Sha256.

(** ** The service worker generator ([scripts/generate-sw.js]) *)

Module SwGenerator.

(** The ambient services the generator reads: the clock, the random source
    and the process environment. [now k] is the value returned by the
    [k]-th call of [Date.now()] (milliseconds), [randomBytes n] the buffer
    returned by [crypto.randomBytes(n)]. *)
Record Process := {
    now : nat -> N;
    randomBytes : nat -> list Byte.byte;
    NODE_ENV : option string
  }.

(** [buffer.toString('hex')] *)
Definition hex_of_buffer (b : list Byte.byte) : string :=
  Sha256.hex_bytes (map Byte.to_N b).

(** [generateBuildHash()]; the number of clock readings made so far is
    threaded through. *)
Definition generateBuildHash (p : Process) (reads : nat) : string * nat :=
  let timestamp := JsString.toString (now p reads) in
  let randomBytes := hex_of_buffer (randomBytes p 8) in
  (JsString.substring_to 8 (Sha256.sha256_hex (timestamp +:+ randomBytes)), S reads).

(** [generateCacheVersion(appVersion)] *)
Definition generateCacheVersion (p : Process) (appVersion : string) (reads : nat)
  : string * nat :=
  let buildTimestamp := now p reads in
  let '(buildHash, reads') := generateBuildHash p (S reads) in
  let shortTimestamp := JsString.toString_radix 36 (buildTimestamp / 1000)%N in
  let isDevelopmentBuild :=
    match NODE_ENV p with Some v => String.eqb v "development" | None => false end in
  let isProductionRelease :=
    negb (String.eqb appVersion "0.0.0") && negb (String.eqb appVersion "1.0.0") in
  if isProductionRelease
  then (appVersion +:+ "-" +:+ buildHash, reads')
  else (appVersion +:+ "-" +:+ shortTimestamp +:+ "-" +:+ buildHash, reads').

(** The version string as the specification words it: one timestamp, used
    both for the hash and for the base-36 component. *)
Definition buildHash_spec (buildTimestampMs : N) (randomEntropy : list Byte.byte) : string :=
  JsString.substring_to 8
    (Sha256.sha256_hex (JsString.toString buildTimestampMs +:+ hex_of_buffer randomEntropy)).

Definition isReleaseBuild_spec (appVersion : string) : bool :=
  negb (String.eqb appVersion "0.0.0" || String.eqb appVersion "1.0.0").

Definition versionString_spec (appVersion : string) (buildTimestampMs : N)
    (randomEntropy : list Byte.byte) : string :=
  if isReleaseBuild_spec appVersion
  then appVersion +:+ "-" +:+ buildHash_spec buildTimestampMs randomEntropy
  else appVersion +:+ "-" +:+ JsString.toString_radix 36 (buildTimestampMs / 1000)%N
         +:+ "-" +:+ buildHash_spec buildTimestampMs randomEntropy.

(** A process whose clock reads [t1] at the first call and [t2] afterwards. *)
Definition process_of (t1 t2 : N) (entropy : list Byte.byte) : Process :=
  {| now := fun k => match k with O => t1 | S _ => t2 end;
     randomBytes := fun _ => entropy;
     NODE_ENV := None |}.

End SwGenerator.

(** ** Regular expressions

    A backtracking matcher for the constructs the service worker's patterns
    use: literals, character classes, greedy [+] over a class, greedy [?],
    [$] and one capture group. Alternatives are tried in the order a
    JavaScript engine tries them, so the first match found is the match
    [RegExp.prototype.exec] returns. *)

Module Regex.

Inductive regex : Type :=
  | Lit (s : string)
  | Class (p : ascii -> bool)
  | Plus (p : ascii -> bool)
  | Opt (c : ascii)
  | Eos
  | Group (r : regex)
  | Cat (r1 r2 : regex).

Definition not_char (c : ascii) : ascii -> bool := fun x => negb (Ascii.eqb c x).
(** [\d] *)
Definition digit (x : ascii) : bool :=
  ((48 <=? nat_of_ascii x) && (nat_of_ascii x <=? 57))%nat.

Fixpoint strip_prefix (p s : list ascii) : option (list ascii) :=
  match p, s with
  | [], _ => Some s
  | a :: p', b :: s' => if Ascii.eqb a b then strip_prefix p' s' else None
  | _ :: _, [] => None
  end.

Section WithAnswer.
Context {X : Type}.
(** A continuation receives the rest of the input and the capture. *)
Definition cont := list ascii -> option (list ascii) -> option X.

(** Greedy repetition: the longest run first, then shorter ones. *)
Fixpoint star (p : ascii -> bool) (s : list ascii) (cap : option (list ascii))
    (k : cont) : option X :=
  match s with
  | c :: s' =>
      if p c then
        match star p s' cap k with
        | Some x => Some x
        | None => k s cap
        end
      else k s cap
  | [] => k [] cap
  end.

Fixpoint run (r : regex) (s : list ascii) (cap : option (list ascii))
    (k : cont) : option X :=
  match r with
  | Lit l =>
      match strip_prefix (JsString.chars l) s with
      | Some s' => k s' cap
      | None => None
      end
  | Class p =>
      match s with
      | c :: s' => if p c then k s' cap else None
      | [] => None
      end
  | Plus p =>
      match s with
      | c :: s' => if p c then star p s' cap k else None
      | [] => None
      end
  | Opt c =>
      match s with
      | c' :: s' =>
          if Ascii.eqb c c' then
            match k s' cap with
            | Some x => Some x
            | None => k s cap
            end
          else k s cap
      | [] => k [] cap
      end
  | Eos =>
      match s with
      | [] => k [] cap
      | _ :: _ => None
      end
  | Group r' =>
      run r' s cap (fun s' _ => k s' (Some (firstn (length s - length s') s)))
  | Cat r1 r2 => run r1 s cap (fun s' cap' => run r2 s' cap' k)
  end.
End WithAnswer.

(** The result of a successful match: matched text, rest, capture. *)
Record found := { matched : list ascii; rest : list ascii; capture : option (list ascii) }.

Definition exec_at (r : regex) (s : list ascii) : option found :=
  run r s None (fun s' cap =>
    Some {| matched := firstn (length s - length s') s; rest := s'; capture := cap |}).

(** The leftmost match at or after the start of [s]. *)
Fixpoint search (r : regex) (s : list ascii) : option found :=
  match exec_at r s with
  | Some f => Some f
  | None =>
      match s with
      | [] => None
      | _ :: s' => search r s'
      end
  end.

(** [pattern.test(str)] for a pattern without the [g] flag. *)
Definition test (r : regex) (str : string) : bool :=
  match search r (JsString.chars str) with Some _ => true | None => false end.

(** [str.match(pattern)] with the [g] flag: every match, left to right,
    each search resuming where the previous match ended (none of the
    patterns used matches the empty string). *)
Fixpoint match_all_from (fuel : nat) (r : regex) (s : list ascii) : list string :=
  match fuel with
  | O => []
  | S fuel' =>
      match search r s with
      | None => []
      | Some f => JsString.of_chars (matched f) :: match_all_from fuel' r (rest f)
      end
  end.

Definition match_all (r : regex) (str : string) : list string :=
  match_all_from (S (String.length str)) r (JsString.chars str).

(** [str.match(pattern)[1]] without the [g] flag: the capture of the
    leftmost match; [None] when there is no match (the access then throws). *)
Definition match_group (r : regex) (str : string) : option string :=
  match search r (JsString.chars str) with
  | Some f => option_map JsString.of_chars (capture f)
  | None => None
  end.

End Regex.

(** ** URLs

    Request URLs reach the worker serialised: scheme, [://], authority, then
    a path that starts with [/], then an optional query and fragment. *)

Module Url.

Fixpoint split_at (p : ascii -> bool) (s : list ascii) : list ascii * list ascii :=
  match s with
  | [] => ([], [])
  | c :: s' =>
      if p c then ([], s)
      else let '(a, b) := split_at p s' in (c :: a, b)
  end.

Definition authority_end (c : ascii) : bool :=
  Ascii.eqb c "/" || Ascii.eqb c "?" || Ascii.eqb c "#".
Definition path_end (c : ascii) : bool := Ascii.eqb c "?" || Ascii.eqb c "#".

(** Host and port of an authority: what follows the last [@]. *)
Fixpoint host_of (authority : list ascii) : list ascii :=
  match authority with
  | [] => []
  | c :: rest =>
      if existsb (Ascii.eqb "@") rest then host_of rest
      else if Ascii.eqb c "@" then rest else authority
  end.

(** [new URL(url).pathname] *)
Definition pathname (url : string) : string :=
  let '(_, r) := split_at (Ascii.eqb ":") (JsString.chars url) in
  match Regex.strip_prefix (JsString.chars "://") r with
  | Some r' =>
      let '(_, r'') := split_at authority_end r' in
      let '(path, _) := split_at path_end r'' in
      match path with
      | [] => "/"
      | _ :: _ => JsString.of_chars path
      end
  | None =>
      let '(path, _) := split_at path_end (tail r) in JsString.of_chars path
  end.

(** The path of a reference that starts with a slash. *)
Definition path_of (reference : string) : string :=
  match fst (split_at path_end (JsString.chars reference)) with
  | [] => "/"
  | path => JsString.of_chars path
  end.

(** [new URL(url).origin] for a URL with an authority. *)
Definition origin (url : string) : string :=
  let '(scheme, r) := split_at (Ascii.eqb ":") (JsString.chars url) in
  match Regex.strip_prefix (JsString.chars "://") r with
  | Some r' =>
      let '(authority, _) := split_at authority_end r' in
      JsString.of_chars (scheme ++ JsString.chars "://" ++ host_of authority)
  | None => "null"
  end.

(** *** References

    [fetch(reference)], [caches.match(reference)] and
    [cache.put(reference, response)] resolve the reference against the
    worker's location with the parser of the URL Standard. *)

Definition code (c : ascii) : N := N_of_ascii c.

(** Letters, digits, hyphen, full stop, underscore and tilde. *)
Definition unreserved (c : ascii) : bool :=
  let n := code c in
  ((48 <=? n) && (n <=? 57) || (65 <=? n) && (n <=? 90) || (97 <=? n) && (n <=? 122)
   || (n =? 45) || (n =? 46) || (n =? 95) || (n =? 126))%N.

(** The pieces between the separators; the result is never empty. *)
Fixpoint segments (separator : ascii -> bool) (s : list ascii) : list (list ascii) :=
  match s with
  | [] => [[]]
  | c :: s' =>
      if separator c then [] :: segments separator s'
      else match segments separator s' with
           | part :: parts => (c :: part) :: parts
           | [] => [[c]]
           end
  end.

Definition lower (c : ascii) : ascii :=
  if ((65 <=? code c) && (code c <=? 90))%N then ascii_of_N (code c + 32) else c.

(** The single-dot and double-dot path segments of the URL Standard. *)
Definition single_dot (segment : list ascii) : bool :=
  existsb (String.eqb (JsString.of_chars (map lower segment))) ["."; "%2e"].
Definition double_dot (segment : list ascii) : bool :=
  existsb (String.eqb (JsString.of_chars (map lower segment)))
    [".."; ".%2e"; "%2e."; "%2e%2e"].

(** A reference the parser appends to the origin as it stands: one slash,
    then unreserved characters and slashes, the second character no slash
    and no dot segment among the segments. *)
Definition is_plain_path (reference : string) : bool :=
  match JsString.chars reference with
  | first :: rest =>
      Ascii.eqb first "/"
      && forallb (fun c => unreserved c || Ascii.eqb c "/") rest
      && negb (match rest with second :: _ => Ascii.eqb second "/" | [] => false end)
      && forallb (fun segment => negb (single_dot segment || double_dot segment))
           (segments (Ascii.eqb "/") rest)
  | [] => false
  end.

(** **** The parser, for a worker served over HTTP(S)

    The steps of the URL Standard that a reference goes through when the
    base is an HTTP(S) URL: leading and trailing C0 controls and spaces are
    stripped, tabs and newlines removed, a backslash counts as a slash, the
    segments of the path are percent-encoded and the dot segments resolved,
    the query is percent-encoded. The fragment is dropped: neither the
    network nor a cache match sees it. Hosts are read when they are written
    with unreserved characters, with an optional port in digits; the
    parser refuses any other. *)

Fixpoint drop_while (p : ascii -> bool) (s : list ascii) : list ascii :=
  match s with
  | c :: s' => if p c then drop_while p s' else s
  | [] => []
  end.

Definition c0_or_space (c : ascii) : bool := (code c <=? 32)%N.
Definition tab_or_newline (c : ascii) : bool :=
  ((code c =? 9) || (code c =? 10) || (code c =? 13))%N.

Definition preprocess (s : list ascii) : list ascii :=
  List.filter (fun c => negb (tab_or_newline c))
    (rev (drop_while c0_or_space (rev (drop_while c0_or_space s)))).

Definition hex_upper (d : N) : ascii :=
  match String.get (N.to_nat d) "0123456789ABCDEF" with
  | Some c => c
  | None => "?"%char
  end.

Definition percent_byte (n : N) : list ascii :=
  ["%"%char; hex_upper (n / 16); hex_upper (n mod 16)].

(** UTF-8 percent-encoding of a code point below 256. *)
Definition percent_encode (c : ascii) : list ascii :=
  if (code c <? 128)%N then percent_byte (code c)
  else percent_byte (192 + code c / 64) ++ percent_byte (128 + code c mod 64).

Definition c0_control_set (c : ascii) : bool := ((code c <=? 31) || (126 <? code c))%N.
Definition query_set (c : ascii) : bool :=
  c0_control_set c || existsb (N.eqb (code c)) [32; 34; 35; 60; 62]%N.
Definition special_query_set (c : ascii) : bool := query_set c || (code c =? 39)%N.
Definition path_set (c : ascii) : bool :=
  query_set c || existsb (N.eqb (code c)) [63; 94; 96; 123; 125]%N.

Definition encode (set : ascii -> bool) (s : list ascii) : list ascii :=
  flat_map (fun c => if set c then percent_encode c else [c]) s.

Definition slash (c : ascii) : bool := Ascii.eqb c "/" || Ascii.eqb c "\".

(** The path state: [segments] are the pieces of the path between
    slashes, [path] the segments kept so far. *)
Fixpoint path_state (segments : list (list ascii)) (path : list (list ascii))
  : list (list ascii) :=
  match segments with
  | [] => path
  | segment :: rest =>
      let last := match rest with [] => true | _ :: _ => false end in
      let buffer := encode path_set segment in
      if double_dot buffer
      then path_state rest (if last then removelast path ++ [[]] else removelast path)
      else if single_dot buffer
      then path_state rest (if last then path ++ [[]] else path)
      else path_state rest (path ++ [buffer])
  end.

(** Path and query of a reference, from its first slash on. *)
Definition path_and_query (s : list ascii) : list ascii :=
  let '(before_fragment, _) := split_at (Ascii.eqb "#") s in
  let '(path, query) := split_at (Ascii.eqb "?") before_fragment in
  flat_map (fun segment => "/"%char :: segment)
    (path_state (segments slash (tail path)) [])
  ++ match query with
     | [] => []
     | mark :: query' => mark :: encode special_query_set query'
     end.

(** Host and port of a reference that starts with two slashes, and what
    follows them. *)
Definition authority (protocol : string) (s : list ascii) : option (list ascii * list ascii) :=
  let '(authority, rest) :=
    split_at (fun c => slash c || path_end c) (drop_while slash s) in
  let '(host, port) := split_at (Ascii.eqb ":") authority in
  let digits := tail port in
  let standard := if String.eqb protocol "https:" then "443" else "80" in
  if match host with [] => false | _ :: _ => forallb unreserved host end
     && forallb (fun c => (48 <=? code c) && (code c <=? 57))%N digits
  then Some (map lower host
             ++ (if match digits with [] => true | _ :: _ => false end
                    || String.eqb (JsString.of_chars digits) standard
                 then [] else ":"%char :: digits),
             match rest with
             | c :: _ => if slash c then rest else "/"%char :: rest
             | [] => ["/"%char]
             end)
  else None.

(** [new URL(reference, base)] without its fragment, for a base with the
    given protocol and origin and the path [/]. *)
Definition parse_reference (protocol origin reference : string) : option string :=
  let s := preprocess (JsString.chars reference) in
  let with_authority (protocol : string) (s : list ascii) :=
    match authority protocol s with
    | Some (host, rest) =>
        Some (protocol +:+ "//" +:+ JsString.of_chars (host ++ path_and_query rest))
    | None => None
    end in
  match s with
  | first :: second :: _ =>
      if slash first && slash second then with_authority protocol s
      else if slash first then Some (origin +:+ JsString.of_chars (path_and_query s))
      else
        match Regex.strip_prefix (JsString.chars "https:") (map lower s),
              Regex.strip_prefix (JsString.chars "http:") (map lower s) with
        | Some _, _ => with_authority "https:" (skipn 6 s)
        | None, Some _ => with_authority "http:" (skipn 5 s)
        | None, None => Some (origin +:+ JsString.of_chars (path_and_query ("/"%char :: s)))
        end
  | [first] =>
      Some (origin +:+ JsString.of_chars
                         (path_and_query (if slash first then s else "/"%char :: s)))
  | [] => Some (origin +:+ "/")
  end.

End Url.

(** ** The service worker ([src/templates/sw.template.js]) *)

Module Sw.

(** *** Responses, requests and the network *)

Inductive ResponseType := Basic | Cors | Opaque | DefaultType.

(** A response body. The two recovery documents and the default manifest
    are long literals in the source; they are named here, not spelled. *)
Inductive Body :=
  | BodyNull
  | BodyText (text : string)
  | DEV_OFFLINE_PAGE
  | NotCachedPage
  | DefaultManifest.

Record Response := mkResponse {
    status : N;
    statusText : string;
    type : ResponseType;
    body : Body;
    contentType : option string
  }.

(** [response.ok] *)
Definition ok (r : Response) : bool := ((200 <=? status r) && (status r <=? 299))%N.

(** [new Response(body, { status, statusText, headers })] *)
Definition new_Response (b : Body) (st : N) (stText : string)
    (contentTypeHeader : option string) : Response :=
  {| status := st; statusText := stText; type := DefaultType; body := b;
     contentType :=
       match contentTypeHeader, b with
       | Some h, _ => Some h
       | None, BodyNull => None
       | None, _ => Some "text/plain;charset=UTF-8"
       end |}.

(** [await response.text()] *)
Definition text_of (r : Response) : string :=
  match body r with
  | BodyText t => t
  | _ => ""
  end.

Inductive FetchResult := Resolved (r : Response) | Rejected (message : string).

Record Request := {
    method : string;
    url : string;
    mode : string;
    destination : string
  }.

(** *** The worker's surroundings *)

Record Location := { protocol : string; hostname : string; port : string }.

(** What the worker reads but does not own: its location, the values the
    generator substituted for the template placeholders, the network (the
    answer to the [k]-th [fetch] issued, by URL), whether the Cache API is
    usable at all (it rejects in private browsing), the platform's
    collation, the attached clients, and the platform's URL parser (the
    absolute URL of a reference resolved against the worker's location,
    nothing for a reference it refuses). *)
Record Env := {
    location : Location;
    APP_NAME : string;
    APP_VERSION : string;
    network : nat -> string -> FetchResult;
    cacheApiOk : bool;
    localeCompare : string -> string -> comparison;
    clients : list nat;
    parseUrl : string -> option string
  }.

(** *** Cache storage

    [caches] is an ordered collection of named caches (the order is the
    order of creation, which [caches.keys()] and [caches.match()] follow);
    one cache maps request URLs to responses. Requests are matched by their
    URL; the worker stores GET requests only and sets no [Vary] header, so
    nothing else takes part in a match. *)

Definition storage_keys (st : list (string * gmap string Response)) : list string :=
  map fst st.

Definition storage_has (name : string) (st : list (string * gmap string Response)) : bool :=
  existsb (String.eqb name) (storage_keys st).

Definition storage_open (name : string) (st : list (string * gmap string Response))
  : list (string * gmap string Response) :=
  if storage_has name st then st else st ++ [(name, ∅)].

Definition storage_delete (name : string) (st : list (string * gmap string Response))
  : list (string * gmap string Response) :=
  List.filter (fun p => negb (String.eqb name (fst p))) st.

Fixpoint storage_put (name key : string) (r : Response)
    (st : list (string * gmap string Response)) : list (string * gmap string Response) :=
  match st with
  | [] => []
  | (n, c) :: st' =>
      if String.eqb name n then (n, <[key := r]> c) :: st'
      else (n, c) :: storage_put name key r st'
  end.

Fixpoint storage_match (key : string) (st : list (string * gmap string Response))
  : option Response :=
  match st with
  | [] => None
  | (_, c) :: st' =>
      match c !! key with
      | Some r => Some r
      | None => storage_match key st'
      end
  end.

Fixpoint storage_lookup (name : string) (st : list (string * gmap string Response))
  : option (gmap string Response) :=
  match st with
  | [] => None
  | (n, c) :: st' => if String.eqb name n then Some c else storage_lookup name st'
  end.

(** Cache names are unique. *)
Fixpoint distinct (names : list string) : bool :=
  match names with
  | [] => true
  | n :: rest => negb (existsb (String.eqb n) rest) && distinct rest
  end.

Definition storage_wf (st : list (string * gmap string Response)) : bool :=
  distinct (storage_keys st).

Definition delete_all (names : list string) (st : list (string * gmap string Response))
  : list (string * gmap string Response) :=
  fold_left (fun st' name => storage_delete name st') names st.

(** The entry stored under [key] in the cache called [name]. *)
Definition entry (name key : string) (st : list (string * gmap string Response))
  : option Response :=
  match storage_lookup name st with
  | Some c => c !! key
  | None => None
  end.

(** No entry of any cache is stored under a key that satisfies [bad]. *)
Definition free_of (bad : string -> bool) (st : list (string * gmap string Response)) : Prop :=
  forall name c key r, In (name, c) st -> c !! key = Some r -> bad key = false.

(** *** The worker's state *)

Inductive Level := LOG | INFO | WARN | ERROR | DEBUG.
Record LogEntry := { level : Level; args : list string }.

(** Work started without being awaited: promise chains whose outcome the
    handler that started them never sees. Keys are absolute URLs. *)
Inductive Task :=
  | TOpenPut (key : string) (r : Response)
  | TCacheDynamic (key : string) (r : Response)
  | TPut (cache key : string) (r : Response)
  | TRevalidateShell
  | TRevalidate (key : string).

Inductive Reply :=
  | ReplyCleared (success : bool) (clearedCaches : nat)
  | ReplyForced (success : bool) (cacheVersion : string)
  | ReplyInfo (success : bool) (currentVersion currentCacheName : string)
      (currentCacheExists : bool) (appCaches : list string) (isDevelopment : bool)
  | ReplyError (success : bool) (error : string).

Record Activated := {
    sw_version : string; sw_cacheName : string; sw_isDevelopment : bool
  }.

Record World := mkWorld {
    caches : list (string * gmap string Response);
    fetches : nat;
    console : list LogEntry;
    detached : list Task;
    replies : list (nat * Reply);
    broadcasts : list (nat * Activated);
    skipWaitingCalls : nat;
    claims : nat
  }.

Definition with_caches (f : list (string * gmap string Response) ->
                            list (string * gmap string Response)) (w : World) : World :=
  mkWorld (f (caches w)) (fetches w) (console w) (detached w) (replies w)
          (broadcasts w) (skipWaitingCalls w) (claims w).

(** *** Computations: state and exceptions *)

Inductive Result (A : Type) := Ok (a : A) | Throw (message : string).
Arguments Ok {A} a.
Arguments Throw {A} message.

Definition M (A : Type) : Type := World -> Result A * World.

Definition ret {A} (a : A) : M A := fun w => (Ok a, w).
Definition throw {A} (message : string) : M A := fun w => (Throw message, w).
Definition bind {A B} (m : M A) (k : A -> M B) : M B :=
  fun w => match m w with
           | (Ok a, w') => k a w'
           | (Throw e, w') => (Throw e, w')
           end.
(** [try { m } catch (e) { h e }] *)
Definition try_catch {A} (m : M A) (h : string -> M A) : M A :=
  fun w => match m w with
           | (Ok a, w') => (Ok a, w')
           | (Throw e, w') => h e w'
           end.

Notation "'do' x <- m ; k" := (bind m (fun x => k))
  (at level 10, x name, m at level 100, k at level 200, only parsing).
Notation "m ;; k" := (bind m (fun _ => k))
  (at level 100, k at level 200, right associativity, only parsing).

Fixpoint for_each {A} (l : list A) (f : A -> M unit) : M unit :=
  match l with
  | [] => ret tt
  | a :: l' => f a ;; for_each l' f
  end.

Fixpoint map_each {A B} (l : list A) (f : A -> M B) : M (list B) :=
  match l with
  | [] => ret []
  | a :: l' => do b <- f a; do bs <- map_each l' f; ret (b :: bs)
  end.

(** The state after [n] more requests have been issued. *)
Definition advance (n : nat) (w : World) : World :=
  mkWorld (caches w) (n + fetches w) (console w) (detached w) (replies w)
          (broadcasts w) (skipWaitingCalls w) (claims w).

(** Two states that differ at most in the cache storage and the console. *)
Definition quiet (w w' : World) : Prop :=
  fetches w' = fetches w /\ detached w' = detached w /\ replies w' = replies w
  /\ broadcasts w' = broadcasts w /\ skipWaitingCalls w' = skipWaitingCalls w
  /\ claims w' = claims w.

(** A computation that never throws. *)
Definition safe {A} (m : M A) : Prop := forall w, exists a w', m w = (Ok a, w').

(** A computation that keeps the invariant [I], whether it returns or
    throws, and whose returned value satisfies [Q]. *)
Definition keeps (I : World -> Prop) {A} (m : M A) (Q : A -> Prop) : Prop :=
  forall w, I w ->
    I (snd (m w)) /\ match fst (m w) with Ok a => Q a | Throw _ => True end.

Definition modify (f : World -> World) : M unit := fun w => (Ok tt, f w).
Definition get_world : M World := fun w => (Ok w, w).

(** *** Constants of the template *)

Definition MAX_CACHES : nat := 5.

Definition STATIC_CACHE_URLS : list string :=
  [ "/"; "/index.html"; "/manifest.json";
    "/assets/img/icons/nuwault_icon_16x16.png";
    "/assets/img/icons/nuwault_icon_32x32.png";
    "/assets/img/icons/nuwault_icon_48x48.png";
    "/assets/img/icons/nuwault_icon_72x72.png";
    "/assets/img/icons/nuwault_icon_96x96.png";
    "/assets/img/icons/nuwault_icon_128x128.png";
    "/assets/img/icons/nuwault_icon_144x144.png";
    "/assets/img/icons/nuwault_icon_152x152.png";
    "/assets/img/icons/nuwault_icon_180x180.png";
    "/assets/img/icons/nuwault_icon_192x192.png";
    "/assets/img/icons/nuwault_icon_384x384.png";
    "/assets/img/icons/nuwault_icon_512x512.png";
    "/assets/img/favicon/favicon-96x96.png";
    "/assets/img/favicon/favicon.svg";
    "/assets/img/favicon/favicon.ico";
    "/assets/img/favicon/apple-touch-icon.png";
    "/assets/img/favicon/web-app-manifest-192x192.png";
    "/assets/img/favicon/web-app-manifest-512x512.png";
    "/assets/img/logo/nuwault_logo_horizontal_dark_360px.png";
    "/assets/img/logo/nuwault_logo_horizontal_light_360px.png";
    "/assets/img/logo/nuwault_logo_horizontal_white_360px.png";
    "/assets/img/logo/nuwault_logo_symbol.svg" ].

Import Regex.

Definition ends_with (suffix : string) : regex := Cat (Lit suffix) Eos.

Definition DYNAMIC_CACHE_PATTERNS : list regex :=
  [ ends_with ".js"; ends_with ".css";
    Cat (Lit ".woff") (Cat (Opt "2") Eos);
    ends_with ".png"; ends_with ".jpg"; ends_with ".jpeg"; ends_with ".svg" ].

Definition DEV_EXCLUDE_PATTERNS : list regex :=
  [ Lit "@vite/client"; Lit "@react-refresh"; Lit ".hot-update."; Lit "/src/";
    Cat (Lit "?t=") (Plus digit); Lit "?import"; Lit "favicon.ico" ].

Definition quote : ascii := ascii_of_nat 34.
Definition quoted_attr (name : string) (value : regex) : regex :=
  Cat (Lit (name +:+ String "=" (String quote "")))
      (Cat (Group value) (Lit (String quote ""))).

(** [/<script[^>]+src="([^"]+)"/g] and [/<link[^>]+href="([^"]+\.css)"/g] *)
Definition SCRIPT_TAG : regex :=
  Cat (Lit "<script") (Cat (Plus (not_char ">")) (quoted_attr "src" (Plus (not_char quote)))).
Definition LINK_TAG : regex :=
  Cat (Lit "<link") (Cat (Plus (not_char ">"))
    (quoted_attr "href" (Cat (Plus (not_char quote)) (Lit ".css")))).
(** [/src="([^"]+)"/] and [/href="([^"]+)"/] *)
Definition SRC_ATTR : regex := quoted_attr "src" (Plus (not_char quote)).
Definition HREF_ATTR : regex := quoted_attr "href" (Plus (not_char quote)).

(** [Array.prototype.sort(compare)]: a stable sort; [compare a b = Lt]
    places [a] before [b]. *)
Fixpoint sort_insert {A} (compare : A -> A -> comparison) (x : A) (l : list A) : list A :=
  match l with
  | [] => [x]
  | y :: l' =>
      match compare x y with
      | Gt => y :: sort_insert compare x l'
      | _ => x :: l
      end
  end.

Definition sort {A} (compare : A -> A -> comparison) (l : list A) : list A :=
  fold_right (sort_insert compare) [] l.

(** A consistent comparison function, the condition under which the
    result of [sort] is defined by the language. *)
Definition consistent {A} (compare : A -> A -> comparison) : Prop :=
  (forall a b, compare b a = CompOpp (compare a b))
  /\ (forall a b c, compare a b <> Gt -> compare b c <> Gt -> compare a c <> Gt).

(** [a] may stand before [b] in a sorted array. *)
Definition precedes {A} (compare : A -> A -> comparison) (a b : A) : Prop :=
  compare a b <> Gt.

(** [array.indexOf(x)], with [None] for -1. *)
Fixpoint indexOf (x : string) (l : list string) : option nat :=
  match l with
  | [] => None
  | y :: l' => if String.eqb x y then Some O else option_map S (indexOf x l')
  end.

Section WithEnv.
Variable env : Env.

Definition CACHE_NAME : string := APP_NAME env +:+ "-v" +:+ APP_VERSION env.
Definition CACHE_VERSION : string := APP_VERSION env.
Definition CACHE_PREFIX : string := APP_NAME env +:+ "-v".

Definition isDevelopment : bool :=
  (String.eqb (hostname (location env)) "localhost"
     && String.eqb (port (location env)) "5173")
  || (String.eqb (hostname (location env)) "127.0.0.1"
     && String.eqb (port (location env)) "5173")
  || String.eqb (protocol (location env)) "file:".

(** [self.location.origin] *)
Definition origin : string :=
  protocol (location env) +:+ "//" +:+ hostname (location env) +:+
  (if String.eqb (port (location env)) "" then "" else ":" +:+ port (location env)).

(** The absolute URL of a request made with a URL string, [None] when
    the string does not parse. A plain path is appended to the origin,
    which is what the URL parser makes of it; what it makes of any other
    reference (dot segments, backslashes, characters it encodes, a host) is
    the platform's answer. *)
Definition absolute (u : string) : option string :=
  if Url.is_plain_path u then Some (origin +:+ u) else parseUrl env u.

Definition parses (u : string) : bool :=
  match absolute u with Some _ => true | None => false end.

(** The absolute URL of a URL string that parses. *)
Definition resolve (u : string) : string :=
  match absolute u with Some key => key | None => u end.

Definition INVALID_URL : string := "Failed to parse URL".

(** A platform call made with a URL string: a [TypeError] when the string
    does not parse. *)
Definition with_url {A} (u : string) (call : string -> M A) : M A :=
  match absolute u with Some key => call key | None => throw INVALID_URL end.

(** **** The logger *)

Definition console_write (l : Level) (a : list string) : M unit :=
  modify (fun w => mkWorld (caches w) (fetches w) (console w ++ [{| level := l; args := a |}])
                     (detached w) (replies w) (broadcasts w) (skipWaitingCalls w)
                     (claims w)).

Definition logger_log (a : list string) : M unit :=
  if isDevelopment then console_write LOG a else ret tt.
Definition logger_warn (a : list string) : M unit :=
  if isDevelopment then console_write WARN a else ret tt.
Definition logger_debug (a : list string) : M unit :=
  if isDevelopment then console_write DEBUG a else ret tt.
Definition logger_error (a : list string) : M unit := console_write ERROR a.

(** **** Platform calls *)

(** A fetch of the absolute URL [u], settled: the network's answer to
    this call. *)
Definition fetch_settled (u : string) : M FetchResult :=
  fun w => (Ok (network env (fetches w) u),
            mkWorld (caches w) (S (fetches w)) (console w) (detached w) (replies w)
                    (broadcasts w) (skipWaitingCalls w) (claims w)).

(** [await fetch(request)] *)
Definition fetch_request (u : string) : M Response :=
  do r <- fetch_settled u;
  match r with
  | Resolved response => ret response
  | Rejected message => throw message
  end.

(** [await fetch(u)] with a URL string *)
Definition fetch (u : string) : M Response := with_url u fetch_request.

Definition cache_api {A} (m : M A) : M A :=
  if cacheApiOk env then m else throw "The operation is insecure.".

(** [await caches.keys()] *)
Definition caches_keys : M (list string) :=
  cache_api (do w <- get_world; ret (storage_keys (caches w))).

(** [await caches.open(name)]; the handle is the name. *)
Definition caches_open (name : string) : M string :=
  cache_api (modify (with_caches (storage_open name)) ;; ret name).

(** [await caches.delete(name)] *)
Definition caches_delete (name : string) : M bool :=
  cache_api (do w <- get_world;
             modify (with_caches (storage_delete name)) ;;
             ret (storage_has name (caches w))).

(** [await caches.match(request)] *)
Definition caches_match_request (u : string) : M (option Response) :=
  cache_api (do w <- get_world; ret (storage_match u (caches w))).

(** [await caches.match(u)] with a URL string *)
Definition caches_match (u : string) : M (option Response) :=
  with_url u caches_match_request.

(** [await cache.put(request, response)]: a partial response (206) is
    refused. *)
Definition cache_put_request (cache u : string) (r : Response) : M unit :=
  cache_api (if (status r =? 206)%N then throw "Partial response (status code 206) is unsupported"
             else modify (with_caches (storage_put cache u r))).

(** [await cache.put(u, response)] with a URL string *)
Definition cache_put (cache u : string) (r : Response) : M unit :=
  with_url u (fun key => cache_put_request cache key r).

Definition cacheable (r : FetchResult) : option Response :=
  match r with
  | Resolved response =>
      if ok response && negb (status response =? 206)%N then Some response else None
  | Rejected _ => None
  end.

Fixpoint put_all (cache : string) (entries : list (string * FetchResult)) : M unit :=
  match entries with
  | [] => ret tt
  | (u, Resolved r) :: rest => cache_put_request cache (resolve u) r ;; put_all cache rest
  | (_, Rejected _) :: rest => put_all cache rest
  end.

Definition all_cacheable (results : list (string * FetchResult)) : bool :=
  forallb (fun ur => match cacheable (snd ur) with Some _ => true | None => false end)
          results.

Definition ADD_ALL_FAILED : string :=
  "Failed to execute 'addAll' on 'Cache': Request failed".

(** [await cache.addAll(urls)]: a [TypeError] before any request when one
    of the strings does not parse; otherwise every request is issued and,
    unless every response is ok, nothing is stored and the promise
    rejects. *)
Definition cache_addAll (cache : string) (urls : list string) : M unit :=
  cache_api (if forallb parses urls
             then do results <- map_each urls (fun u => do r <- fetch_settled (resolve u);
                                                        ret (u, r));
                  if all_cacheable results
                  then put_all cache results
                  else throw ADD_ALL_FAILED
             else throw INVALID_URL).

(** What storing the answers to a batch of requests leaves in [cache]:
    every cacheable answer under the URL it answers. *)
Definition store (cache : string) (st : list (string * gmap string Response))
    (answer : string * FetchResult) : list (string * gmap string Response) :=
  match cacheable (snd answer) with
  | Some r => storage_put cache (resolve (fst answer)) r st
  | None => st
  end.

Definition store_all (cache : string) (answers : list (string * FetchResult))
    (st : list (string * gmap string Response)) : list (string * gmap string Response) :=
  fold_left (store cache) answers st.

(** The network's answers to requests for [urls] issued one after the
    other, the first as fetch number [t]. *)
Fixpoint settle_all (t : nat) (urls : list string) : list (string * FetchResult) :=
  match urls with
  | [] => []
  | u :: rest => (u, network env t (resolve u)) :: settle_all (S t) rest
  end.

(** [await cache.add(u)] *)
Definition cache_add (cache u : string) : M unit := cache_addAll cache [u].

(** [self.skipWaiting()] *)
Definition skipWaiting : M unit :=
  modify (fun w => mkWorld (caches w) (fetches w) (console w) (detached w) (replies w)
                     (broadcasts w) (S (skipWaitingCalls w)) (claims w)).

(** [await self.clients.claim()] *)
Definition clients_claim : M unit :=
  modify (fun w => mkWorld (caches w) (fetches w) (console w) (detached w) (replies w)
                     (broadcasts w) (skipWaitingCalls w) (S (claims w))).

(** [client.postMessage(message)] *)
Definition client_postMessage (client : nat) (message : Activated) : M unit :=
  modify (fun w => mkWorld (caches w) (fetches w) (console w) (detached w) (replies w)
                     (broadcasts w ++ [(client, message)]) (skipWaitingCalls w) (claims w)).

(** [event.ports[0]?.postMessage(reply)] *)
Definition reply_on (ports : list nat) (reply : Reply) : M unit :=
  match ports with
  | [] => ret tt
  | p :: _ =>
      modify (fun w => mkWorld (caches w) (fetches w) (console w) (detached w)
                         (replies w ++ [(p, reply)]) (broadcasts w)
                         (skipWaitingCalls w) (claims w))
  end.

(** Starting a promise chain without awaiting it. *)
Definition detach (t : Task) : M unit :=
  modify (fun w => mkWorld (caches w) (fetches w) (console w) (detached w ++ [t])
                     (replies w) (broadcasts w) (skipWaitingCalls w) (claims w)).

(** **** [CacheManager] *)

(** [CacheManager.getAppCaches()] *)
Definition getAppCaches : M (list string) :=
  do cacheNames <- caches_keys;
  ret (List.filter (fun name => JsString.startsWith CACHE_PREFIX name) cacheNames).

(** [CacheManager.currentCacheExists()] *)
Definition currentCacheExists : M bool :=
  do cacheNames <- caches_keys;
  ret (existsb (String.eqb CACHE_NAME) cacheNames).

(** The comparison function handed to [sort]. *)
Definition by_version_descending (a b : string) : comparison :=
  let versionA := JsString.replace CACHE_PREFIX "" a in
  let versionB := JsString.replace CACHE_PREFIX "" b in
  localeCompare env versionB versionA.

Definition cachesToDelete (appCaches : list string) : list string :=
  let sortedCaches := sort by_version_descending appCaches in
  (if (MAX_CACHES <? length sortedCaches)%nat then skipn MAX_CACHES sortedCaches else [])
  ++ (if negb isDevelopment
      then List.filter (fun name => negb (String.eqb name CACHE_NAME)) sortedCaches
      else []).

(** [CacheManager.cleanupOldCaches()] *)
Definition cleanupOldCaches : M (list bool) :=
  do appCaches <- getAppCaches;
  let currentCacheIndex := indexOf CACHE_NAME appCaches in
  map_each (cachesToDelete appCaches) (fun cacheName =>
    logger_log ["Deleting old cache:"; cacheName] ;;
    caches_delete cacheName).

(** [CacheManager.forceCacheUpdate()] *)
Definition forceCacheUpdate : M unit :=
  logger_log ["Force updating cache..."] ;;
  caches_delete CACHE_NAME ;;
  do cache <- caches_open CACHE_NAME;
  cache_addAll cache STATIC_CACHE_URLS.

(** The generations owned by the application, as [getAppCaches] lists
    them, and the version string embedded in a generation's name. *)
Definition owned (st : list (string * gmap string Response)) : list string :=
  List.filter (fun name => JsString.startsWith CACHE_PREFIX name) (storage_keys st).

Definition version_of (name : string) : string := JsString.replace CACHE_PREFIX "" name.

(** The cached shell a production navigation is answered with:
    [caches.match('/index.html') || caches.match('/')]. *)
Definition shell_of (st : list (string * gmap string Response)) : option Response :=
  match storage_match (resolve "/index.html") st with
  | Some r => Some r
  | None => storage_match (resolve "/") st
  end.

(** **** The [install] handler *)

(** The normalisation of a discovered [src] or [href]. *)
Definition normalize_asset (src : string) : string :=
  if JsString.startsWith "./" src then JsString.substring_from 1 src
  else if JsString.startsWith "/" src then src
  else "/" +:+ src.

(** One [forEach] over the matches of a tag pattern; [additionalUrls]
    keeps what was pushed before an exception. *)
Fixpoint collect_assets (attr : regex) (matches : list string) (additionalUrls : list string)
  : list string * option string :=
  match matches with
  | [] => (additionalUrls, None)
  | m :: rest =>
      match match_group attr m with
      | None => (additionalUrls, Some "Cannot read properties of null (reading '1')")
      | Some src =>
          collect_assets attr rest
            (if JsString.includes "://" src then additionalUrls
             else additionalUrls ++ [normalize_asset src])
      end
  end.

(** The assets the entry document refers to. *)
Definition discovered_assets (text : string) : list string * option string :=
  let scriptMatches := match_all SCRIPT_TAG text in
  let linkMatches := match_all LINK_TAG text in
  match collect_assets SRC_ATTR scriptMatches [] with
  | (urls, Some e) => (urls, Some e)
  | (urls, None) => collect_assets HREF_ATTR linkMatches urls
  end.

(** The static manifest: one bulk write, then one write per entry. *)
Definition cache_static_assets (cache : string) : M unit :=
  try_catch
    (cache_addAll cache STATIC_CACHE_URLS ;;
     logger_log ["Static assets cached successfully"])
    (fun addAllError =>
       logger_error ["Failed to cache static assets:"; addAllError] ;;
       for_each STATIC_CACHE_URLS (fun url =>
         try_catch
           (cache_add cache url ;;
            logger_log ["Successfully cached:"; url])
           (fun individualError =>
              logger_error ["Failed to cache individual asset:"; url; individualError]))).

(** Fetching the entry document and reading its script and stylesheet
    references; the result is [additionalUrls]. *)
Definition discover : M (list string) :=
  fun w =>
    match fetch "/index.html" w with
    | (Ok indexResponse, w1) =>
        if ok indexResponse then
          match discovered_assets (text_of indexResponse) with
          | (urls, None) =>
              (logger_log ("Found additional assets to cache:" :: urls) ;; ret urls) w1
          | (urls, Some e) =>
              (logger_log ["Could not extract assets from index.html, will cache dynamically:"; e] ;;
               ret urls) w1
          end
        else (Ok [], w1)
    | (Throw e, w1) =>
        (logger_log ["Could not extract assets from index.html, will cache dynamically:"; e] ;;
         ret []) w1
    end.

Definition cache_additional (cache : string) (additionalUrls : list string) : M unit :=
  for_each additionalUrls (fun url =>
    try_catch
      (do response <- fetch url;
       if ok response
       then cache_put cache url response ;; logger_log ["Cached additional asset:"; url]
       else ret tt)
      (fun error => logger_log ["Failed to cache additional asset:"; url; error])).

Definition cache_main_page (cache : string) : M unit :=
  try_catch
    (do mainPageResponse <- fetch "/index.html";
     if ok mainPageResponse
     then cache_put cache "/" mainPageResponse ;;
          cache_put cache "/index.html" mainPageResponse ;;
          logger_log ["Main page cached for offline access"]
     else ret tt)
    (fun e => logger_log ["Could not cache main page:"; e]).

Definition cache_manifest (cache : string) : M unit :=
  try_catch
    (do manifestResponse <- fetch "/manifest.json";
     if ok manifestResponse
     then cache_put cache "/manifest.json" manifestResponse ;;
          logger_log ["Manifest.json cached successfully"]
     else ret tt)
    (fun e => logger_log ["Could not cache manifest.json:"; e]).

(** What the production install does after the static manifest. *)
Definition install_rest (cache : string) : M unit :=
  do additionalUrls <- discover;
  cache_additional cache additionalUrls ;;
  cache_main_page cache ;;
  cache_manifest cache ;;
  cleanupOldCaches ;;
  skipWaiting ;;
  logger_log ["Service worker v" +:+ APP_VERSION env +:+ " installed successfully"].

(** The body of the [try] block of the production install. *)
Definition install_body : M unit :=
  logger_log ["Installing new service worker, rebuilding cache..."] ;;
  do cache <- caches_open CACHE_NAME;
  cache_static_assets cache ;;
  install_rest cache.

Definition install_handler : M unit :=
  logger_log ["Installing service worker v" +:+ APP_VERSION env +:+ "... ("
                +:+ (if isDevelopment then "dev" else "prod") +:+ ")"] ;;
  logger_log ["Cache name: " +:+ CACHE_NAME] ;;
  if isDevelopment then skipWaiting
  else
    skipWaiting ;;
    try_catch install_body
      (fun error =>
         logger_error ["Error during service worker installation:"; error] ;;
         skipWaiting).

(** **** The [activate] handler *)

Definition activate_handler : M unit :=
  logger_log ["Activating service worker v" +:+ APP_VERSION env +:+ "... ("
                +:+ (if isDevelopment then "dev" else "prod") +:+ ")"] ;;
  try_catch
    (cleanupOldCaches ;;
     do appCaches <- getAppCaches;
     logger_log ("Active caches after cleanup:" :: appCaches) ;;
     clients_claim ;;
     for_each (clients env) (fun client =>
       client_postMessage client
         {| sw_version := CACHE_VERSION; sw_cacheName := CACHE_NAME;
            sw_isDevelopment := isDevelopment |}) ;;
     logger_log ["Service worker v" +:+ APP_VERSION env +:+ " activated and controlling all clients"])
    (fun error =>
       logger_error ["Error during activation:"; error] ;;
       try_catch clients_claim
         (fun claimError => logger_error ["Error claiming clients:"; claimError])).

(** **** The [message] handler *)

Record MessageData := { mtype : option string; payload : option string }.
Record MessageEvent := { data : option MessageData; ports : list nat }.

Definition describe (d : option MessageData) : string :=
  match d with
  | Some {| mtype := Some t |} => t
  | _ => ""
  end.

Definition on_CLEAR_CACHE (ev : MessageEvent) : M unit :=
  try_catch
    (do cacheNames <- caches_keys;
     map_each cacheNames caches_delete ;;
     logger_log ["All caches cleared successfully"] ;;
     reply_on (ports ev) (ReplyCleared true (length cacheNames)))
    (fun error =>
       logger_error ["Error clearing caches:"; error] ;;
       reply_on (ports ev) (ReplyError false error)).

Definition on_CLEAR_APP_CACHE (ev : MessageEvent) : M unit :=
  try_catch
    (do appCaches <- getAppCaches;
     map_each appCaches caches_delete ;;
     logger_log ["App caches cleared successfully"] ;;
     reply_on (ports ev) (ReplyCleared true (length appCaches)))
    (fun error =>
       logger_error ["Error clearing app caches:"; error] ;;
       reply_on (ports ev) (ReplyError false error)).

Definition on_FORCE_UPDATE (ev : MessageEvent) : M unit :=
  try_catch
    (forceCacheUpdate ;;
     cleanupOldCaches ;;
     logger_log ["Cache force updated successfully"] ;;
     reply_on (ports ev) (ReplyForced true CACHE_VERSION))
    (fun error =>
       logger_error ["Error force updating cache:"; error] ;;
       reply_on (ports ev) (ReplyError false error)).

Definition on_GET_CACHE_INFO (ev : MessageEvent) : M unit :=
  try_catch
    (do appCaches <- getAppCaches;
     do currentExists <- currentCacheExists;
     reply_on (ports ev)
       (ReplyInfo true CACHE_VERSION CACHE_NAME currentExists appCaches isDevelopment))
    (fun error =>
       logger_error ["Error getting cache info:"; error] ;;
       reply_on (ports ev) (ReplyError false error)).

Definition message_handler (ev : MessageEvent) : M unit :=
  logger_log ["Message received:"; describe (data ev)] ;;
  match data ev with
  | None => ret tt
  | Some d =>
      match mtype d with
      | None => ret tt
      | Some type =>
          if String.eqb type "" then ret tt
          else if String.eqb type "SKIP_WAITING" then skipWaiting
          else if String.eqb type "CLEAR_CACHE" then on_CLEAR_CACHE ev
          else if String.eqb type "CLEAR_APP_CACHE" then on_CLEAR_APP_CACHE ev
          else if String.eqb type "FORCE_UPDATE" then on_FORCE_UPDATE ev
          else if String.eqb type "GET_CACHE_INFO" then on_GET_CACHE_INFO ev
          else logger_warn ["Unknown message type:"; type]
      end
  end.

(** **** The [fetch] handler *)

(** What the handler does with the event: it either leaves it to the
    browser or answers it with [event.respondWith]; a rejected promise
    handed to [respondWith] surfaces as a network error. *)
Inductive Answer :=
  | PassThrough
  | Respond (r : Response)
  | RespondRejected (message : string).

Definition respondWith (m : M Response) : M Answer :=
  fun w => match m w with
           | (Ok r, w') => (Ok (Respond r), w')
           | (Throw e, w') => (Ok (RespondRejected e), w')
           end.

Definition shouldCache (req : Request) : bool :=
  existsb (fun pattern => test pattern (url req)) DYNAMIC_CACHE_PATTERNS.

Definition is_favicon (req : Request) : bool :=
  JsString.includes "favicon.ico" (url req) || JsString.includes "favicon.svg" (url req).

Definition is_passthrough_path (pathname : string) : bool :=
  String.eqb pathname "/robots.txt" || String.eqb pathname "/sitemap.xml".

Definition not_found_file : Response := new_Response (BodyText "Not Found") 404 "" None.
Definition not_found_icon : Response := new_Response BodyNull 404 "Not Found" None.
Definition image_not_found : Response := new_Response BodyNull 404 "Image Not Found" None.
Definition service_unavailable : Response :=
  new_Response (BodyText "Service Unavailable") 503 "Service Unavailable" None.
Definition bare_not_found : Response := new_Response BodyNull 404 "" None.

(** [fetch(event.request).then(...).catch(...)] for robots.txt and sitemap.xml *)
Definition passthrough_file (req : Request) : M Response :=
  try_catch
    (do response <- fetch_request (url req);
     if ok response then ret response else throw "File not found")
    (fun _ => ret not_found_file).

(** Navigation requests in development. *)
Definition dev_navigate (req : Request) : M Response :=
  try_catch
    (do response <- fetch_request (url req);
     if ok response then ret response else throw "Dev server not responding")
    (fun _ => ret (new_Response DEV_OFFLINE_PAGE 503 "" (Some "text/html"))).

Definition favicon_file (req : Request) : M Response :=
  try_catch (fetch_request (url req)) (fun error => ret not_found_icon).

(** The typed fallback. *)
Definition typed_fallback (req : Request) : Response :=
  if String.eqb (destination req) "image" then image_not_found else service_unavailable.

(** Non-navigation requests in development. *)
Definition dev_asset (req : Request) : M Response :=
  try_catch
    (if is_favicon req then favicon_file req
     else
       try_catch
         (do response <- fetch_request (url req);
          (if (status response =? 200)%N
              && match type response with Basic => true | _ => false end
           then if shouldCache req then detach (TOpenPut (url req) response) else ret tt
           else ret tt) ;;
          ret response)
         (fun networkError =>
            try_catch
              (do cachedResponse <- caches_match_request (url req);
               match cachedResponse with
               | Some r => ret r
               | None => ret (typed_fallback req)
               end)
              (fun cacheError => ret bare_not_found)))
    (fun error => ret bare_not_found).

(** The manifest branch of production: [Some] is a returned response,
    [None] falls through to the code after the branch. *)
Definition production_manifest : M (option Response) :=
  do cachedManifest <- caches_match "/manifest.json";
  match cachedManifest with
  | Some r => logger_log ["Serving manifest.json from cache"] ;; ret (Some r)
  | None =>
      try_catch
        (do response <- fetch "/manifest.json";
         if ok response
         then do cache <- caches_open CACHE_NAME;
              detach (TPut cache (resolve "/manifest.json") response) ;;
              logger_log ["Fetched and cached manifest.json"] ;;
              ret (Some response)
         else ret None)
        (fun error =>
           logger_error ["Failed to fetch manifest.json:"; error] ;;
           ret (Some (new_Response DefaultManifest 200 "" (Some "application/json"))))
  end.

Definition or_else (first : option Response) (second : M (option Response))
  : M (option Response) :=
  match first with
  | Some r => ret (Some r)
  | None => second
  end.

(** Navigation requests in production. *)
Definition production_navigate : M Response :=
  do fromIndex <- caches_match "/index.html";
  do cachedResponse <- or_else fromIndex (caches_match "/");
  match cachedResponse with
  | Some r =>
      logger_log ["Serving navigation from cache - instant offline access"] ;;
      detach TRevalidateShell ;;
      ret r
  | None =>
      do firstVisit <-
        try_catch
          (do response <- fetch "/index.html";
           if ok response
           then do cache <- caches_open CACHE_NAME;
                detach (TPut cache (resolve "/") response) ;;
                detach (TPut cache (resolve "/index.html") response) ;;
                logger_log ["First visit - cached navigation response"] ;;
                ret (Some response)
           else ret None)
          (fun networkError =>
             logger_warn ["Network failed for first navigation visit"] ;;
             ret None);
      match firstVisit with
      | Some response => ret response
      | None =>
          logger_error ["Critical: No cache available for navigation request"] ;;
          ret (new_Response NotCachedPage 200 "" (Some "text/html"))
      end
  end.

(** Every other request in production. *)
Definition production_asset (req : Request) : M Response :=
  do cachedResponse <- caches_match_request (url req);
  match cachedResponse with
  | Some r =>
      logger_log ["Serving from cache:"; url req] ;;
      detach (TRevalidate (url req)) ;;
      ret r
  | None =>
      try_catch
        (do response <- fetch_request (url req);
         (if (status response =? 200)%N
             && match type response with Basic => true | _ => false end
          then if shouldCache req then detach (TCacheDynamic (url req) response) else ret tt
          else ret tt) ;;
         ret response)
        (fun fetchError =>
           logger_warn ["Network fetch failed for:"; url req; fetchError] ;;
           do fallbackCache <- caches_match_request (url req);
           match fallbackCache with
           | Some r =>
               logger_log ["Serving stale cache for failed request:"; url req] ;;
               ret r
           | None =>
               do indexCache <-
                 (if String.eqb (mode req) "navigate"
                  then caches_match "/index.html" else ret None);
               match indexCache with
               | Some r =>
                   logger_log ["Serving cached index.html for navigation fallback"] ;;
                   ret r
               | None => ret (typed_fallback req)
               end
           end)
  end.

(** The production strategy: the [async] function handed to
    [respondWith]. *)
Definition production_respond (req : Request) : M Response :=
  try_catch
    (let pathname := Url.pathname (url req) in
     if is_passthrough_path pathname then
       try_catch
         (do response <- fetch_request (url req);
          if ok response then ret response else throw "File not found")
         (fun error => ret not_found_file)
     else if is_favicon req then favicon_file req
     else
       do manifest <-
         (if JsString.includes "manifest.json" (url req)
          then production_manifest else ret None);
       match manifest with
       | Some r => ret r
       | None =>
           if String.eqb (mode req) "navigate" then production_navigate
           else production_asset req
       end)
    (fun cacheError =>
       logger_error ["Cache operation failed:"; cacheError] ;;
       try_catch (fetch_request (url req))
         (fun finalError =>
            logger_error ["All fallbacks failed for:"; url req] ;;
            ret service_unavailable)).

Definition fetch_handler (req : Request) : M Answer :=
  if negb (String.eqb (method req) "GET") then ret PassThrough
  else if negb (JsString.startsWith origin (url req)) then ret PassThrough
  else
    let pathname := Url.pathname (url req) in
    if is_passthrough_path pathname then respondWith (passthrough_file req)
    else if isDevelopment then
      let shouldSkip := existsb (fun pattern => test pattern (url req)) DEV_EXCLUDE_PATTERNS in
      if shouldSkip then ret PassThrough
      else if String.eqb (mode req) "navigate" then respondWith (dev_navigate req)
      else respondWith (dev_asset req)
    else respondWith (production_respond req).

(** **** Detached work *)

Definition swallow (m : M unit) : M unit := try_catch m (fun _ => ret tt).

(** What a detached promise chain does once it runs. *)
Definition run_task (t : Task) : M unit :=
  match t with
  | TOpenPut key r =>
      swallow (do cache <- caches_open CACHE_NAME; cache_put_request cache key r)
  | TCacheDynamic key r =>
      try_catch
        (do cache <- caches_open CACHE_NAME;
         logger_log ["Caching dynamic asset:"; key] ;;
         cache_put_request cache key r)
        (fun error => logger_debug ["Cache write failed (non-critical):"; error])
  | TPut cache key r => swallow (cache_put_request cache key r)
  | TRevalidateShell =>
      swallow
        (do response <- fetch "/index.html";
         if ok response
         then swallow
                (do cache <- caches_open CACHE_NAME;
                 swallow (cache_put cache "/" response) ;;
                 swallow (cache_put cache "/index.html" response) ;;
                 logger_log ["Background cache update completed"])
         else ret tt)
  | TRevalidate key =>
      swallow
        (do response <- fetch_request key;
         if (status response =? 200)%N
            && match type response with Basic => true | _ => false end
         then if existsb (fun pattern => test pattern key) DYNAMIC_CACHE_PATTERNS
              then swallow (do cache <- caches_open CACHE_NAME;
                            swallow (cache_put_request cache key response))
              else ret tt
         else ret tt)
  end.

Definition take_detached : M (list Task) :=
  fun w => (Ok (detached w),
            mkWorld (caches w) (fetches w) (console w) [] (replies w) (broadcasts w)
                    (skipWaitingCalls w) (claims w)).

(** Letting every detached chain run to completion. *)
Definition drain : M unit :=
  do tasks <- take_detached;
  for_each tasks run_task.

(** A request handled from start to finish: the answer, then the
    detached work. *)
Definition fetch_event (req : Request) : M Answer :=
  do answer <- fetch_handler req;
  drain ;;
  ret answer.

(** **** Passthrough files and the caches

    A key is a passthrough key when its path is one of the two files
    the handler always leaves to the network. *)

Definition is_passthrough_key (key : string) : bool :=
  is_passthrough_path (Url.pathname key).

(** The keys a detached chain may write. *)
Definition task_keys (t : Task) : list string :=
  match t with
  | TOpenPut key _ | TCacheDynamic key _ | TPut _ key _ | TRevalidate key => [key]
  | TRevalidateShell => [resolve "/"; resolve "/index.html"]
  end.

(** No cache holds a passthrough key and no pending chain will write
    one. *)
Definition passthrough_free (w : World) : Prop :=
  free_of is_passthrough_key (caches w)
  /\ forall t key, In t (detached w) -> In key (task_keys t) ->
                   is_passthrough_key key = false.

(** The worker's location is that of a page served over HTTP(S). *)
Definition plain (s : string) : bool :=
  forallb (fun c => negb (Url.authority_end c)) (JsString.chars s).

Definition wf_location : bool :=
  (String.eqb (protocol (location env)) "http:"
   || String.eqb (protocol (location env)) "https:")
  && plain (hostname (location env)) && plain (port (location env)).

(** **** Sequences of events *)

Inductive Event :=
  | Install
  | Activate
  | Fetch (req : Request)
  | Message (ev : MessageEvent).

Definition handle (e : Event) : M unit :=
  match e with
  | Install => install_handler
  | Activate => activate_handler
  | Fetch req => fetch_event req ;; ret tt
  | Message ev => message_handler ev
  end.

(** The state after a sequence of events (a handler's outcome is
    discarded, as the platform discards it). *)
Fixpoint run_events (es : list Event) (w : World) : World :=
  match es with
  | [] => w
  | e :: rest => run_events rest (snd (handle e w))
  end.

End WithEnv.

End Sw.

(** ** The page-side manager ([src/utils/pwaManager.js]) *)

Module PwaManager.

Import Sw.

Record Registration := { active : bool }.

(** What a command wrapper reads on the page: whether [navigator] has
    [serviceWorker], [this.serviceWorkerRegistration], and whether the
    page's Cache API calls resolve. *)
Record Page := {
    serviceWorkerInNavigator : bool;
    serviceWorkerRegistration : option Registration;
    cachesUsable : bool
  }.

Inductive Outcome (A : Type) := Resolve (value : A) | Reject (message : string).
Arguments Resolve {A} value.
Arguments Reject {A} message.

(** A settled promise and the time, in milliseconds after the command was
    posted, at which it settled. *)
Record Settled (A : Type) := { outcome : Outcome A; elapsed : N }.
Arguments outcome {A} s.
Arguments elapsed {A} s.

Definition TIMEOUT_MESSAGE : string := "Service Worker communication timeout".

(** The promise built around a [MessageChannel] and [setTimeout]: the reply
    ([arrival], with its time of arrival) is raced against a timer of [ms]
    milliseconds; a reply clears the timer. *)
Definition wait_for_reply {A} (ms : N) (onmessage : Reply -> Outcome A)
    (arrival : option (N * Reply)) : Settled A :=
  match arrival with
  | Some (t, data) =>
      if (t <? ms)%N then {| outcome := onmessage data; elapsed := t |}
      else {| outcome := Reject TIMEOUT_MESSAGE; elapsed := ms |}
  | None => {| outcome := Reject TIMEOUT_MESSAGE; elapsed := ms |}
  end.

(** [event.data.success] and [event.data.error] *)
Definition success_of (data : Reply) : bool :=
  match data with
  | ReplyCleared s _ | ReplyForced s _ | ReplyInfo s _ _ _ _ _ | ReplyError s _ => s
  end.

(** The value a wrapper resolves with, the cache storage it leaves, and
    how long it waited for the reply. *)
Record Returned (A : Type) := {
    value : A;
    storage : list (string * gmap string Response);
    waited : N
  }.
Arguments value {A} r.
Arguments storage {A} r.
Arguments waited {A} r.

Definition is_app_cache (name : string) : bool :=
  JsString.includes "nuwault" name || JsString.includes "Nuwault" name.

Inductive CacheStatus :=
  | StatusUnsupported
  | StatusReport (active : bool) (serviceWorkerInfo : Reply)
      (browserCaches : list (string * nat * bool)) (totalCaches : nat)
  | StatusFallback (error : string) (fallbackCaches : list string) (totalCaches : nat)
  | StatusFailed (error : string).

(** [supported] and [active] of the object [getCacheStatus] resolves with. *)
Definition status_supported (s : CacheStatus) : bool :=
  match s with
  | StatusUnsupported | StatusFailed _ => false
  | StatusReport _ _ _ _ | StatusFallback _ _ _ => true
  end.


Section WithPage.
Variable page : Page.

Definition registration_active : bool :=
  match serviceWorkerRegistration page with
  | Some r => active r
  | None => false
  end.


(** [clearAppCache()] *)
Definition clearAppCache (arrival : option (N * Reply))
    (st : list (string * gmap string Response)) : Returned bool :=
  if negb (serviceWorkerInNavigator page)
  then {| value := false; storage := st; waited := 0 |}
  else if registration_active then
    let result := wait_for_reply 10000 (fun data => Resolve data) arrival in
    {| value := match outcome result with
                | Resolve data => success_of data
                | Reject _ => false
                end;
       storage := st;
       waited := elapsed result |}
  else if cachesUsable page then
    {| value := true;
       storage := List.filter (fun nc => negb (is_app_cache (fst nc))) st;
       waited := 0 |}
  else {| value := false; storage := st; waited := 0 |}.

(** [forceCacheUpdate()] *)
Definition forceCacheUpdate (arrival : option (N * Reply))
    (st : list (string * gmap string Response)) : Returned bool :=
  if negb (serviceWorkerInNavigator page)
  then {| value := false; storage := st; waited := 0 |}
  else if registration_active then
    let result := wait_for_reply 15000 (fun data => Resolve data) arrival in
    {| value := match outcome result with
                | Resolve data => success_of data
                | Reject _ => false
                end;
       storage := st;
       waited := elapsed result |}
  else {| value := false; storage := st; waited := 0 |}.

(** The [catch] block of [clearCache()]: every cache is deleted from the
    page. *)
Definition clearCache_fallback (st : list (string * gmap string Response)) (w : N)
  : Returned bool :=
  if cachesUsable page
  then {| value := true; storage := []; waited := w |}
  else {| value := false; storage := st; waited := w |}.

(** [clearCache()] *)
Definition clearCache (arrival : option (N * Reply))
    (st : list (string * gmap string Response)) : Returned bool :=
  if negb (serviceWorkerInNavigator page)
  then {| value := false; storage := st; waited := 0 |}
  else if registration_active then
    let result := wait_for_reply 2000 (fun data => Resolve (success_of data)) arrival in
    match outcome result with
    | Resolve success => {| value := success; storage := st; waited := elapsed result |}
    | Reject _ => clearCache_fallback st (elapsed result)
    end
  else if cachesUsable page
  then {| value := true; storage := []; waited := 0 |}
  else clearCache_fallback st 0.

End WithPage.

End PwaManager.

(** ** Scenarios

    Concrete surroundings for the worked examples. The collation used is the
    order of code units, which is the order [localeCompare] gives the
    version strings that occur in them. *)

Module Scenarios.

Import Sw.

Definition production : Location :=
  {| protocol := "https:"; hostname := "nuwault.com"; port := "" |}.
Definition development : Location :=
  {| protocol := "http:"; hostname := "localhost"; port := "5173" |}.

Definition page (st : N) (text : string) : Response :=
  {| status := st; statusText := ""; type := Basic; body := BodyText text;
     contentType := Some "text/html" |}.

(** A network on which every request succeeds with an empty document. *)
Definition online : nat -> string -> FetchResult := fun _ _ => Resolved (page 200 "").
Definition offline : nat -> string -> FetchResult := fun _ _ => Rejected "Failed to fetch".

(** A network that answers [status] for the URLs listed and 200 otherwise. *)
Definition failing (status : N) (urls : list string) : nat -> string -> FetchResult :=
  fun _ u => if existsb (String.eqb u) urls then Resolved (page status "")
             else Resolved (page 200 "").

(** A network that serves [document] for [u] and an empty document
    otherwise. *)
Definition serving (u document : string) : nat -> string -> FetchResult :=
  fun _ u' => Resolved (page 200 (if String.eqb u u' then document else "")).

(** A network that answers every request, same-origin requests of [own]
    with a basic response and any other with a CORS response. *)
Definition web (own : string) : nat -> string -> FetchResult :=
  fun _ u => Resolved {| status := 200; statusText := ""; body := BodyText "";
                         type := if String.eqb (Url.origin u) own then Basic else Cors;
                         contentType := None |}.

Definition worker (l : Location) (version : string) (net : nat -> string -> FetchResult)
  : Env :=
  {| location := l; APP_NAME := "nuwault"; APP_VERSION := version; network := net;
     cacheApiOk := true; localeCompare := String.compare; clients := [1];
     parseUrl :=
       Url.parse_reference (protocol l)
         (protocol l +:+ "//" +:+ hostname l
            +:+ (if String.eqb (port l) "" then "" else ":" +:+ port l)) |}.

Definition world (st : list (string * gmap string Response)) : World :=
  mkWorld st 0 [] [] [] [] 0 0.

Definition command (type : string) : MessageEvent :=
  {| data := Some {| mtype := Some type; payload := None |}; ports := [7] |}.

Definition get (u destination : string) : Request :=
  {| method := "GET"; url := u; mode := "no-cors"; destination := destination |}.

Definition navigate (u : string) : Request :=
  {| method := "GET"; url := u; mode := "navigate"; destination := "document" |}.

(** A generation holding an empty document under each of [keys]. *)
Definition generation (keys : list string) : gmap string Response :=
  fold_right (fun k c => <[k := page 200 ""]> c) ∅ keys.

(** [<script src="u"></script>] *)
Definition script_tag (u : string) : string :=
  "<script src=" +:+ String quote (u +:+ String quote "></script>").

End Scenarios.

(** ** Environment files ([loadEnvironmentVariables] of [scripts/generate-sw.js])

    [process.env] is a map from names to strings and the file system maps
    the name of a file at the root of the project to its text. Strings are
    read as sequences of code units below 256; what the generator prints is
    left out. *)

Module DotEnv.

(** White space and line terminators, the characters [trim] removes. *)
Definition is_space (c : ascii) : bool :=
  let n := nat_of_ascii c in
  ((n =? 9) || (n =? 10) || (n =? 11) || (n =? 12) || (n =? 13) || (n =? 32) || (n =? 160))%nat.

Fixpoint trim_start (s : list ascii) : list ascii :=
  match s with
  | c :: s' => if is_space c then trim_start s' else s
  | [] => []
  end.

Definition trim_end (s : list ascii) : list ascii := rev (trim_start (rev s)).

(** [s.trim()] *)
Definition trim (s : string) : string :=
  JsString.of_chars (trim_end (trim_start (JsString.chars s))).

(** [s.split(sep)] with a separator of one character; the result is never
    empty. *)
Fixpoint split (sep : ascii) (s : list ascii) : list (list ascii) :=
  match s with
  | [] => [[]]
  | c :: s' =>
      if Ascii.eqb c sep then [] :: split sep s'
      else match split sep s' with
           | part :: parts => (c :: part) :: parts
           | [] => [[c]]
           end
  end.

(** [parts.join(sep)] *)
Fixpoint join (sep : ascii) (parts : list (list ascii)) : list ascii :=
  match parts with
  | [] => []
  | [part] => part
  | part :: parts' => part ++ sep :: join sep parts'
  end.

(** The callback of [envContent.split('\n').forEach]. *)
Definition parse_line (env : gmap string string) (line : string) : gmap string string :=
  let line := trim line in
  if negb (String.eqb line "") && negb (JsString.startsWith "#" line) then
    match split "=" (JsString.chars line) with
    | key :: valueParts =>
        if negb (String.eqb (JsString.of_chars key) "") && (0 <? length valueParts)%nat
        then let value := trim (JsString.of_chars (join "=" valueParts)) in
             <[JsString.of_chars key := value]> env
        else env
    | [] => env
    end
  else env.

Definition lines (envContent : string) : list string :=
  map JsString.of_chars (split (ascii_of_nat 10) (JsString.chars envContent)).

Definition envFiles : list string :=
  [".env.development.local"; ".env.local"; ".env.development"; ".env"].

(** [loadEnvironmentVariables()]: [files] gives the text of the files that
    exist. *)
Definition loadEnvironmentVariables (files : string -> option string)
    (env : gmap string string) : gmap string string :=
  fold_left
    (fun env envFile =>
       match files envFile with
       | Some envContent => fold_left parse_line (lines envContent) env
       | None => env
       end)
    envFiles env.

(** The name a line assigns, if it assigns one. *)
Definition assigned (line : string) : option string :=
  let line := trim line in
  if negb (String.eqb line "") && negb (JsString.startsWith "#" line) then
    match split "=" (JsString.chars line) with
    | key :: valueParts =>
        if negb (String.eqb (JsString.of_chars key) "") && (0 <? length valueParts)%nat
        then Some (JsString.of_chars key)
        else None
    | [] => None
    end
  else None.

End DotEnv.

(** A lower-case hexadecimal digit. *)
Definition is_hex (c : ascii) : bool :=
  let n := nat_of_ascii c in
  (((48 <=? n) && (n <=? 57)) || ((97 <=? n) && (n <=? 102)))%nat.

(** ** Statements about the worker's state *)

Module SwState.

Import Sw.

(** The response a pending write carries, if it carries one. *)
Definition task_holds (T : Response -> Prop) (t : Task) : Prop :=
  match t with
  | TOpenPut _ r | TCacheDynamic _ r | TPut _ _ r => T r
  | TRevalidateShell | TRevalidate _ => True
  end.

(** Every response held by some cache satisfies [T]. *)
Definition stored (T : Response -> Prop) (st : list (string * gmap string Response)) : Prop :=
  forall name c key r, In (name, c) st -> c !! key = Some r -> T r.

(** A response with a status from 200 to 299 other than 206. *)
Definition successful (r : Response) : Prop := ok r = true /\ (status r =? 206)%N = false.

(** The caches hold successful responses only, and so will every write
    that is still pending. *)
Definition only_successful (w : World) : Prop :=
  stored successful (caches w)
  /\ forall t, In t (detached w) -> task_holds (fun r => ok r = true) t.

(** The console holds nothing but errors. *)
Definition only_errors (w : World) : Prop :=
  Forall (fun e => level e = ERROR) (console w).

(** Every cache and every entry of [st] is still there. *)
Definition retains (st : list (string * gmap string Response)) (w : World) : Prop :=
  (forall name, storage_has name st = true -> storage_has name (caches w) = true)
  /\ (forall name key, entry name key st <> None -> entry name key (caches w) <> None).

(** What a handler shows of itself besides caches, requests and console. *)
Definition control (w : World)
  : list Task * list (nat * Reply) * list (nat * Activated) * nat * nat :=
  (detached w, replies w, broadcasts w, skipWaitingCalls w, claims w).

Definition unchanged
    (shown : list Task * list (nat * Reply) * list (nat * Activated) * nat * nat)
    (w : World) : Prop :=
  control w = shown.

(** A computation started in a state that satisfies [Pre] ends in a state
    that satisfies [Post] when it returns and [Exc] when it throws. *)
Definition triple {A} (Pre : World -> Prop) (m : M A) (Post : A -> World -> Prop)
    (Exc : string -> World -> Prop) : Prop :=
  forall w, Pre w ->
    match m w with
    | (Ok a, w') => Post a w'
    | (Throw e, w') => Exc e w'
    end.

(** A computation that, however it ends, leaves what the handler shows of
    itself as it was. *)
Definition calm {A} (m : M A) : Prop :=
  forall shown, triple (unchanged shown) m (fun _ => unchanged shown) (fun _ => unchanged shown).

(** The state [w'] differs from [w] in what it shows by one reply on
    [port]. *)
Definition answered (w : World) (port : nat) (w' : World) : Prop :=
  (exists reply, replies w' = replies w ++ [(port, reply)])
  /\ detached w' = detached w /\ broadcasts w' = broadcasts w
  /\ skipWaitingCalls w' = skipWaitingCalls w /\ claims w' = claims w.

(** The current cache holds the application shell, the application owns
    no more caches than it keeps, and only successful responses are
    stored. *)
Definition shell_installed (env : Env) (w : World) : Prop :=
  entry (CACHE_NAME env) (resolve env "/index.html") (caches w) <> None
  /\ length (owned env (caches w)) <= MAX_CACHES
  /\ stored successful (caches w).

End SwState.

(** * Properties *)

Example sha256_abc :
  Sha256.sha256_hex "abc" =
  "ba7816bf8f01cfea414140de5dae2223b00361a396177a9cb410ff61f20015ad".
Proof. vm_compute. reflexivity. Qed.

Example sha256_empty :
  Sha256.sha256_hex "" =
  "e3b0c44298fc1c149afbf4c8996fb92427ae41e4649b934ca495991b7852b855".
Proof. vm_compute. reflexivity. Qed.

Example sha256_two_blocks :
  Sha256.sha256_hex "abcdbcdecdefdefgefghfghighijhijkijkljklmklmnlmnomnopnopq" =
  "248d6a61d20638b8e5c026930c3e6039a33ce45964ff2167f6ecedd419db06c1".
Proof. vm_compute. reflexivity. Qed.

Example toString_examples :
  JsString.toString 1700000000000 = "1700000000000" /\
  JsString.toString 0 = "0" /\
  JsString.toString_radix 36 1700000000 = "s44we8" /\
  JsString.toString_radix 36 35 = "z" /\
  JsString.toString_radix 36 36 = "10".
Proof. vm_compute. repeat split. Qed.

Example generateCacheVersion_examples :
  let zeros := repeat Byte.x00 8 in
  fst (SwGenerator.generateCacheVersion
         (SwGenerator.process_of 1700000000000 1700000000000 zeros) "1.2.0" 0)
    = "1.2.0-b9829bc4" /\
  fst (SwGenerator.generateCacheVersion
         (SwGenerator.process_of 1700000000000 1700000000001 zeros) "1.0.0" 0)
    = "1.0.0-s44we8-398a6587".
Proof. vm_compute. split; reflexivity. Qed.


Example url_examples :
  Url.pathname "https://nuwault.com/robots.txt?x=1#top" = "/robots.txt" /\
  Url.pathname "http://localhost:5173" = "/" /\
  Url.origin "http://localhost:51730/app.js" = "http://localhost:51730" /\
  Url.origin "https://user:pw@nuwault.com/a@b" = "https://nuwault.com".
Proof. vm_compute. repeat split. Qed.

Example pattern_examples :
  existsb (fun p => Regex.test p "https://nuwault.com/assets/index-abc123.js")
          Sw.DYNAMIC_CACHE_PATTERNS = true
  /\ existsb (fun p => Regex.test p "https://nuwault.com/assets/index-abc123.js?v=2")
             Sw.DYNAMIC_CACHE_PATTERNS = false
  /\ existsb (fun p => Regex.test p "https://nuwault.com/fonts/inter.woff")
             Sw.DYNAMIC_CACHE_PATTERNS = true
  /\ existsb (fun p => Regex.test p "http://localhost:5173/src/main.js")
             Sw.DEV_EXCLUDE_PATTERNS = true
  /\ existsb (fun p => Regex.test p "http://localhost:5173/main.js?t=1700000000000")
             Sw.DEV_EXCLUDE_PATTERNS = true
  /\ existsb (fun p => Regex.test p "http://localhost:5173/main.js?t=")
             Sw.DEV_EXCLUDE_PATTERNS = false.
Proof. vm_compute. repeat split. Qed.

Example discovered_assets_examples :
  let q := String Sw.quote "" in
  Sw.discovered_assets
    ("<head><script type=" +:+ q +:+ "module" +:+ q +:+ " src=" +:+ q +:+ "./assets/index-abc.js"
       +:+ q +:+ "></script><script src=" +:+ q +:+ "https://cdn.example/lib.js" +:+ q
       +:+ "></script><link rel=" +:+ q +:+ "stylesheet" +:+ q +:+ " href=" +:+ q
       +:+ "assets/index-def.css" +:+ q +:+ "><link rel=" +:+ q +:+ "icon" +:+ q
       +:+ " href=" +:+ q +:+ "/favicon.svg" +:+ q +:+ "></head>")
  = (["/assets/index-abc.js"; "/assets/index-def.css"], None).
Proof. vm_compute. reflexivity. Qed.

(** ** Version strings *)

Section VersionStrings.
Import SwGenerator.

Lemma hex_bytes_length (bs : list N) :
  String.length (Sha256.hex_bytes bs) = 2 * length bs.
Proof.
    induction bs as [|b bs IH]; simpl; [reflexivity|]. rewrite IH. lia.
Qed.

Lemma be_bytes_length (n : nat) (x : N) : length (Sha256.be_bytes n x) = n.
Proof.
    revert x. induction n as [|n IH]; intros x; simpl; [reflexivity|].
    rewrite length_app, IH. simpl. lia.
Qed.

Lemma string_length_append (s1 s2 : string) :
  String.length (s1 +:+ s2) = String.length s1 + String.length s2.
Proof. induction s1 as [|c s1 IH]; simpl; [reflexivity|]. now rewrite IH. Qed.

Lemma sha256_hex_length (s : string) : String.length (Sha256.sha256_hex s) = 64.
Proof.
    unfold Sha256.sha256_hex, Sha256.hex_state, Sha256.hex_word.
    rewrite !string_length_append, !hex_bytes_length, !be_bytes_length. reflexivity.
Qed.

Lemma substring_length (n : nat) (s : string) :
  n <= String.length s -> String.length (String.substring 0 n s) = n.
Proof.
    revert s. induction n as [|n IH]; intros [|c s]; simpl; intros H; try lia.
    f_equal. apply IH. lia.
Qed.

Lemma generateBuildHash_length (p : Process) (reads : nat) :
  String.length (fst (generateBuildHash p reads)) = 8.
Proof.
    unfold generateBuildHash, JsString.substring_to. cbn [fst].
    apply substring_length. rewrite sha256_hex_length. lia.
Qed.

(** The generator agrees with the specification's formula whenever its two
    clock readings coincide. *)
Lemma generateCacheVersion_same_reading (p : Process) (appVersion : string) (reads : nat) :
  now p (S reads) = now p reads ->
  fst (generateCacheVersion p appVersion reads)
  = versionString_spec appVersion (now p reads) (randomBytes p 8).
Proof.
    intros Hsame.
    unfold generateCacheVersion, generateBuildHash, versionString_spec,
      buildHash_spec, isReleaseBuild_spec.
    rewrite Hsame, negb_orb.
    destruct (negb (appVersion =? "0.0.0")%string && negb (appVersion =? "1.0.0")%string);
      reflexivity.
Qed.

Lemma generateCacheVersion_same_reading_witness :
  fst (generateCacheVersion
         (process_of 1700000000000 1700000000000 (repeat Byte.x00 8)) "1.2.0" 0)
  = versionString_spec "1.2.0" 1700000000000 (repeat Byte.x00 8).
Proof.
    apply (generateCacheVersion_same_reading
             (process_of 1700000000000 1700000000000 (repeat Byte.x00 8)) "1.2.0" 0).
    reflexivity.
Defined.

(** C1, as stated, fails: the build hash is computed from a clock reading
    of its own, taken after the reading that becomes [buildTimestamp]. With
    the clock advancing by one millisecond between the two readings the
    generated string differs from the specification's formula, and two runs
    with the same [appVersion], [buildTimestamp] and entropy differ. *)
Lemma C1_counterexample :
  let entropy := repeat Byte.x00 8 in
  let ticking := process_of 1700000000000 1700000000001 entropy in
  let frozen := process_of 1700000000000 1700000000000 entropy in
  fst (generateCacheVersion ticking "1.2.0" 0)
    <> versionString_spec "1.2.0" (now ticking 0) (randomBytes ticking 8)
  /\ now ticking 0 = now frozen 0
  /\ randomBytes ticking 8 = randomBytes frozen 8
  /\ fst (generateCacheVersion ticking "1.2.0" 0)
     <> fst (generateCacheVersion frozen "1.2.0" 0).
Proof. vm_compute. repeat split; discriminate. Qed.

(** C1, amended: the version string is a function of [appVersion], the two
    clock readings and the entropy. The build hash is the first eight
    hexadecimal characters of SHA-256 over the decimal digits of the second
    reading followed by the entropy in hexadecimal; for a version other
    than 0.0.0 and 1.0.0 the result is [appVersion-buildHash], otherwise
    [appVersion-base36(floor(buildTimestamp/1000))-buildHash], the base-36
    component coming from the first reading. *)
Theorem C1_version_string (p : Process) (appVersion : string) (reads : nat) :
  let buildTimestamp := now p reads in
  let hashTimestamp := now p (S reads) in
  let buildHash :=
    String.substring 0 8
      (Sha256.sha256_hex (JsString.toString hashTimestamp +:+ hex_of_buffer (randomBytes p 8))) in
  String.length buildHash = 8
  /\ generateCacheVersion p appVersion reads
     = (if String.eqb appVersion "0.0.0" || String.eqb appVersion "1.0.0"
        then appVersion +:+ "-" +:+ JsString.toString_radix 36 (buildTimestamp / 1000)%N
               +:+ "-" +:+ buildHash
        else appVersion +:+ "-" +:+ buildHash,
        S (S reads)).
Proof.
    cbv zeta. split.
    - apply substring_length. rewrite sha256_hex_length. lia.
    - unfold generateCacheVersion, generateBuildHash, JsString.substring_to.
      destruct (appVersion =? "0.0.0")%string, (appVersion =? "1.0.0")%string; reflexivity.
Qed.

End VersionStrings.

(** ** Cache storage *)

Section StorageFacts.
Import Sw.

Lemma storage_keys_delete (name : string) (st : list (string * gmap string Response)) :
  storage_keys (storage_delete name st)
  = List.filter (fun k => negb (String.eqb name k)) (storage_keys st).
Proof.
    unfold storage_keys, storage_delete.
    induction st as [|[n c] st IH]; simpl; [reflexivity|].
    destruct (String.eqb name n); simpl; now rewrite IH.
Qed.

Lemma storage_keys_delete_all (names : list string) (st : list (string * gmap string Response)) :
  storage_keys (delete_all names st)
  = List.filter (fun k => negb (existsb (String.eqb k) names)) (storage_keys st).
Proof.
    unfold delete_all. revert st.
    induction names as [|n names IH]; intros st; simpl.
    - induction (storage_keys st) as [|k ks IHk]; simpl; [reflexivity | now rewrite <- IHk].
    - rewrite IH, storage_keys_delete.
      induction (storage_keys st) as [|k ks IHk]; simpl; [reflexivity|].
      rewrite (String.eqb_sym k n).
      destruct (String.eqb n k); simpl; [exact IHk|].
      destruct (existsb (String.eqb k) names); simpl; [exact IHk | now rewrite IHk].
Qed.

Lemma filter_filter {A} (f g : A -> bool) (l : list A) :
  List.filter f (List.filter g l) = List.filter (fun x => g x && f x) l.
Proof.
    induction l as [|x l IH]; simpl; [reflexivity|].
    destruct (g x); simpl; [destruct (f x)|]; now rewrite IH.
Qed.

Lemma filter_ext_in' {A} (f g : A -> bool) (l : list A) :
  (forall x, In x l -> f x = g x) -> List.filter f l = List.filter g l.
Proof.
    induction l as [|x l IH]; simpl; intros H; [reflexivity|].
    rewrite (H x (or_introl eq_refl)), IH; [reflexivity|]. intros y Hy. apply H. now right.
Qed.

Lemma filter_none {A} (f : A -> bool) (l : list A) :
  (forall x, In x l -> f x = false) -> List.filter f l = [].
Proof.
    induction l as [|x l IH]; simpl; intros H; [reflexivity|].
    rewrite (H x (or_introl eq_refl)). apply IH. intros y Hy. apply H. now right.
Qed.

Lemma existsb_eqb_In (x : string) (l : list string) :
  existsb (String.eqb x) l = true <-> In x l.
Proof.
    rewrite existsb_exists. split.
    - intros [y [Hy Heq]]. apply String.eqb_eq in Heq. now subst.
    - intros H. exists x. split; [exact H | apply String.eqb_refl].
Qed.

Lemma distinct_NoDup (l : list string) : distinct l = true -> List.NoDup l.
Proof.
    induction l as [|x l IH]; simpl; intros H; [constructor|].
    apply andb_true_iff in H as [Hx Hl]. constructor; [|now apply IH].
    intros Hin. apply existsb_eqb_In in Hin. rewrite Hin in Hx. discriminate.
Qed.

Lemma NoDup_filter' {A} (f : A -> bool) (l : list A) : List.NoDup l -> List.NoDup (List.filter f l).
Proof.
    induction 1 as [|x l Hx Hl IH]; simpl; [constructor|].
    destruct (f x); [constructor|]; auto.
    intros Hin. apply filter_In in Hin. tauto.
Qed.

End StorageFacts.

(** ** Running the worker's computations *)

Ltac monad_unfold :=
  unfold Sw.bind, Sw.ret, Sw.throw, Sw.try_catch, Sw.modify, Sw.get_world in *.

(** Calls made with a URL string that is a plain path, written as calls
    on the URL it resolves to. *)
Ltac plain_urls :=
  unfold Sw.fetch, Sw.caches_match, Sw.cache_put, Sw.with_url;
  repeat match goal with
         | |- context [Sw.absolute ?env ?u] =>
             change (Sw.absolute env u) with (Some (Sw.resolve env u))
         end;
  cbv beta iota.

Section RunFacts.
Import Sw.
Variable env : Env.

Lemma quiet_refl (w : World) : quiet w w.
Proof. unfold quiet. tauto. Qed.

Lemma quiet_trans (w1 w2 w3 : World) : quiet w1 w2 -> quiet w2 w3 -> quiet w1 w3.
Proof. unfold quiet. intuition congruence. Qed.

Lemma logger_log_run (a : list string) (w : World) :
  exists w', logger_log env a w = (Ok tt, w') /\ caches w' = caches w /\ quiet w w'.
Proof.
    unfold logger_log. destruct (isDevelopment env).
    - eexists. split; [reflexivity|]. split; [reflexivity | now unfold quiet].
    - exists w. split; [reflexivity|]. split; [reflexivity | apply quiet_refl].
Qed.

Lemma logger_log_full (a : list string) (w : World) :
  exists w' extra,
    logger_log env a w = (Ok tt, w') /\ caches w' = caches w /\ quiet w w'
    /\ console w' = console w ++ extra.
Proof.
    unfold logger_log. destruct (isDevelopment env).
    - eexists _, _. split; [reflexivity|]. split; [reflexivity|].
      split; [now unfold quiet | reflexivity].
    - exists w, []. split; [reflexivity|]. split; [reflexivity|].
      split; [apply quiet_refl | now rewrite app_nil_r].
Qed.

Lemma logger_error_run (a : list string) (w : World) :
  exists w', logger_error a w = (Ok tt, w') /\ caches w' = caches w /\ quiet w w'.
Proof.
    eexists. split; [reflexivity|]. split; [reflexivity | now unfold quiet].
Qed.

Hypothesis api : cacheApiOk env = true.

Lemma cache_api_ok {A} (m : M A) : cache_api env m = m.
Proof. unfold cache_api. now rewrite api. Qed.

Lemma caches_keys_run (w : World) :
  caches_keys env w = (Ok (storage_keys (caches w)), w).
Proof. unfold caches_keys. rewrite cache_api_ok. reflexivity. Qed.

Lemma caches_delete_run (name : string) (w : World) :
  caches_delete env name w
  = (Ok (storage_has name (caches w)), with_caches (storage_delete name) w).
Proof. unfold caches_delete. rewrite cache_api_ok. reflexivity. Qed.

Lemma caches_open_run (name : string) (w : World) :
  caches_open env name w = (Ok name, with_caches (storage_open name) w).
Proof. unfold caches_open. rewrite cache_api_ok. reflexivity. Qed.

Lemma caches_match_request_run (u : string) (w : World) :
  caches_match_request env u w = (Ok (storage_match u (caches w)), w).
Proof. unfold caches_match_request. rewrite cache_api_ok. reflexivity. Qed.

Lemma getAppCaches_run (w : World) :
  getAppCaches env w = (Ok (owned env (caches w)), w).
Proof. unfold getAppCaches. monad_unfold. rewrite caches_keys_run. reflexivity. Qed.

(** Deleting a list of caches, with or without a log line before each. *)
Lemma delete_each_run (names : list string) (w : World) :
  exists bs w',
    map_each names (caches_delete env) w = (Ok bs, w')
    /\ caches w' = delete_all names (caches w) /\ quiet w w'.
Proof.
    revert w. induction names as [|n names IH]; intros w; simpl.
    - exists [], w. split; [reflexivity|]. split; [reflexivity | apply quiet_refl].
    - monad_unfold. rewrite caches_delete_run.
      destruct (IH (with_caches (storage_delete n) w)) as (bs & w' & Hrun & Hc & Hq).
      rewrite Hrun. eexists _, w'. split; [reflexivity|]. split; [exact Hc | exact Hq].
Qed.

Lemma delete_each_logged_run (names : list string) (w : World) :
  exists bs w',
    map_each names (fun cacheName =>
      bind (logger_log env ["Deleting old cache:"; cacheName])
           (fun _ => caches_delete env cacheName)) w = (Ok bs, w')
    /\ caches w' = delete_all names (caches w) /\ quiet w w'.
Proof.
    revert w. induction names as [|n names IH]; intros w; simpl.
    - exists [], w. split; [reflexivity|]. split; [reflexivity | apply quiet_refl].
    - monad_unfold.
      destruct (logger_log_run ["Deleting old cache:"; n] w) as (w1 & Hlog & Hc1 & Hq1).
      rewrite Hlog, caches_delete_run.
      destruct (IH (with_caches (storage_delete n) w1)) as (bs & w' & Hrun & Hc & Hq).
      rewrite Hrun. eexists _, w'. split; [reflexivity|]. split.
      + rewrite Hc. simpl. now rewrite Hc1.
      + eapply quiet_trans; [exact Hq1|]. eapply quiet_trans; [|exact Hq].
        unfold quiet; simpl; tauto.
Qed.

Lemma cleanupOldCaches_run (w : World) :
  exists bs w',
    cleanupOldCaches env w = (Ok bs, w')
    /\ caches w' = delete_all (cachesToDelete env (owned env (caches w))) (caches w)
    /\ quiet w w'.
Proof.
    unfold cleanupOldCaches. monad_unfold. rewrite getAppCaches_run.
    apply delete_each_logged_run.
Qed.

End RunFacts.

(** ** The command responder *)

Section CommandFacts.
Import Sw.
Variable env : Env.

Lemma owned_delete_all (names : list string) (st : list (string * gmap string Response)) :
  owned env (delete_all names st)
  = List.filter (fun k => negb (existsb (String.eqb k) names)) (owned env st).
Proof.
    unfold owned. rewrite storage_keys_delete_all, !filter_filter.
    apply filter_ext_in'. intros x _. apply andb_comm.
Qed.

Lemma owned_cleared (st : list (string * gmap string Response)) :
  owned env (delete_all (owned env st) st) = [].
Proof.
    rewrite owned_delete_all. apply filter_none. intros x Hx.
    apply existsb_eqb_In in Hx. now rewrite Hx.
Qed.

Lemma reply_on_run (p : nat) (ps : list nat) (r : Reply) (w : World) :
  exists w', reply_on (p :: ps) r w = (Ok tt, w')
             /\ caches w' = caches w /\ replies w' = replies w ++ [(p, r)].
Proof. eexists. split; [reflexivity|]. split; reflexivity. Qed.

(** A message without data, or whose data has no type, is ignored. *)
Lemma message_without_type_run (w : World) (ev : MessageEvent) :
  data ev = None \/ (exists d, data ev = Some d /\ mtype d = None) ->
  exists w', message_handler env ev w = (Ok tt, w')
             /\ caches w' = caches w /\ quiet w w'.
Proof.
    intros Hdata. unfold message_handler. monad_unfold.
    destruct (logger_log_run env ["Message received:"; describe (data ev)] w)
      as (w' & Hlog & Hc & Hq).
    rewrite Hlog. exists w'.
    destruct Hdata as [-> | (d & -> & ->)]; auto.
Qed.

(** [CLEAR_APP_CACHE] when the Cache API rejects: the error is logged and
    sent back, and nothing else happens. *)
Lemma clear_owned_rejected (w : World) (p : nat) (ps : list nat) (pl : option string) :
  cacheApiOk env = false ->
  exists w',
    message_handler env
      {| data := Some {| mtype := Some "CLEAR_APP_CACHE"; payload := pl |};
         ports := p :: ps |} w
    = (Ok tt, w')
    /\ caches w' = caches w /\ fetches w' = fetches w
    /\ replies w' = replies w ++ [(p, ReplyError false "The operation is insecure.")].
Proof.
    intros Hapi. unfold message_handler. monad_unfold.
    match goal with |- context [logger_log env ?a w] =>
      destruct (logger_log_run env a w) as (w0 & Hlog & Hc & Hq)
    end.
    rewrite Hlog. cbn [data mtype String.eqb Ascii.eqb Bool.eqb].
    unfold on_CLEAR_APP_CACHE, getAppCaches, caches_keys, cache_api. rewrite Hapi.
    monad_unfold. cbn [ports reply_on]. unfold logger_error, console_write. monad_unfold.
    eexists. split; [reflexivity|]. cbn [caches fetches replies].
    destruct Hq as (Hf & _ & Hr & _). now rewrite Hc, Hf, Hr.
Qed.

Hypothesis api : cacheApiOk env = true.

Lemma on_CLEAR_APP_CACHE_run (ev : MessageEvent) (p : nat) (ps : list nat) (w : World) :
  ports ev = p :: ps ->
  exists w',
    on_CLEAR_APP_CACHE env ev w = (Ok tt, w')
    /\ caches w' = delete_all (owned env (caches w)) (caches w)
    /\ replies w' = replies w ++ [(p, ReplyCleared true (length (owned env (caches w))))].
Proof.
    intros Hports. unfold on_CLEAR_APP_CACHE. monad_unfold.
    rewrite (getAppCaches_run env api).
    destruct (delete_each_run env api (owned env (caches w)) w) as (bs & w1 & Hdel & Hc1 & Hq1).
    rewrite Hdel.
    destruct (logger_log_run env ["App caches cleared successfully"] w1)
      as (w2 & Hlog & Hc2 & Hq2).
    rewrite Hlog, Hports.
    eexists. split; [reflexivity|]. simpl. split.
    - congruence.
    - destruct Hq1 as (_ & _ & Hr1 & _), Hq2 as (_ & _ & Hr2 & _). congruence.
Qed.

(** [CLEAR_APP_CACHE] twice in a row with a usable Cache API. *)
Lemma clear_owned_twice_run (w : World) (p : nat) (ps : list nat) (pl : option string) :
  let ev := {| data := Some {| mtype := Some "CLEAR_APP_CACHE"; payload := pl |};
               ports := p :: ps |} in
  exists w1 w2,
      message_handler env ev w = (Ok tt, w1)
      /\ message_handler env ev w1 = (Ok tt, w2)
      /\ replies w1 = replies w ++ [(p, ReplyCleared true (length (owned env (caches w))))]
      /\ owned env (caches w1) = []
      /\ replies w2 = replies w1 ++ [(p, ReplyCleared true 0)]
      /\ caches w2 = caches w1.
Proof.
    intros ev.
    - assert (Hstep : forall w0, exists w',
                 message_handler env ev w0 = (Ok tt, w')
                 /\ caches w' = delete_all (owned env (caches w0)) (caches w0)
                 /\ replies w' = replies w0
                      ++ [(p, ReplyCleared true (length (owned env (caches w0))))]).
      { intros w0. unfold message_handler. monad_unfold.
        destruct (logger_log_run env ["Message received:"; describe (data ev)] w0)
          as (w0' & Hlog & Hc & Hq).
        rewrite Hlog. simpl.
        destruct (on_CLEAR_APP_CACHE_run ev p ps w0' eq_refl) as (w' & Hrun & Hc' & Hr').
        exists w'. split; [exact Hrun|]. rewrite Hc', Hr', Hc.
        destruct Hq as (_ & _ & Hr & _). now rewrite Hr. }
      destruct (Hstep w) as (w1 & Hrun1 & Hc1 & Hr1).
      destruct (Hstep w1) as (w2 & Hrun2 & Hc2 & Hr2).
      assert (Hnone : owned env (caches w1) = []) by (rewrite Hc1; apply owned_cleared).
      exists w1, w2. repeat split; try assumption.
      + now rewrite Hr2, Hnone.
      + now rewrite Hc2, Hnone.
Qed.

End CommandFacts.

Section CommandTheorem.
Import Sw.
Variable env : Env.

(** C10, amended: with a usable Cache API the ClearOwned command
    ([CLEAR_APP_CACHE]) issued twice in a row succeeds both times; the first
    reply counts the owned generations and leaves none, the second reply
    reports a cleared count of 0 and changes no cache. When the Cache API
    rejects, both commands are answered with [success: false] and the
    error, and no cache changes. In either case a message without data, or
    whose data has no type, is ignored: no reply is posted and the cache
    storage and the rest of the worker's state, the console aside, stay as
    they were. *)
Theorem C10_clear_owned_twice (w : World) (p : nat) (ps : list nat) (pl : option string) :
  let ev := {| data := Some {| mtype := Some "CLEAR_APP_CACHE"; payload := pl |};
               ports := p :: ps |} in
  (if cacheApiOk env
   then exists w1 w2,
          message_handler env ev w = (Ok tt, w1)
          /\ message_handler env ev w1 = (Ok tt, w2)
          /\ replies w1
             = replies w ++ [(p, ReplyCleared true (length (owned env (caches w))))]
          /\ owned env (caches w1) = []
          /\ replies w2 = replies w1 ++ [(p, ReplyCleared true 0)]
          /\ caches w2 = caches w1
   else exists error w1 w2,
          message_handler env ev w = (Ok tt, w1)
          /\ message_handler env ev w1 = (Ok tt, w2)
          /\ replies w1 = replies w ++ [(p, ReplyError false error)]
          /\ replies w2 = replies w1 ++ [(p, ReplyError false error)]
          /\ caches w1 = caches w /\ caches w2 = caches w)
  /\ (forall ev' : MessageEvent,
        data ev' = None \/ (exists d, data ev' = Some d /\ mtype d = None) ->
        exists w', message_handler env ev' w = (Ok tt, w')
                   /\ caches w' = caches w /\ quiet w w').
Proof.
  intros ev. split; [|intros ev'; apply message_without_type_run].
  destruct (cacheApiOk env) eqn:Hapi.
  - apply (clear_owned_twice_run env Hapi).
  - destruct (clear_owned_rejected env w p ps pl Hapi) as (w1 & H1 & Hc1 & _ & Hr1).
    destruct (clear_owned_rejected env w1 p ps pl Hapi) as (w2 & H2 & Hc2 & _ & Hr2).
    exists "The operation is insecure.", w1, w2. repeat split; try assumption.
    now rewrite Hc2.
Qed.

End CommandTheorem.

(** ** Sorting *)

Section SortFacts.
Import Sw.
Context {A : Type} (compare : A -> A -> comparison).

Lemma sort_insert_perm (x : A) (l : list A) : Permutation (sort_insert compare x l) (x :: l).
Proof.
    induction l as [|y l IH]; simpl; [reflexivity|].
    destruct (compare x y); try reflexivity.
    rewrite IH. apply perm_swap.
Qed.

Lemma sort_perm (l : list A) : Permutation (sort compare l) l.
Proof.
    unfold sort. induction l as [|x l IH]; simpl; [reflexivity|].
    rewrite sort_insert_perm. now constructor.
Qed.

Hypothesis ok : consistent compare.

Lemma sort_insert_sorted (x : A) (l : list A) :
  StronglySorted (precedes compare) l -> StronglySorted (precedes compare) (sort_insert compare x l).
Proof.
    destruct ok as [antisym trans].
    induction 1 as [|y l Hl IH Hy]; simpl.
    - repeat constructor.
    - assert (Hcase : compare x y = Gt \/ compare x y <> Gt)
        by (destruct (compare x y); auto; right; discriminate).
      destruct Hcase as [Hgt | Hle].
      + rewrite Hgt. constructor; [exact IH|].
        rewrite sort_insert_perm. constructor; [|exact Hy].
        unfold precedes. rewrite antisym, Hgt. discriminate.
      + assert (Hsorted : StronglySorted (precedes compare) (x :: y :: l)).
        { constructor; [now constructor|]. constructor; [exact Hle|].
          eapply List.Forall_impl; [|exact Hy]. intros z Hz. now apply (trans x y z). }
        destruct (compare x y); [exact Hsorted | exact Hsorted | now destruct Hle].
Qed.

Lemma sort_sorted (l : list A) : StronglySorted (precedes compare) (sort compare l).
Proof.
    unfold sort. induction l as [|x l IH]; simpl; [constructor|].
    now apply sort_insert_sorted.
Qed.

Lemma sorted_app_before (l1 l2 : list A) :
  StronglySorted (precedes compare) (l1 ++ l2) ->
  forall a b, In a l1 -> In b l2 -> precedes compare a b.
Proof.
    induction l1 as [|x l1 IH]; simpl; intros Hs a b Ha Hb; [contradiction|].
    inversion Hs as [|? ? Hs' Hall]; subst.
    destruct Ha as [-> | Ha].
    - rewrite List.Forall_forall in Hall. apply Hall. apply in_or_app. now right.
    - now apply IH.
Qed.

End SortFacts.

(** ** Pruning *)

Section PruneFacts.
Import Sw.
Variable env : Env.

Lemma Permutation_filter' {A} (f : A -> bool) (l l' : list A) :
  Permutation l l' -> Permutation (List.filter f l) (List.filter f l').
Proof.
    induction 1 as [| x l l' _ IH | x y l | l l' l'' _ IH1 _ IH2]; simpl.
    - constructor.
    - destruct (f x); [now constructor | exact IH].
    - destruct (f x), (f y); try reflexivity. apply perm_swap.
    - now transitivity (List.filter f l').
Qed.

Lemma filter_all {A} (f : A -> bool) (l : list A) :
  (forall x, In x l -> f x = true) -> List.filter f l = l.
Proof.
    induction l as [|x l IH]; simpl; intros H; [reflexivity|].
    rewrite (H x (or_introl eq_refl)). f_equal. apply IH. intros y Hy. apply H. now right.
Qed.

Definition absent_from (names : list string) (k : string) : bool :=
  negb (existsb (String.eqb k) names).

Lemma NoDup_app_disjoint {A} (l1 l2 : list A) :
  List.NoDup (l1 ++ l2) -> forall x, In x l1 -> In x l2 -> False.
Proof.
    induction l1 as [|a l1 IH]; simpl; intros Hnd x H1 H2; [contradiction|].
    inversion Hnd as [|? ? Hnotin Hnd']; subst.
    destruct H1 as [-> | H1]; [|now apply (IH Hnd' x)].
    apply Hnotin. apply in_or_app. now right.
Qed.

Lemma keep_firstn (n : nat) (l : list string) :
  List.NoDup l -> List.filter (absent_from (skipn n l)) l = firstn n l.
Proof.
    intros Hnd. rewrite <- (firstn_skipn n l) in Hnd.
    rewrite <- (firstn_skipn n l) at 2.
    rewrite List.filter_app, filter_all, filter_none, app_nil_r; [reflexivity | |].
    - intros x Hx. unfold absent_from. apply existsb_eqb_In in Hx. now rewrite Hx.
    - intros x Hx. unfold absent_from. apply negb_true_iff.
      destruct (existsb (String.eqb x) (skipn n l)) eqn:E; [|reflexivity].
      apply existsb_eqb_In in E. exfalso. exact (NoDup_app_disjoint _ _ Hnd x Hx E).
Qed.

Lemma skipn_guard {A} (n : nat) (l : list A) :
  (if (n <? length l)%nat then skipn n l else []) = skipn n l.
Proof.
    destruct (n <? length l)%nat eqn:E; [reflexivity|].
    apply Nat.ltb_ge in E. symmetry. now apply List.skipn_all2.
Qed.

Lemma by_version_descending_consistent :
  consistent (localeCompare env) -> consistent (by_version_descending env).
Proof.
    intros [antisym trans]. unfold by_version_descending. split.
    - intros a b. apply antisym.
    - intros a b c Hab Hbc. eapply trans; eassumption.
Qed.

Lemma for_each_postMessage_run (message : Activated) (cs : list nat) (w : World) :
  exists w', for_each cs (fun client => client_postMessage client message) w = (Ok tt, w')
             /\ caches w' = caches w.
Proof.
    revert w. induction cs as [|c cs IH]; intros w; simpl.
    - now exists w.
    - monad_unfold. simpl.
      match goal with |- context [for_each cs _ ?w1] => destruct (IH w1) as (w' & Hrun & Hc) end.
      exists w'. split; [exact Hrun | exact Hc].
Qed.

Hypothesis api : cacheApiOk env = true.

Lemma activate_handler_run (w : World) :
  exists w',
    activate_handler env w = (Ok tt, w')
    /\ caches w' = delete_all (cachesToDelete env (owned env (caches w))) (caches w).
Proof.
    unfold activate_handler. monad_unfold.
    destruct (logger_log_run env
      ["Activating service worker v" +:+ APP_VERSION env +:+ "... ("
         +:+ (if isDevelopment env then "dev" else "prod") +:+ ")"] w) as (w0 & Hlog0 & Hc0 & _).
    rewrite Hlog0.
    destruct (cleanupOldCaches_run env api w0) as (bs & w1 & Hclean & Hc1 & _).
    rewrite Hclean, (getAppCaches_run env api).
    destruct (logger_log_run env ("Active caches after cleanup:" :: owned env (caches w1)) w1)
      as (w2 & Hlog2 & Hc2 & _).
    rewrite Hlog2. unfold clients_claim. simpl.
    match goal with |- context [for_each _ _ ?w3] =>
      destruct (for_each_postMessage_run
                  {| sw_version := CACHE_VERSION env; sw_cacheName := CACHE_NAME env;
                     sw_isDevelopment := isDevelopment env |} (clients env) w3)
        as (w4 & Hpost & Hc4)
    end.
    rewrite Hpost.
    match goal with |- context [logger_log env ?a w4] =>
      destruct (logger_log_run env a w4) as (w5 & Hlog5 & Hc5 & _)
    end.
    rewrite Hlog5. exists w5. split; [reflexivity|].
    rewrite Hc5, Hc4. simpl. now rewrite Hc2, Hc1, Hc0.
Qed.

(** C3, amended: after a prune pass at most [MAX_CACHES] owned generations
    remain and no generation is created. In development the retained ones
    are the first [MAX_CACHES] of the owned generations in descending
    version order, so no deleted generation has a greater version than a
    retained one. In production at most one generation remains and it is
    the current one; exactly one remains when the current generation was
    in the store and the store held at most [MAX_CACHES] owned
    generations. Activation prunes in the same way. *)
Theorem C3_prune (w : World) :
  storage_wf (caches w) = true ->
  consistent (localeCompare env) ->
  exists bs w' wa,
    cleanupOldCaches env w = (Ok bs, w')
    /\ activate_handler env w = (Ok tt, wa)
    /\ caches wa = caches w'
    /\ let generations := owned env (caches w) in
       let retained := owned env (caches w') in
       length retained <= MAX_CACHES
       /\ (forall name, In name retained -> In name generations)
       /\ (isDevelopment env = true ->
             Permutation retained
               (firstn MAX_CACHES (sort (by_version_descending env) generations))
             /\ forall kept deleted,
                  In kept retained -> In deleted generations -> ~ In deleted retained ->
                  localeCompare env (version_of env deleted) (version_of env kept) <> Gt)
       /\ (isDevelopment env = false ->
             (forall name, In name retained -> name = CACHE_NAME env)
             /\ length retained <= 1
             /\ (In (CACHE_NAME env) generations -> length generations <= MAX_CACHES ->
                 retained = [CACHE_NAME env])).
Proof.
    intros Hwf Hcmp.
    destruct (cleanupOldCaches_run env api w) as (bs & w' & Hclean & Hc & _).
    destruct (activate_handler_run w) as (wa & Hact & Hca).
    exists bs, w', wa. split; [exact Hclean|]. split; [exact Hact|].
    split; [congruence|]. cbv zeta.
    rewrite Hc, owned_delete_all. fold (absent_from (cachesToDelete env (owned env (caches w)))).
    set (generations := owned env (caches w)).
    set (sorted := sort (by_version_descending env) generations).
    assert (Hperm : Permutation sorted generations) by apply sort_perm.
    assert (Hnd : List.NoDup generations).
    { apply NoDup_filter'. now apply distinct_NoDup. }
    assert (Hnds : List.NoDup sorted).
    { eapply Permutation_NoDup; [symmetry; exact Hperm | exact Hnd]. }
    assert (Hincl : forall name,
               In name (List.filter (absent_from (cachesToDelete env generations)) generations) ->
               In name generations).
    { intros name Hin. apply filter_In in Hin. tauto. }
    unfold cachesToDelete. fold sorted. rewrite skipn_guard.
    destruct (isDevelopment env) eqn:Hdev; simpl negb; cbv iota; rewrite ?app_nil_r.
    - assert (Hret : Permutation (List.filter (absent_from (skipn MAX_CACHES sorted)) generations)
                                 (firstn MAX_CACHES sorted)).
      { rewrite <- (keep_firstn MAX_CACHES sorted Hnds).
        apply Permutation_filter'. now symmetry. }
      split; [|split; [|split]].
      + rewrite (Permutation_length Hret), length_firstn. lia.
      + intros name Hin. apply filter_In in Hin. tauto.
      + intros _. split; [exact Hret|].
        intros kept deleted Hk Hd Hnot.
        assert (Hk' : In kept (firstn MAX_CACHES sorted)).
        { eapply Permutation_in; [exact Hret | exact Hk]. }
        assert (Hd' : In deleted (skipn MAX_CACHES sorted)).
        { assert (Hds : In deleted sorted)
            by (eapply Permutation_in; [symmetry; exact Hperm | exact Hd]).
          rewrite <- (firstn_skipn MAX_CACHES sorted) in Hds.
          apply in_app_or in Hds as [Hf | Hs]; [|exact Hs].
          exfalso. apply Hnot. eapply Permutation_in; [symmetry; exact Hret | exact Hf]. }
        apply (sorted_app_before (by_version_descending env)
                 (firstn MAX_CACHES sorted) (skipn MAX_CACHES sorted)); try assumption.
        rewrite firstn_skipn. apply sort_sorted. now apply by_version_descending_consistent.
      + intros Hcontra. discriminate.
    - set (doomed := skipn MAX_CACHES sorted
                     ++ List.filter (fun name => negb (String.eqb name (CACHE_NAME env))) sorted).
      set (retained := List.filter (absent_from doomed) generations).
      assert (Honly : forall name, In name retained -> name = CACHE_NAME env).
      { intros name Hin. apply filter_In in Hin as [Hgen Habs].
        destruct (String.eqb name (CACHE_NAME env)) eqn:E; [now apply String.eqb_eq|].
        exfalso. unfold absent_from in Habs. apply negb_true_iff in Habs.
        assert (Hd : In name doomed).
        { apply in_or_app. right. apply filter_In. split.
          - eapply Permutation_in; [symmetry; exact Hperm | exact Hgen].
          - now rewrite E. }
        apply existsb_eqb_In in Hd. congruence. }
      assert (Hndr : List.NoDup retained) by now apply NoDup_filter'.
      assert (Hlen : length retained <= 1).
      { destruct retained as [|a [|b rest]]; simpl; try lia.
        exfalso. inversion Hndr as [|? ? Hnotin _]; subst. apply Hnotin.
        rewrite (Honly a), (Honly b); simpl; auto. }
      split; [|split; [|split]].
      + unfold MAX_CACHES. lia.
      + intros name Hin. apply filter_In in Hin. tauto.
      + intros Hcontra. discriminate.
      + intros _. split; [exact Honly|]. split; [exact Hlen|].
        intros Hcur Hfew.
        assert (Hin : In (CACHE_NAME env) retained).
        { apply filter_In. split; [exact Hcur|].
          unfold absent_from. apply negb_true_iff.
          destruct (existsb (String.eqb (CACHE_NAME env)) doomed) eqn:E; [|reflexivity].
          exfalso. apply existsb_eqb_In in E. apply in_app_or in E as [Hs | Hf].
          - rewrite List.skipn_all2 in Hs; [contradiction|].
            rewrite (Permutation_length Hperm). exact Hfew.
          - apply filter_In in Hf as [_ Hne]. rewrite String.eqb_refl in Hne. discriminate. }
        destruct retained as [|a [|b rest]]; simpl in *; try lia; try contradiction.
        destruct Hin as [-> | []]. reflexivity.
Qed.

End PruneFacts.

(** ** Worked examples: commands and pruning *)

Section CommandExamples.
Import Sw Scenarios.

Lemma code_unit_order_consistent : consistent String.compare.
Proof.
    split.
    - intros a b. apply String.compare_antisym.
    - intros a b c Hab Hbc.
      assert (Hle : forall x y, String.compare x y <> Gt <-> String.le x y).
      { intros x y. unfold String.le, String.leb.
        destruct (String.compare x y); simpl; split; intros H;
          solve [exact I | discriminate | contradiction | now destruct H]. }
      apply Hle. transitivity b; now apply Hle.
Qed.

Lemma C10_clear_owned_twice_witness :
  let env := worker production "1.2.0-b9829bc4" online in
  let w := world [("nuwault-v1.1.0-aaaaaaaa", ∅); ("fonts", ∅); ("nuwault-v1.2.0-b9829bc4", ∅)] in
  cacheApiOk env = true
  /\ exists w1 w2,
       message_handler env (command "CLEAR_APP_CACHE") w = (Ok tt, w1)
       /\ message_handler env (command "CLEAR_APP_CACHE") w1 = (Ok tt, w2)
       /\ replies w1 = [(7, ReplyCleared true 2)]
       /\ replies w2 = [(7, ReplyCleared true 2); (7, ReplyCleared true 0)].
Proof.
    intros env w. split; [reflexivity|].
    pose proof (C10_clear_owned_twice env w 7 [] None) as [H _].
    change (cacheApiOk env) with true in H. cbv iota in H.
    destruct H as (w1 & w2 & H1 & H2 & Hr1 & _ & Hr2 & _).
    exists w1, w2. split; [exact H1|]. split; [exact H2|].
    split; [exact Hr1|]. rewrite Hr2, Hr1. reflexivity.
Defined.

(** C10, as stated, fails where the Cache API rejects every call, as it
    does in some private browsing modes: neither command succeeds, and the
    second reply carries an error, not a cleared count of 0. *)
Lemma C10_counterexample :
  let env := {| location := production; APP_NAME := "nuwault";
                APP_VERSION := "1.2.0-b9829bc4"; network := online; cacheApiOk := false;
                localeCompare := String.compare; clients := [1];
                parseUrl := fun _ => None |} in
  let w1 := snd (message_handler env (command "CLEAR_APP_CACHE")
                   (world [("nuwault-v1.2.0-b9829bc4", ∅)])) in
  let w2 := snd (message_handler env (command "CLEAR_APP_CACHE") w1) in
  replies w2 = [(7, ReplyError false "The operation is insecure.");
                (7, ReplyError false "The operation is insecure.")]
  /\ replies w2 <> [(7, ReplyCleared true 1); (7, ReplyCleared true 0)]
  /\ caches w2 = [("nuwault-v1.2.0-b9829bc4", ∅)].
Proof. vm_compute. repeat split. discriminate. Qed.

(** C3, as stated, fails in production: the prune that activation runs
    creates nothing, so when the current generation is no longer in the
    store no generation remains. Here the new worker installs, the worker
    still in control answers a ClearOwned command, and the new worker
    activates. *)
Lemma C3_counterexample :
  let old := worker production "1.1.0-aaaaaaaa" online in
  let new := worker production "1.2.0-b9829bc4" online in
  let w0 := world [("nuwault-v1.1.0-aaaaaaaa", ∅)] in
  let w1 := snd (install_handler new w0) in
  let w2 := snd (message_handler old (command "CLEAR_APP_CACHE") w1) in
  let w3 := snd (activate_handler new w2) in
  isDevelopment new = false
  /\ storage_wf (caches w2) = true
  /\ owned new (caches w1) = ["nuwault-v1.2.0-b9829bc4"]
  /\ fst (activate_handler new w2) = Ok tt
  /\ length (owned new (caches w3)) <> 1.
Proof. vm_compute. repeat split; discriminate. Qed.

Lemma C3_prune_witness :
  let env := worker development "6" online in
  let w := world [("nuwault-v3", ∅); ("nuwault-v1", ∅); ("nuwault-v6", ∅);
                  ("nuwault-v2", ∅); ("other", ∅); ("nuwault-v5", ∅); ("nuwault-v4", ∅)] in
  cacheApiOk env = true
  /\ storage_wf (caches w) = true
  /\ consistent (localeCompare env)
  /\ exists w', snd (cleanupOldCaches env w) = w'
       /\ owned env (caches w') = ["nuwault-v3"; "nuwault-v6"; "nuwault-v2"; "nuwault-v5"; "nuwault-v4"].
Proof.
    intros env w. split; [reflexivity|]. split; [reflexivity|].
    split; [exact code_unit_order_consistent|].
    destruct (C3_prune env eq_refl w eq_refl code_unit_order_consistent)
      as (bs & w' & wa & Hrun & _).
    exists w'. split; [now rewrite Hrun|].
    assert (Hw : w' = snd (cleanupOldCaches env w)) by now rewrite Hrun.
    rewrite Hw. vm_compute. reflexivity.
Defined.

(** In production a store that holds more than [MAX_CACHES] owned
    generations, the current one last in version order, loses the current
    generation as well. *)
Example prune_beyond_limit :
  let env := worker production "1" online in
  let w := world [("nuwault-v1", ∅); ("nuwault-v2", ∅); ("nuwault-v3", ∅);
                  ("nuwault-v4", ∅); ("nuwault-v5", ∅); ("nuwault-v6", ∅)] in
  owned env (caches (snd (cleanupOldCaches env w))) = [].
Proof. vm_compute. reflexivity. Qed.

End CommandExamples.

(** ** URL strings *)

Section ReferenceFacts.
Import Sw.
Variable env : Env.

Lemma absolute_plain (u : string) :
  Url.is_plain_path u = true -> absolute env u = Some (origin env +:+ u).
Proof. intros H. unfold absolute. now rewrite H. Qed.

Lemma resolve_plain (u : string) :
  Url.is_plain_path u = true -> resolve env u = origin env +:+ u.
Proof. intros H. unfold resolve. now rewrite absolute_plain. Qed.

Lemma absolute_resolve (u key : string) : absolute env u = Some key -> resolve env u = key.
Proof. intros H. unfold resolve. now rewrite H. Qed.

Lemma with_url_plain {A} (u : string) (call : string -> M A) :
  Url.is_plain_path u = true -> with_url env u call = call (resolve env u).
Proof. intros H. unfold with_url, resolve. now rewrite absolute_plain. Qed.

Lemma static_plain : forallb Url.is_plain_path STATIC_CACHE_URLS = true.
Proof. vm_compute. reflexivity. Qed.

Lemma plain_parses (urls : list string) :
  forallb Url.is_plain_path urls = true -> forallb (parses env) urls = true.
Proof.
  intros H. apply forallb_forall. intros u Hin. rewrite forallb_forall in H.
  unfold parses. now rewrite absolute_plain by now apply H.
Qed.

Lemma static_parses : forallb (parses env) STATIC_CACHE_URLS = true.
Proof. apply plain_parses, static_plain. Qed.

Lemma parses_one (u : string) :
  Url.is_plain_path u = true -> forallb (parses env) [u] = true.
Proof. intros H. apply plain_parses. cbn [forallb]. now rewrite H. Qed.

End ReferenceFacts.

(** ** Bulk and per-entry writes *)

Section WriteFacts.
Import Sw.
Variable env : Env.
Hypothesis api : cacheApiOk env = true.

Lemma advance_advance (n m : nat) (w : World) : advance n (advance m w) = advance (n + m) w.
Proof. unfold advance. simpl. f_equal. lia. Qed.

Lemma settle_run (urls : list string) (w : World) :
  map_each urls (fun u => bind (fetch_settled env (resolve env u)) (fun r => ret (u, r))) w
  = (Ok (settle_all env (fetches w) urls), advance (length urls) w).
Proof.
  revert w. induction urls as [|u urls IH]; intros w; simpl.
  - unfold ret, advance. destruct w; reflexivity.
  - monad_unfold. unfold fetch_settled at 1. rewrite IH. simpl.
    unfold advance. simpl. do 2 f_equal. lia.
Qed.

Lemma cache_put_request_run (cache u : string) (r : Response) (w : World) :
  (status r =? 206)%N = false ->
  cache_put_request env cache u r w = (Ok tt, with_caches (storage_put cache u r) w).
Proof.
  intros Hs. unfold cache_put_request. rewrite (cache_api_ok env api), Hs. reflexivity.
Qed.

Lemma cacheable_status (fr : FetchResult) (r : Response) :
  cacheable fr = Some r -> fr = Resolved r /\ ok r = true /\ (status r =? 206)%N = false.
Proof.
  destruct fr as [r'|m]; simpl; [|discriminate].
  destruct (ok r') eqn:Hok; simpl; [|discriminate].
  destruct (status r' =? 206)%N eqn:Hs; simpl; [discriminate|].
  intros [= <-]. auto.
Qed.

Lemma store_cacheable (cache : string) (st : list (string * gmap string Response))
    (u : string) (fr : FetchResult) (r : Response) :
  cacheable fr = Some r -> store env cache st (u, fr) = storage_put cache (resolve env u) r st.
Proof. intros H. unfold store. cbn [fst snd]. now rewrite H. Qed.

Lemma store_uncacheable (cache : string) (st : list (string * gmap string Response))
    (u : string) (fr : FetchResult) :
  cacheable fr = None -> store env cache st (u, fr) = st.
Proof. intros H. unfold store. cbn [fst snd]. now rewrite H. Qed.

Lemma with_caches_with_caches (f g : list (string * gmap string Response) ->
                                   list (string * gmap string Response)) (w : World) :
  with_caches f (with_caches g w) = with_caches (fun st => f (g st)) w.
Proof. reflexivity. Qed.

Lemma put_all_run (cache : string) (answers : list (string * FetchResult)) (w : World) :
  all_cacheable answers = true ->
  put_all env cache answers w = (Ok tt, with_caches (store_all env cache answers) w).
Proof.
  revert w. induction answers as [|[u fr] answers IH]; intros w Hall; simpl.
  - unfold ret. destruct w; reflexivity.
  - simpl in Hall. apply andb_true_iff in Hall as [Hfr Hall].
    destruct (cacheable fr) as [r|] eqn:Hc; [|discriminate].
    destruct (cacheable_status fr r Hc) as (-> & Hok & Hs).
    monad_unfold. rewrite (cache_put_request_run _ _ _ _ Hs).
    rewrite (IH _ Hall). unfold store_all, with_caches. cbn [fold_left caches fetches
      console detached replies broadcasts skipWaitingCalls claims].
    now rewrite (store_cacheable cache (caches w) u (Resolved r) r Hc).
Qed.

Lemma cache_addAll_run (cache : string) (urls : list string) (w : World) :
  forallb (parses env) urls = true ->
  cache_addAll env cache urls w
  = let answers := settle_all env (fetches w) urls in
    if all_cacheable answers
    then (Ok tt, with_caches (store_all env cache answers) (advance (length urls) w))
    else (Throw ADD_ALL_FAILED, advance (length urls) w).
Proof.
  intros Hparse. unfold cache_addAll. rewrite (cache_api_ok env api), Hparse. monad_unfold.
  rewrite settle_run. cbv zeta.
  destruct (all_cacheable (settle_all env (fetches w) urls)) eqn:Hall; [|reflexivity].
  now apply put_all_run.
Qed.

End WriteFacts.

(** ** Force update *)

Section ForceUpdateFacts.
Import Sw.
Variable env : Env.
Hypothesis api : cacheApiOk env = true.

Lemma storage_has_delete (name : string) (st : list (string * gmap string Response)) :
  storage_has name (storage_delete name st) = false.
Proof.
  unfold storage_has. rewrite storage_keys_delete.
  destruct (existsb _ _) eqn:E; [|reflexivity].
  apply existsb_eqb_In in E. apply filter_In in E as [_ E].
  rewrite String.eqb_refl in E. discriminate.
Qed.

Lemma storage_lookup_absent (name : string) (st : list (string * gmap string Response)) :
  storage_has name st = false -> storage_lookup name st = None.
Proof.
  unfold storage_has, storage_keys.
  induction st as [|[n c] st IH]; simpl; [reflexivity|].
  destruct (String.eqb name n); simpl; [discriminate | exact IH].
Qed.

Lemma storage_lookup_app_absent (name : string) (st st' : list (string * gmap string Response)) :
  storage_has name st = false ->
  storage_lookup name (st ++ st') = storage_lookup name st'.
Proof.
  unfold storage_has, storage_keys.
  induction st as [|[n c] st IH]; simpl; [reflexivity|].
  destruct (String.eqb name n); simpl; [discriminate | exact IH].
Qed.

Lemma storage_lookup_reopened (name : string) (st : list (string * gmap string Response)) :
  storage_lookup name (storage_open name (storage_delete name st)) = Some ∅.
Proof.
  unfold storage_open. rewrite storage_has_delete.
  rewrite storage_lookup_app_absent by apply storage_has_delete.
  simpl. now rewrite String.eqb_refl.
Qed.

(** C2: a rebuild during which some asset request fails. [addAll] stores
    nothing unless every request succeeds, so the command leaves the current
    generation empty and replies [success: false] with the error message;
    the claim expects the successful entries and [success: true]. *)
Theorem C2_force_update_partial_failure (w : World) (ev : MessageEvent) (p : nat)
    (ps : list nat) (pl : option string) :
  data ev = Some {| mtype := Some "FORCE_UPDATE"; payload := pl |} ->
  ports ev = p :: ps ->
  all_cacheable (settle_all env (fetches w) STATIC_CACHE_URLS) = false ->
  exists w',
    message_handler env ev w = (Ok tt, w')
    /\ storage_lookup (CACHE_NAME env) (caches w') = Some ∅
    /\ replies w' = replies w ++ [(p, ReplyError false ADD_ALL_FAILED)].
Proof.
  intros Hdata Hports Hfail.
  unfold message_handler. monad_unfold.
  destruct (logger_log_run env ["Message received:"; describe (data ev)] w)
    as (w0 & Hlog0 & Hc0 & Hq0).
  rewrite Hlog0, Hdata. simpl.
  unfold on_FORCE_UPDATE, forceCacheUpdate. monad_unfold.
  destruct (logger_log_run env ["Force updating cache..."] w0) as (w1 & Hlog1 & Hc1 & Hq1).
  rewrite Hlog1, (caches_delete_run env api), (caches_open_run env api).
  rewrite (cache_addAll_run env api) by apply static_parses. cbv zeta.
  assert (Hf : fetches w1 = fetches w).
  { destruct Hq0 as (H0 & _), Hq1 as (H1 & _). congruence. }
  cbn [fetches with_caches]. rewrite Hf, Hfail, Hports.
  eexists. split; [reflexivity|]. cbn [caches replies with_caches advance]. split.
  - rewrite Hc1, Hc0. apply storage_lookup_reopened.
  - destruct Hq0 as (_ & _ & Hr0 & _), Hq1 as (_ & _ & Hr1 & _). congruence.
Qed.

End ForceUpdateFacts.

Section ForceUpdateExample.
Import Sw Scenarios.

(** The scenario of C2: the current generation holds ten entries and two of
    the static assets answer 404 during the rebuild. *)
Lemma C2_force_update_partial_failure_witness :
  let missing := ["https://nuwault.com/assets/img/favicon/favicon.ico";
                  "https://nuwault.com/assets/img/logo/nuwault_logo_symbol.svg"] in
  let env := worker production "1.2.0-b9829bc4" (failing 404 missing) in
  let w := world [("nuwault-v1.2.0-b9829bc4",
                   generation (map (resolve env) (firstn 10 STATIC_CACHE_URLS)))] in
  option_map size (storage_lookup (CACHE_NAME env) (caches w)) = Some 10
  /\ all_cacheable (settle_all env (fetches w) STATIC_CACHE_URLS) = false
  /\ exists w',
       message_handler env (command "FORCE_UPDATE") w = (Ok tt, w')
       /\ storage_lookup (CACHE_NAME env) (caches w') = Some ∅
       /\ replies w' = [(7, ReplyError false ADD_ALL_FAILED)].
Proof.
  intros missing env w. split; [vm_compute; reflexivity|]. split; [vm_compute; reflexivity|].
  exact (C2_force_update_partial_failure env eq_refl w (command "FORCE_UPDATE") 7 [] None
           eq_refl eq_refl eq_refl).
Defined.

End ForceUpdateExample.

(** ** Entries after a batch of writes *)

Section EntryFacts.
Import Sw.
Variable env : Env.

Lemma storage_keys_put (cache key : string) (r : Response)
    (st : list (string * gmap string Response)) :
  storage_keys (storage_put cache key r st) = storage_keys st.
Proof.
  unfold storage_keys. induction st as [|[n c] st IH]; simpl; [reflexivity|].
  destruct (String.eqb cache n); simpl; [reflexivity | now rewrite IH].
Qed.

Lemma storage_has_put (name cache key : string) (r : Response)
    (st : list (string * gmap string Response)) :
  storage_has name (storage_put cache key r st) = storage_has name st.
Proof. unfold storage_has. now rewrite storage_keys_put. Qed.

Lemma entry_put_same (cache key : string) (r : Response)
    (st : list (string * gmap string Response)) :
  storage_has cache st = true -> entry cache key (storage_put cache key r st) = Some r.
Proof.
  unfold entry, storage_has, storage_keys.
  induction st as [|[n c] st IH]; simpl; [discriminate|].
  destruct (String.eqb cache n) eqn:E; simpl; intros H.
  - rewrite E. apply lookup_insert_eq.
  - rewrite E. now apply IH.
Qed.

Lemma entry_put_other (cache cache' key key' : string) (r : Response)
    (st : list (string * gmap string Response)) :
  key <> key' -> entry cache' key' (storage_put cache key r st) = entry cache' key' st.
Proof.
  intros Hne. unfold entry.
  induction st as [|[n c] st IH]; simpl; [reflexivity|].
  destruct (String.eqb cache n) eqn:E; simpl.
  - destruct (String.eqb cache' n); [|reflexivity]. now apply lookup_insert_ne.
  - destruct (String.eqb cache' n); [reflexivity | exact IH].
Qed.

Lemma store_all_cons (cache : string) (a : string * FetchResult)
    (answers : list (string * FetchResult)) (st : list (string * gmap string Response)) :
  store_all env cache (a :: answers) st = store_all env cache answers (store env cache st a).
Proof. reflexivity. Qed.

Lemma storage_has_store_all (name cache : string) (answers : list (string * FetchResult))
    (st : list (string * gmap string Response)) :
  storage_has name (store_all env cache answers st) = storage_has name st.
Proof.
  unfold store_all. revert st. induction answers as [|[u fr] answers IH]; intros st; simpl.
  - reflexivity.
  - rewrite IH. unfold store. cbn [fst snd].
    destruct (cacheable fr); [apply storage_has_put | reflexivity].
Qed.

Lemma entry_store_other (cache key : string) (answers : list (string * FetchResult))
    (st : list (string * gmap string Response)) :
  ~ In key (map (fun a => resolve env (fst a)) answers) ->
  entry cache key (store_all env cache answers st) = entry cache key st.
Proof.
  unfold store_all. revert st. induction answers as [|[u fr] answers IH]; intros st Hnot; simpl.
  - reflexivity.
  - simpl in Hnot. rewrite IH by tauto. unfold store. cbn [fst snd].
    destruct (cacheable fr); [|reflexivity]. apply entry_put_other. tauto.
Qed.

Lemma entry_store_all (cache u : string) (fr : FetchResult)
    (answers : list (string * FetchResult)) (st : list (string * gmap string Response)) :
  List.NoDup (map (fun a => resolve env (fst a)) answers) ->
  storage_has cache st = true ->
  In (u, fr) answers ->
  entry cache (resolve env u) (store_all env cache answers st)
  = match cacheable fr with
    | Some r => Some r
    | None => entry cache (resolve env u) st
    end.
Proof.
  revert st. induction answers as [|[u' fr'] answers IH]; intros st Hnd Hhas Hin;
    [contradiction|].
  simpl in Hnd. inversion Hnd as [|? ? Hfresh Hnd']; subst.
  rewrite store_all_cons.
  destruct Hin as [[= -> ->] | Hin].
  - rewrite entry_store_other by exact Hfresh.
    unfold store. cbn [fst snd].
    destruct (cacheable fr); [now apply entry_put_same | reflexivity].
  - assert (Hne : resolve env u' <> resolve env u).
    { intros Heq. apply Hfresh. rewrite Heq.
      apply (in_map (fun a => resolve env (fst a)) answers (u, fr) Hin). }
    rewrite IH; try assumption.
    + unfold store. cbn [fst snd].
      destruct (cacheable fr'); [|reflexivity].
      destruct (cacheable fr); [reflexivity|]. now apply entry_put_other.
    + unfold store. cbn [fst snd].
      destruct (cacheable fr'); [now rewrite storage_has_put | exact Hhas].
Qed.

Lemma settle_all_keys (t : nat) (urls : list string) :
  map (fun a => resolve env (fst a)) (settle_all env t urls) = map (resolve env) urls.
Proof.
  revert t. induction urls as [|u urls IH]; intros t; simpl; [reflexivity|]. now rewrite IH.
Qed.

Lemma settle_all_urls (t : nat) (urls : list string) (u : string) (fr : FetchResult) :
  In (u, fr) (settle_all env t urls) -> In u urls.
Proof.
  revert t. induction urls as [|u' urls IH]; intros t; simpl; [tauto|].
  intros [[= -> _] | Hin]; [now left | right; eauto].
Qed.

Lemma resolve_static (u : string) :
  In u STATIC_CACHE_URLS -> resolve env u = origin env +:+ u.
Proof.
  intros Hin. apply resolve_plain.
  pose proof static_plain as H. rewrite forallb_forall in H. now apply H.
Qed.

Lemma static_keys_distinct : List.NoDup (map (resolve env) STATIC_CACHE_URLS).
Proof.
  rewrite (map_ext_in _ (fun u => origin env +:+ u)) by apply resolve_static.
  apply Finite.Injective_map_NoDup.
  - intros a b H. now apply (String.app_inj (origin env)) in H.
  - apply distinct_NoDup. vm_compute. reflexivity.
Qed.

End EntryFacts.

(** ** Computations that never throw *)

Section SafeFacts.
Import Sw.
Variable env : Env.

Lemma safe_ret {A} (a : A) : safe (ret a).
Proof. intros w. now exists a, w. Qed.

Lemma safe_bind {A B} (m : M A) (k : A -> M B) :
  safe m -> (forall a, safe (k a)) -> safe (bind m k).
Proof.
  intros Hm Hk w. unfold bind. destruct (Hm w) as (a & w' & ->). apply Hk.
Qed.

Lemma safe_try_catch {A} (m : M A) (h : string -> M A) :
  (forall e, safe (h e)) -> safe (try_catch m h).
Proof.
  intros Hh w. unfold try_catch. destruct (m w) as [[a|e] w'].
  - now exists a, w'.
  - apply Hh.
Qed.

Lemma safe_for_each {A} (l : list A) (f : A -> M unit) :
  (forall a, safe (f a)) -> safe (for_each l f).
Proof.
  intros Hf. induction l as [|a l IH]; simpl.
  - apply safe_ret.
  - apply safe_bind; [apply Hf | intros _; exact IH].
Qed.

Lemma safe_modify (f : World -> World) : safe (modify f).
Proof. intros w. now exists tt, (f w). Qed.

Lemma safe_logger_log (a : list string) : safe (logger_log env a).
Proof. intros w. destruct (logger_log_run env a w) as (w' & H & _). now exists tt, w'. Qed.

Lemma safe_logger_warn (a : list string) : safe (logger_warn env a).
Proof.
  unfold logger_warn. destruct (isDevelopment env); [apply safe_modify | apply safe_ret].
Qed.

Lemma safe_logger_debug (a : list string) : safe (logger_debug env a).
Proof.
  unfold logger_debug. destruct (isDevelopment env); [apply safe_modify | apply safe_ret].
Qed.

Lemma safe_logger_error (a : list string) : safe (logger_error a).
Proof. apply safe_modify. Qed.

Lemma safe_skipWaiting : safe skipWaiting.
Proof. apply safe_modify. Qed.

Lemma safe_discover : safe (discover env).
Proof.
  intros w. unfold discover.
  destruct (fetch env "/index.html" w) as [[r|e] w1].
  - destruct (ok r); [|now exists [], w1].
    destruct (discovered_assets (text_of r)) as [urls [e|]].
    + apply safe_bind; [apply safe_logger_log | intros _; apply safe_ret].
    + apply safe_bind; [apply safe_logger_log | intros _; apply safe_ret].
  - apply safe_bind; [apply safe_logger_log | intros _; apply safe_ret].
Qed.

Lemma safe_cache_additional (cache : string) (urls : list string) :
  safe (cache_additional env cache urls).
Proof.
  apply safe_for_each. intros u. apply safe_try_catch. intros e. apply safe_logger_log.
Qed.

Lemma safe_cache_main_page (cache : string) : safe (cache_main_page env cache).
Proof. apply safe_try_catch. intros e. apply safe_logger_log. Qed.

Lemma safe_cache_manifest (cache : string) : safe (cache_manifest env cache).
Proof. apply safe_try_catch. intros e. apply safe_logger_log. Qed.

Lemma safe_cache_static_assets (cache : string) : safe (cache_static_assets env cache).
Proof.
  apply safe_try_catch. intros e.
  apply safe_bind; [apply safe_logger_error|]. intros _.
  apply safe_for_each. intros u. apply safe_try_catch. intros e'. apply safe_logger_error.
Qed.

Hypothesis api : cacheApiOk env = true.

Lemma safe_cleanupOldCaches : safe (cleanupOldCaches env).
Proof.
  intros w. destruct (cleanupOldCaches_run env api w) as (bs & w' & H & _). now exists bs, w'.
Qed.

Lemma safe_install_rest (cache : string) : safe (install_rest env cache).
Proof.
  unfold install_rest.
  apply safe_bind; [apply safe_discover | intros urls].
  apply safe_bind; [apply safe_cache_additional | intros _].
  apply safe_bind; [apply safe_cache_main_page | intros _].
  apply safe_bind; [apply safe_cache_manifest | intros _].
  apply safe_bind; [apply safe_cleanupOldCaches | intros _].
  apply safe_bind; [apply safe_skipWaiting | intros _].
  apply safe_logger_log.
Qed.

End SafeFacts.

(** ** Install *)

Section InstallFacts.
Import Sw.
Variable env : Env.
Hypothesis api : cacheApiOk env = true.

Lemma logger_error_eq (a : list string) (w : World) :
  logger_error a w
  = (Ok tt, mkWorld (caches w) (fetches w) (console w ++ [{| level := ERROR; args := a |}])
                    (detached w) (replies w) (broadcasts w) (skipWaitingCalls w) (claims w)).
Proof. reflexivity. Qed.

Lemma per_entry_run (cache : string) (urls : list string) (w : World) :
  forallb (parses env) urls = true ->
  exists w' extra,
    for_each urls (fun url =>
      try_catch
        (bind (cache_add env cache url)
              (fun _ => logger_log env ["Successfully cached:"; url]))
        (fun individualError =>
           logger_error ["Failed to cache individual asset:"; url; individualError])) w
    = (Ok tt, w')
    /\ caches w' = store_all env cache (settle_all env (fetches w) urls) (caches w)
    /\ console w' = console w ++ extra
    /\ forall u fr,
         In (u, fr) (settle_all env (fetches w) urls) -> cacheable fr = None ->
         In {| level := ERROR;
               args := ["Failed to cache individual asset:"; u; ADD_ALL_FAILED] |} extra.
Proof.
  revert w. induction urls as [|u urls IH]; intros w Hparse.
  - exists w, []. simpl. unfold ret. rewrite app_nil_r. repeat split; tauto.
  - cbn [forallb] in Hparse. apply andb_true_iff in Hparse as [Hu Hparse].
    cbn [for_each]. unfold bind at 1, try_catch at 1, bind at 1, cache_add at 1.
    rewrite (cache_addAll_run env api) by (cbn [forallb]; now rewrite Hu).
    cbv zeta. cbn [settle_all length].
    unfold all_cacheable. cbn [forallb snd].
    destruct (cacheable (network env (fetches w) (resolve env u))) as [r|] eqn:Hc;
      cbn [andb].
    + match goal with |- context [logger_log env ?a ?w0] =>
        destruct (logger_log_full env a w0) as (w1 & extra1 & Hlog & Hc1 & Hq1 & Hx1)
      end.
      rewrite Hlog.
      destruct (IH w1 Hparse) as (w' & extra' & Hrun & Hc' & Hx' & Herr).
      assert (Hf1 : fetches w1 = S (fetches w)) by (destruct Hq1 as (-> & _); reflexivity).
      exists w', (extra1 ++ extra'). rewrite Hrun. split; [reflexivity|].
      rewrite Hf1 in Hc', Herr. split; [|split].
      * rewrite Hc', Hc1. reflexivity.
      * rewrite Hx', Hx1. cbn [console with_caches advance]. now rewrite app_assoc.
      * intros u' fr [[= <- <-] | Hin] Hnone; [congruence|].
        apply in_or_app. right. now apply (Herr u' fr).
    + rewrite logger_error_eq.
      match goal with |- context [for_each urls _ ?w0] =>
        destruct (IH w0 Hparse) as (w' & extra' & Hrun & Hc' & Hx' & Herr)
      end.
      cbn [fetches caches console advance] in Hc', Hx', Herr.
      exists w', ([{| level := ERROR;
                      args := ["Failed to cache individual asset:"; u; ADD_ALL_FAILED] |}]
                  ++ extra').
      rewrite Hrun. split; [reflexivity|]. split; [|split].
      * rewrite Hc'. rewrite store_all_cons, store_uncacheable by exact Hc. reflexivity.
      * rewrite Hx'. now rewrite <- app_assoc.
      * intros u' fr [[= <- <-] | Hin] Hnone; [now left|].
        right. now apply (Herr u' fr).
Qed.

Lemma cache_static_assets_run (cache : string) (w : World) :
  let bulk := settle_all env (fetches w) STATIC_CACHE_URLS in
  let answers :=
    if all_cacheable bulk then bulk
    else settle_all env (length STATIC_CACHE_URLS + fetches w) STATIC_CACHE_URLS in
  exists w' extra,
    cache_static_assets env cache w = (Ok tt, w')
    /\ caches w' = store_all env cache answers (caches w)
    /\ console w' = console w ++ extra
    /\ forall u fr, In (u, fr) answers -> cacheable fr = None ->
         In {| level := ERROR;
               args := ["Failed to cache individual asset:"; u; ADD_ALL_FAILED] |} extra.
Proof.
  cbv zeta. unfold cache_static_assets. pose proof (static_parses env) as Hparse.
  revert Hparse. generalize STATIC_CACHE_URLS. intros urls Hparse.
  unfold try_catch at 1, bind at 1. rewrite (cache_addAll_run env api) by exact Hparse.
  cbv zeta.
  destruct (all_cacheable (settle_all env (fetches w) urls)) eqn:Hall.
  - match goal with |- context [logger_log env ?a ?w0] =>
      destruct (logger_log_full env a w0) as (w1 & extra1 & Hlog & Hc1 & Hq1 & Hx1)
    end.
    rewrite Hlog. exists w1, extra1. split; [reflexivity|]. split; [exact Hc1|].
    split; [exact Hx1|].
    intros u fr Hin Hnone. exfalso.
    unfold all_cacheable in Hall. rewrite forallb_forall in Hall.
    specialize (Hall (u, fr) Hin). cbn [snd] in Hall. rewrite Hnone in Hall. discriminate.
  - unfold bind at 1. rewrite logger_error_eq.
    match goal with |- context [for_each urls _ ?w0] =>
      destruct (per_entry_run cache urls w0 Hparse) as (w' & extra' & Hrun & Hc' & Hx' & Herr)
    end.
    cbn [fetches caches console advance] in Hc', Hx', Herr.
    rewrite Hrun. eexists w', _. split; [reflexivity|]. split; [exact Hc'|].
    split; [rewrite Hx', <- app_assoc; reflexivity|].
    intros u fr Hin Hnone. apply in_or_app. right. now apply (Herr u fr).
Qed.

Lemma logger_log_production (a : list string) :
  isDevelopment env = false -> logger_log env a = ret tt.
Proof. intros H. unfold logger_log. now rewrite H. Qed.

Lemma storage_has_open (name : string) (st : list (string * gmap string Response)) :
  storage_has name (storage_open name st) = true.
Proof.
  unfold storage_open. destruct (storage_has name st) eqn:E; [exact E|].
  unfold storage_has, storage_keys. rewrite map_app, existsb_app. simpl.
  rewrite String.eqb_refl. apply orb_true_iff. right. reflexivity.
Qed.

(** The production install with a usable Cache API. *)
Lemma production_install_run (w : World) :
  isDevelopment env = false ->
  let cache := CACHE_NAME env in
  let opened := with_caches (storage_open cache) (snd (skipWaiting w)) in
  let bulk := settle_all env (fetches w) STATIC_CACHE_URLS in
  let answers :=
    if all_cacheable bulk then bulk
    else settle_all env (length STATIC_CACHE_URLS + fetches w) STATIC_CACHE_URLS in
  exists written final,
    cache_static_assets env cache opened = (Ok tt, written)
    /\ install_rest env cache written = (Ok tt, final)
    /\ install_handler env w = (Ok tt, final)
    /\ forall u fr,
         In (u, fr) answers ->
         match cacheable fr with
         | Some r => entry cache (resolve env u) (caches written) = Some r
         | None =>
             entry cache (resolve env u) (caches written)
             = entry cache (resolve env u) (caches opened)
             /\ In {| level := ERROR;
                      args := ["Failed to cache individual asset:"; u; ADD_ALL_FAILED] |}
                   (console written)
         end.
Proof.
  intros Hdev cache opened bulk answers.
  destruct (cache_static_assets_run cache opened) as (written & extra & Hstatic & Hc & Hx & Herr).
  destruct (safe_install_rest env api cache written) as ([] & final & Hrest).
  exists written, final. split; [exact Hstatic|]. split; [exact Hrest|]. split.
  - unfold install_handler, install_body. rewrite Hdev.
    rewrite !(logger_log_production _ Hdev). unfold skipWaiting at 1. monad_unfold.
    rewrite (caches_open_run env api). fold cache.
    change (with_caches (storage_open cache) _) with opened.
    rewrite Hstatic, Hrest. reflexivity.
  - change (fetches opened) with (fetches w) in Hc, Herr. fold bulk in Hc, Herr.
    fold answers in Hc, Herr.
    intros u fr Hin.
    assert (Hentry := entry_store_all env cache u fr answers (caches opened)).
    rewrite <- Hc in Hentry.
    assert (Hnd : List.NoDup (map (fun a => resolve env (fst a)) answers)).
    { subst answers. destruct (all_cacheable bulk); subst bulk;
        rewrite settle_all_keys; apply static_keys_distinct. }
    specialize (Hentry Hnd (storage_has_open cache _) Hin).
    destruct (cacheable fr) as [r|] eqn:Hfr; [exact Hentry|].
    split; [exact Hentry|]. rewrite Hx. apply in_or_app. right. now apply (Herr u fr).
Qed.

End InstallFacts.

Section InstallTheorem.
Import Sw.
Variable env : Env.

(** The production install when the Cache API rejects: [caches.open]
    throws, the error is logged and [skipWaiting] is called a second
    time. *)
Lemma production_install_rejected (w : World) :
  isDevelopment env = false ->
  cacheApiOk env = false ->
  install_handler env w
  = (Ok tt,
     mkWorld (caches w) (fetches w)
       (console w ++ [{| level := ERROR;
                         args := ["Error during service worker installation:";
                                  "The operation is insecure."] |}])
       (detached w) (replies w) (broadcasts w) (S (S (skipWaitingCalls w))) (claims w)).
Proof.
  intros Hdev Hapi. unfold install_handler, install_body. rewrite Hdev.
  rewrite !(logger_log_production env _ Hdev).
  unfold caches_open, cache_api. rewrite Hapi. reflexivity.
Qed.

(** The development install: two log lines and [skipWaiting]. *)
Lemma development_install_run (w : World) :
  isDevelopment env = true ->
  exists final,
    install_handler env w = (Ok tt, final)
    /\ caches final = caches w /\ fetches final = fetches w.
Proof.
  intros Hdev. unfold install_handler. rewrite Hdev.
  unfold logger_log. rewrite Hdev. eexists. split; [reflexivity|]. split; reflexivity.
Qed.

(** C5, amended: in production, with a usable Cache API, every install
    attempts the whole static manifest. The bulk write is tried first; if
    it fails each entry is added on its own. In either case every entry
    whose request got a cacheable answer is stored under its URL, an entry
    whose own request fails is logged and leaves its key as it was, and the
    install goes on to the steps after the static manifest and completes.
    When the Cache API rejects, the production install attempts nothing:
    opening the cache throws, the error is logged, [skipWaiting] is called
    and the install completes with no request made and no cache changed. A
    development install returns at once: it makes no request and changes no
    cache. *)
Theorem C5_production_install (w : World) :
  let cache := CACHE_NAME env in
  let opened := with_caches (storage_open cache) (snd (skipWaiting w)) in
  let bulk := settle_all env (fetches w) STATIC_CACHE_URLS in
  let answers :=
    if all_cacheable bulk then bulk
    else settle_all env (length STATIC_CACHE_URLS + fetches w) STATIC_CACHE_URLS in
  if isDevelopment env
  then exists final,
         install_handler env w = (Ok tt, final)
         /\ caches final = caches w /\ fetches final = fetches w
  else if cacheApiOk env
  then exists written final,
         cache_static_assets env cache opened = (Ok tt, written)
         /\ install_rest env cache written = (Ok tt, final)
         /\ install_handler env w = (Ok tt, final)
         /\ forall u fr,
              In (u, fr) answers ->
              match cacheable fr with
              | Some r => entry cache (resolve env u) (caches written) = Some r
              | None =>
                  entry cache (resolve env u) (caches written)
                  = entry cache (resolve env u) (caches opened)
                  /\ In {| level := ERROR;
                           args := ["Failed to cache individual asset:"; u;
                                    ADD_ALL_FAILED] |}
                        (console written)
              end
  else exists final,
         install_handler env w = (Ok tt, final)
         /\ caches final = caches w /\ fetches final = fetches w
         /\ console final
            = console w ++ [{| level := ERROR;
                               args := ["Error during service worker installation:";
                                        "The operation is insecure."] |}].
Proof.
  intros cache opened bulk answers.
  destruct (isDevelopment env) eqn:Hdev; [now apply development_install_run|].
  destruct (cacheApiOk env) eqn:Hapi.
  - exact (production_install_run env Hapi w Hdev).
  - eexists. split; [now apply production_install_rejected|]. repeat split.
Qed.

End InstallTheorem.

(** ** Invariants of computations *)

Section KeepsFacts.
Import Sw.
Variable I : World -> Prop.

Lemma keeps_ret {A} (a : A) (Q : A -> Prop) : Q a -> keeps I (ret a) Q.
Proof. intros Hq w Hw. now split. Qed.

Lemma keeps_throw {A} (e : string) (Q : A -> Prop) : keeps I (throw e) Q.
Proof. intros w Hw. now split. Qed.

Lemma keeps_weaken {A} (m : M A) (Q R : A -> Prop) :
  keeps I m Q -> (forall a, Q a -> R a) -> keeps I m R.
Proof.
  intros Hm Hqr w Hw. destruct (Hm w Hw) as [Hi Hq]. split; [exact Hi|].
  destruct (fst (m w)); auto.
Qed.

Lemma keeps_bind {A B} (m : M A) (k : A -> M B) (Q : A -> Prop) (R : B -> Prop) :
  keeps I m Q -> (forall a, Q a -> keeps I (k a) R) -> keeps I (bind m k) R.
Proof.
  intros Hm Hk w Hw. unfold bind. destruct (Hm w Hw) as [Hi Hq].
  destruct (m w) as [[a|e] w']; simpl in *.
  - now apply Hk.
  - now split.
Qed.

Lemma keeps_try_catch {A} (m : M A) (h : string -> M A) (Q : A -> Prop) :
  keeps I m Q -> (forall e, keeps I (h e) Q) -> keeps I (try_catch m h) Q.
Proof.
  intros Hm Hh w Hw. unfold try_catch. destruct (Hm w Hw) as [Hi Hq].
  destruct (m w) as [[a|e] w']; simpl in *.
  - now split.
  - now apply Hh.
Qed.

Lemma keeps_for_each {A} (l : list A) (f : A -> M unit) :
  (forall a, In a l -> keeps I (f a) (fun _ => True)) ->
  keeps I (for_each l f) (fun _ => True).
Proof.
  induction l as [|a l IH]; simpl; intros Hf.
  - now apply keeps_ret.
  - eapply keeps_bind; [apply Hf; now left|]. intros _ _. apply IH.
    intros b Hb. apply Hf. now right.
Qed.

Lemma keeps_map_each {A B} (l : list A) (f : A -> M B) :
  (forall a, In a l -> keeps I (f a) (fun _ => True)) ->
  keeps I (map_each l f) (fun _ => True).
Proof.
  induction l as [|a l IH]; simpl; intros Hf.
  - now apply keeps_ret.
  - eapply keeps_bind; [apply Hf; now left|]. intros b _.
    eapply keeps_bind; [apply IH; intros c Hc; apply Hf; now right|].
    intros bs _. now apply keeps_ret.
Qed.

Lemma keeps_respondWith (m : M Response) :
  keeps I m (fun _ => True) -> keeps I (respondWith m) (fun _ => True).
Proof.
  intros Hm w Hw. unfold respondWith. destruct (Hm w Hw) as [Hi _].
  destruct (m w) as [[a|e] w']; simpl in *; now split.
Qed.

Lemma keeps_with_url {A} (env : Env) (u : string) (call : string -> M A) (Q : A -> Prop) :
  (forall key, absolute env u = Some key -> keeps I (call key) Q) ->
  keeps I (with_url env u call) Q.
Proof.
  intros H. unfold with_url. destruct (absolute env u) as [key|] eqn:E.
  - now apply H.
  - apply keeps_throw.
Qed.

End KeepsFacts.

(** ** URLs of the worker's own origin *)

Section UrlFacts.
Import Sw.
Variable env : Env.

Lemma chars_append (s1 s2 : string) :
  JsString.chars (s1 +:+ s2) = JsString.chars s1 ++ JsString.chars s2.
Proof.
  unfold JsString.chars. induction s1 as [|c s1 IH]; simpl; [reflexivity | now rewrite IH].
Qed.

Lemma split_at_app (p : ascii -> bool) (a b : list ascii) :
  forallb (fun c => negb (p c)) a = true ->
  Url.split_at p (a ++ b) = (a ++ fst (Url.split_at p b), snd (Url.split_at p b)).
Proof.
  induction a as [|c a IH]; simpl; intros H.
  - now destruct (Url.split_at p b).
  - apply andb_true_iff in H as [Hc Ha]. apply negb_true_iff in Hc.
    rewrite Hc, (IH Ha). reflexivity.
Qed.

Lemma plain_port :
  plain (port (location env)) = true ->
  forallb (fun c => negb (Url.authority_end c))
    (JsString.chars (if String.eqb (port (location env)) "" then ""
                     else ":" +:+ port (location env))) = true.
Proof.
  intros H. destruct (String.eqb (port (location env)) ""); [reflexivity|].
  rewrite chars_append. simpl. exact H.
Qed.

Lemma pathname_parts (s : string) (scheme authority rest : list ascii) :
  JsString.chars s = scheme ++ ":"%char :: "/"%char :: "/"%char :: authority ++ "/"%char :: rest ->
  forallb (fun c => negb (Ascii.eqb ":" c)) scheme = true ->
  forallb (fun c => negb (Url.authority_end c)) authority = true ->
  Url.pathname s
  = match fst (Url.split_at Url.path_end ("/"%char :: rest)) with
    | [] => "/"
    | path => JsString.of_chars path
    end.
Proof.
  intros Hs Hscheme Hauth. unfold Url.pathname. rewrite Hs.
  rewrite (split_at_app _ scheme _ Hscheme).
  change (Url.split_at (Ascii.eqb ":") (":"%char :: ?x)) with (@nil ascii, ":"%char :: x).
  cbn [fst snd].
  change (Regex.strip_prefix (JsString.chars "://")
            (":"%char :: "/"%char :: "/"%char :: authority ++ "/"%char :: rest))
    with (Some (authority ++ "/"%char :: rest)).
  cbv beta iota. rewrite (split_at_app _ authority _ Hauth).
  change (Url.split_at Url.authority_end ("/"%char :: rest)) with (@nil ascii, "/"%char :: rest).
  cbn [fst snd].
  destruct (Url.split_at Url.path_end ("/"%char :: rest)) as [path tl].
  cbn [fst]. now destruct path.
Qed.

Lemma pathname_origin (reference : string) :
  wf_location env = true ->
  Url.pathname (origin env +:+ String "/" reference) = Url.path_of (String "/" reference).
Proof.
  unfold wf_location. intros Hwf.
  apply andb_true_iff in Hwf as [Hwf Hport]. apply andb_true_iff in Hwf as [Hproto Hhost].
  assert (Hauth : forallb (fun c => negb (Url.authority_end c))
            (JsString.chars (hostname (location env))
             ++ JsString.chars (if String.eqb (port (location env)) "" then ""
                                else ":" +:+ port (location env))) = true).
  { rewrite forallb_app. apply andb_true_iff. split; [exact Hhost | now apply plain_port]. }
  unfold Url.path_of.
  set (authority := JsString.chars (hostname (location env))
             ++ JsString.chars (if String.eqb (port (location env)) "" then ""
                                else ":" +:+ port (location env))) in *.
  apply orb_true_iff in Hproto as [Hp | Hp]; apply String.eqb_eq in Hp.
  - apply (pathname_parts _ (JsString.chars "http") authority (JsString.chars reference));
      [|reflexivity | exact Hauth].
    unfold origin, authority. rewrite !chars_append, Hp, <- !app_assoc. reflexivity.
  - apply (pathname_parts _ (JsString.chars "https") authority (JsString.chars reference));
      [|reflexivity | exact Hauth].
    unfold origin, authority. rewrite !chars_append, Hp, <- !app_assoc. reflexivity.
Qed.

Lemma own_key_clean (u : string) :
  wf_location env = true ->
  Url.is_plain_path u = true ->
  is_passthrough_path (Url.path_of u) = false ->
  is_passthrough_key (resolve env u) = false.
Proof.
  intros Hwf Hplain Hpath. unfold is_passthrough_key. rewrite resolve_plain by exact Hplain.
  destruct u as [|c u]; [discriminate|].
  assert (c = "/"%char) as ->.
  { unfold Url.is_plain_path in Hplain. cbn [JsString.chars list_ascii_of_string] in Hplain.
    destruct (Ascii.eqb_spec c "/"); [assumption | discriminate]. }
  now rewrite pathname_origin.
Qed.

(** None of the keys the worker writes by name is a passthrough key. *)
Lemma named_keys_clean (u : string) :
  wf_location env = true ->
  In u ("/" :: "/index.html" :: "/manifest.json" :: STATIC_CACHE_URLS) ->
  is_passthrough_key (resolve env u) = false.
Proof.
  intros Hwf Hin.
  assert (Hall : forallb (fun v => Url.is_plain_path v
                                   && negb (is_passthrough_path (Url.path_of v)))
                   ("/" :: "/index.html" :: "/manifest.json" :: STATIC_CACHE_URLS) = true)
    by (vm_compute; reflexivity).
  rewrite forallb_forall in Hall. specialize (Hall u Hin).
  apply andb_true_iff in Hall as [H1 H2].
  apply own_key_clean; try assumption; now apply negb_true_iff.
Qed.

End UrlFacts.

(** ** Passthrough files never enter a cache *)

Create HintDb keeps.

Ltac keeps_step :=
  match goal with
  | |- Sw.keeps _ (Sw.bind _ _) _ => apply keeps_bind with (Q := fun _ => True); [|intros ? _]
  | |- Sw.keeps _ (Sw.try_catch _ _) _ => apply keeps_try_catch; [|intros ?]
  | |- Sw.keeps _ (Sw.ret _) _ => apply keeps_ret; try exact I
  | |- Sw.keeps _ (Sw.throw _) _ => apply keeps_throw
  | |- Sw.keeps _ (Sw.respondWith _) _ => apply keeps_respondWith
  | |- Sw.keeps _ (if ?b then _ else _) _ => destruct b eqn:?
  | |- Sw.keeps _ (match ?x with _ => _ end) _ => destruct x eqn:?
  | |- Sw.keeps _ _ _ => solve [eauto with keeps]
  end.

Section PassthroughFacts.
Import Sw.
Variable env : Env.

Lemma free_of_open (bad : string -> bool) (name : string)
    (st : list (string * gmap string Response)) :
  free_of bad st -> free_of bad (storage_open name st).
Proof.
  unfold storage_open, free_of. intros H n c key r Hin Hlook.
  destruct (storage_has name st); [eauto|].
  apply in_app_or in Hin as [Hin | [[= <- <-] | []]]; [eauto|].
  rewrite lookup_empty in Hlook. discriminate.
Qed.

Lemma free_of_delete (bad : string -> bool) (name : string)
    (st : list (string * gmap string Response)) :
  free_of bad st -> free_of bad (storage_delete name st).
Proof.
  unfold storage_delete, free_of. intros H n c key r Hin Hlook.
  apply filter_In in Hin as [Hin _]. eauto.
Qed.

Lemma free_of_put (bad : string -> bool) (cache key : string) (r : Response)
    (st : list (string * gmap string Response)) :
  bad key = false -> free_of bad st -> free_of bad (storage_put cache key r st).
Proof.
  unfold free_of. intros Hkey. induction st as [|[n c] st IH]; simpl; intros H; [exact H|].
  destruct (String.eqb cache n).
  - intros n' c' key' r' [[= <- <-] | Hin] Hlook.
    + destruct (decide (key = key')) as [<- | Hne]; [exact Hkey|].
      rewrite lookup_insert_ne in Hlook by exact Hne.
      apply (H n c key' r'); [now left | exact Hlook].
    + apply (H n' c' key' r'); [now right | exact Hlook].
  - intros n' c' key' r' [[= <- <-] | Hin] Hlook.
    + apply (H n c key' r'); [now left | exact Hlook].
    + apply (IH (fun n0 c0 k0 r0 Hin0 => H n0 c0 k0 r0 (or_intror Hin0)) n' c' key' r' Hin Hlook).
Qed.

Lemma free_of_store_all (cache : string) (answers : list (string * FetchResult))
    (st : list (string * gmap string Response)) :
  (forall a, In a answers -> is_passthrough_key (resolve env (fst a)) = false) ->
  free_of is_passthrough_key st ->
  free_of is_passthrough_key (store_all env cache answers st).
Proof.
  unfold store_all. revert st. induction answers as [|a answers IH]; simpl; intros st Hk H.
  - exact H.
  - apply IH; [intros b Hb; apply Hk; now right|].
    unfold store. destruct (cacheable (snd a)); [|exact H].
    apply free_of_put; [apply Hk; now left | exact H].
Qed.

Lemma free_same (w w' : World) :
  caches w' = caches w -> detached w' = detached w ->
  passthrough_free env w -> passthrough_free env w'.
Proof. unfold passthrough_free. intros -> ->. tauto. Qed.

Lemma keeps_quiet {A} (m : M A) :
  (forall w, caches (snd (m w)) = caches w /\ detached (snd (m w)) = detached w) ->
  keeps (passthrough_free env) m (fun _ => True).
Proof.
  intros Hm w Hw. destruct (Hm w) as [Hc Hd]. split.
  - now apply (free_same w).
  - now destruct (fst (m w)).
Qed.

Lemma keeps_console_write (l : Level) (a : list string) :
  keeps (passthrough_free env) (console_write l a) (fun _ => True).
Proof. apply keeps_quiet. now intros w. Qed.

Lemma keeps_logger_log (a : list string) :
  keeps (passthrough_free env) (logger_log env a) (fun _ => True).
Proof.
  apply keeps_quiet. intros w. unfold logger_log. now destruct (isDevelopment env).
Qed.

Lemma keeps_logger_warn (a : list string) :
  keeps (passthrough_free env) (logger_warn env a) (fun _ => True).
Proof.
  apply keeps_quiet. intros w. unfold logger_warn. now destruct (isDevelopment env).
Qed.

Lemma keeps_logger_debug (a : list string) :
  keeps (passthrough_free env) (logger_debug env a) (fun _ => True).
Proof.
  apply keeps_quiet. intros w. unfold logger_debug. now destruct (isDevelopment env).
Qed.

Lemma keeps_logger_error (a : list string) :
  keeps (passthrough_free env) (logger_error a) (fun _ => True).
Proof. apply keeps_quiet. now intros w. Qed.

Lemma keeps_fetch_request (u : string) :
  keeps (passthrough_free env) (fetch_request env u) (fun _ => True).
Proof.
  apply keeps_quiet. intros w. unfold fetch_request, fetch_settled, bind. simpl.
  now destruct (network env (fetches w) u).
Qed.

Lemma keeps_fetch (u : string) :
  keeps (passthrough_free env) (fetch env u) (fun _ => True).
Proof. apply keeps_with_url. intros key _. apply keeps_fetch_request. Qed.

Lemma keeps_skipWaiting : keeps (passthrough_free env) skipWaiting (fun _ => True).
Proof. apply keeps_quiet. now intros w. Qed.

Lemma keeps_clients_claim : keeps (passthrough_free env) clients_claim (fun _ => True).
Proof. apply keeps_quiet. now intros w. Qed.

Lemma keeps_client_postMessage (c : nat) (m : Activated) :
  keeps (passthrough_free env) (client_postMessage c m) (fun _ => True).
Proof. apply keeps_quiet. now intros w. Qed.

Lemma keeps_reply_on (ps : list nat) (r : Reply) :
  keeps (passthrough_free env) (reply_on ps r) (fun _ => True).
Proof. apply keeps_quiet. intros w. now destruct ps. Qed.

Lemma keeps_caches_keys : keeps (passthrough_free env) (caches_keys env) (fun _ => True).
Proof.
  apply keeps_quiet. intros w. unfold caches_keys, cache_api. now destruct (cacheApiOk env).
Qed.

Lemma keeps_caches_match_request (u : string) :
  keeps (passthrough_free env) (caches_match_request env u) (fun _ => True).
Proof.
  apply keeps_quiet. intros w. unfold caches_match_request, cache_api.
  now destruct (cacheApiOk env).
Qed.

Lemma keeps_caches_match (u : string) :
  keeps (passthrough_free env) (caches_match env u) (fun _ => True).
Proof. apply keeps_with_url. intros key _. apply keeps_caches_match_request. Qed.

Lemma keeps_caches_open (name : string) :
  keeps (passthrough_free env) (caches_open env name) (fun _ => True).
Proof.
  intros w [Hc Hd]. unfold caches_open, cache_api.
  destruct (cacheApiOk env); simpl; (split; [|exact I]); split; auto.
  now apply free_of_open.
Qed.

Lemma keeps_caches_delete (name : string) :
  keeps (passthrough_free env) (caches_delete env name) (fun _ => True).
Proof.
  intros w [Hc Hd]. unfold caches_delete, cache_api.
  destruct (cacheApiOk env); simpl; (split; [|exact I]); split; auto.
  now apply free_of_delete.
Qed.

Lemma keeps_cache_put_request (cache key : string) (r : Response) :
  is_passthrough_key key = false ->
  keeps (passthrough_free env) (cache_put_request env cache key r) (fun _ => True).
Proof.
  intros Hkey w [Hc Hd]. unfold cache_put_request, cache_api.
  destruct (cacheApiOk env); simpl; [|now repeat split].
  destruct (status r =? 206)%N; simpl; (split; [|exact I]); split; auto.
  now apply free_of_put.
Qed.

Lemma keeps_cache_put_parsed (cache u : string) (r : Response) :
  (forall key, absolute env u = Some key -> is_passthrough_key key = false) ->
  keeps (passthrough_free env) (cache_put env cache u r) (fun _ => True).
Proof.
  intros H. apply keeps_with_url. intros key Hkey. now apply keeps_cache_put_request, H.
Qed.

Lemma keeps_cache_put (cache u : string) (r : Response) :
  is_passthrough_key (resolve env u) = false ->
  keeps (passthrough_free env) (cache_put env cache u r) (fun _ => True).
Proof.
  intros H. apply keeps_cache_put_parsed. intros key Hkey.
  now rewrite <- (absolute_resolve env u key Hkey).
Qed.

Lemma keeps_cache_addAll (cache : string) (urls : list string) :
  (forall u, In u urls -> is_passthrough_key (resolve env u) = false) ->
  keeps (passthrough_free env) (cache_addAll env cache urls) (fun _ => True).
Proof.
  intros Hurls w [Hc Hd].
  destruct (cacheApiOk env) eqn:api.
  - destruct (forallb (parses env) urls) eqn:Hparse.
    + rewrite (cache_addAll_run env api) by exact Hparse. cbv zeta.
      destruct (all_cacheable (settle_all env (fetches w) urls)); simpl;
        (split; [|exact I]); split; auto.
      apply free_of_store_all; [|exact Hc].
      intros [u fr] Hin. apply Hurls. eapply settle_all_urls. exact Hin.
    + unfold cache_addAll, cache_api. rewrite api, Hparse. simpl. now repeat split.
  - unfold cache_addAll, cache_api. rewrite api. simpl. now repeat split.
Qed.

Lemma keeps_cache_add (cache u : string) :
  is_passthrough_key (resolve env u) = false ->
  keeps (passthrough_free env) (cache_add env cache u) (fun _ => True).
Proof.
  intros Hu. apply keeps_cache_addAll. intros v [<- | []]. exact Hu.
Qed.

Lemma keeps_detach (t : Task) :
  (forall key, In key (task_keys env t) -> is_passthrough_key key = false) ->
  keeps (passthrough_free env) (detach t) (fun _ => True).
Proof.
  intros Ht w [Hc Hd]. simpl. split; [|exact I]. split; [exact Hc|]. simpl.
  intros t' key Hin Hkey. apply in_app_or in Hin as [Hin | [<- | []]]; eauto.
Qed.

End PassthroughFacts.

#[export] Hint Resolve keeps_console_write keeps_logger_log keeps_logger_warn
  keeps_logger_debug keeps_logger_error keeps_fetch_request keeps_fetch keeps_skipWaiting
  keeps_clients_claim keeps_client_postMessage keeps_reply_on keeps_caches_keys
  keeps_caches_match_request keeps_caches_match keeps_caches_open keeps_caches_delete
  keeps_cache_put_request keeps_cache_put keeps_cache_put_parsed keeps_cache_addAll
  keeps_cache_add keeps_detach
  : keeps.

Section PassthroughHandlers.
Import Sw.
Variable env : Env.
Hypothesis wf : wf_location env = true.

Lemma root_clean : is_passthrough_key (resolve env "/") = false.
Proof. apply named_keys_clean; [exact wf | now left]. Qed.

Lemma index_clean : is_passthrough_key (resolve env "/index.html") = false.
Proof. apply named_keys_clean; [exact wf | right; now left]. Qed.

Lemma manifest_clean : is_passthrough_key (resolve env "/manifest.json") = false.
Proof. apply named_keys_clean; [exact wf | right; right; now left]. Qed.

Lemma static_clean (u : string) :
  In u STATIC_CACHE_URLS -> is_passthrough_key (resolve env u) = false.
Proof. intros Hin. apply named_keys_clean; [exact wf | now do 3 right]. Qed.

#[local] Hint Resolve root_clean index_clean manifest_clean : keeps.

Lemma keeps_detach_put (cache key : string) (r : Response) :
  is_passthrough_key key = false ->
  keeps (passthrough_free env) (detach (TPut cache key r)) (fun _ => True).
Proof. intros H. apply keeps_detach. intros k [<- | []]. exact H. Qed.

Lemma keeps_detach_open_put (key : string) (r : Response) :
  is_passthrough_path (Url.pathname key) = false ->
  keeps (passthrough_free env) (detach (TOpenPut key r)) (fun _ => True).
Proof. intros H. apply keeps_detach. intros k [<- | []]. exact H. Qed.

Lemma keeps_detach_dynamic (key : string) (r : Response) :
  is_passthrough_path (Url.pathname key) = false ->
  keeps (passthrough_free env) (detach (TCacheDynamic key r)) (fun _ => True).
Proof. intros H. apply keeps_detach. intros k [<- | []]. exact H. Qed.

Lemma keeps_detach_revalidate (key : string) :
  is_passthrough_path (Url.pathname key) = false ->
  keeps (passthrough_free env) (detach (TRevalidate key)) (fun _ => True).
Proof. intros H. apply keeps_detach. intros k [<- | []]. exact H. Qed.

Lemma keeps_detach_shell :
  keeps (passthrough_free env) (detach TRevalidateShell) (fun _ => True).
Proof.
  apply keeps_detach. intros k [<- | [<- | []]]; [apply root_clean | apply index_clean].
Qed.

#[local] Hint Resolve keeps_detach_put keeps_detach_open_put keeps_detach_dynamic
  keeps_detach_revalidate keeps_detach_shell : keeps.

Lemma keeps_run_task (t : Task) :
  (forall key, In key (task_keys env t) -> is_passthrough_key key = false) ->
  keeps (passthrough_free env) (run_task env t) (fun _ => True).
Proof.
  intros Hkeys. destruct t as [key r | key r | cache key r | | key]; simpl in Hkeys;
    try (assert (Hkey : is_passthrough_key key = false) by (apply Hkeys; now left));
    unfold run_task, swallow; repeat keeps_step.
Qed.

Lemma keeps_take_detached :
  keeps (passthrough_free env) take_detached
    (fun tasks => forall t key, In t tasks -> In key (task_keys env t) ->
                                is_passthrough_key key = false).
Proof.
  intros w [Hc Hd]. simpl. split; [|exact Hd]. split; [exact Hc|]. simpl. tauto.
Qed.

Lemma keeps_drain : keeps (passthrough_free env) (drain env) (fun _ => True).
Proof.
  unfold drain. eapply keeps_bind; [apply keeps_take_detached|]. intros tasks Htasks.
  apply keeps_for_each. intros t Ht. apply keeps_run_task. intros key. now apply Htasks.
Qed.

Lemma keeps_passthrough_file (req : Request) :
  keeps (passthrough_free env) (passthrough_file env req) (fun _ => True).
Proof. unfold passthrough_file. repeat keeps_step. Qed.

Lemma keeps_dev_navigate (req : Request) :
  keeps (passthrough_free env) (dev_navigate env req) (fun _ => True).
Proof. unfold dev_navigate. repeat keeps_step. Qed.

Lemma keeps_favicon_file (req : Request) :
  keeps (passthrough_free env) (favicon_file env req) (fun _ => True).
Proof. unfold favicon_file. repeat keeps_step. Qed.

#[local] Hint Resolve keeps_passthrough_file keeps_dev_navigate keeps_favicon_file : keeps.

Lemma keeps_dev_asset (req : Request) :
  is_passthrough_path (Url.pathname (url req)) = false ->
  keeps (passthrough_free env) (dev_asset env req) (fun _ => True).
Proof. intros Hreq. unfold dev_asset. repeat keeps_step. Qed.

Lemma keeps_production_manifest :
  keeps (passthrough_free env) (production_manifest env) (fun _ => True).
Proof. unfold production_manifest. repeat keeps_step. Qed.

Lemma keeps_production_navigate :
  keeps (passthrough_free env) (production_navigate env) (fun _ => True).
Proof. unfold production_navigate, or_else. repeat keeps_step. Qed.

Lemma keeps_production_asset (req : Request) :
  is_passthrough_path (Url.pathname (url req)) = false ->
  keeps (passthrough_free env) (production_asset env req) (fun _ => True).
Proof. intros Hreq. unfold production_asset. repeat keeps_step. Qed.

#[local] Hint Resolve keeps_dev_asset keeps_production_manifest keeps_production_navigate
  keeps_production_asset : keeps.

Lemma keeps_production_respond (req : Request) :
  keeps (passthrough_free env) (production_respond env req) (fun _ => True).
Proof. unfold production_respond. cbv zeta. repeat keeps_step. Qed.

#[local] Hint Resolve keeps_production_respond : keeps.

Lemma keeps_fetch_handler (req : Request) :
  keeps (passthrough_free env) (fetch_handler env req) (fun _ => True).
Proof. unfold fetch_handler. cbv zeta. repeat keeps_step. Qed.

Lemma keeps_fetch_event (req : Request) :
  keeps (passthrough_free env) (fetch_event env req) (fun _ => True).
Proof.
  unfold fetch_event. eapply keeps_bind; [apply keeps_fetch_handler|]. intros answer _.
  eapply keeps_bind; [apply keeps_drain|]. intros _ _. now apply keeps_ret.
Qed.

Lemma keeps_getAppCaches : keeps (passthrough_free env) (getAppCaches env) (fun _ => True).
Proof. unfold getAppCaches. repeat keeps_step. Qed.

Lemma keeps_currentCacheExists :
  keeps (passthrough_free env) (currentCacheExists env) (fun _ => True).
Proof. unfold currentCacheExists. repeat keeps_step. Qed.

#[local] Hint Resolve keeps_getAppCaches keeps_currentCacheExists : keeps.

Lemma keeps_cleanupOldCaches :
  keeps (passthrough_free env) (cleanupOldCaches env) (fun _ => True).
Proof.
  unfold cleanupOldCaches. apply keeps_bind with (Q := fun _ => True); [auto with keeps|].
  intros appCaches _. cbv zeta. apply keeps_map_each. intros name _. repeat keeps_step.
Qed.

Lemma keeps_forceCacheUpdate :
  keeps (passthrough_free env) (forceCacheUpdate env) (fun _ => True).
Proof.
  unfold forceCacheUpdate. repeat keeps_step.
  apply keeps_cache_addAll. apply static_clean.
Qed.

#[local] Hint Resolve keeps_cleanupOldCaches keeps_forceCacheUpdate : keeps.

Lemma keeps_message_handler (ev : MessageEvent) :
  keeps (passthrough_free env) (message_handler env ev) (fun _ => True).
Proof.
  unfold message_handler, on_CLEAR_CACHE, on_CLEAR_APP_CACHE, on_FORCE_UPDATE,
    on_GET_CACHE_INFO.
  repeat first [ apply keeps_map_each; intros ? _ | keeps_step ].
Qed.

Lemma keeps_activate_handler :
  keeps (passthrough_free env) (activate_handler env) (fun _ => True).
Proof.
  unfold activate_handler.
  repeat first [ apply keeps_for_each; intros ? _ | keeps_step ].
Qed.

Lemma keeps_cache_static_assets (cache : string) :
  keeps (passthrough_free env) (cache_static_assets env cache) (fun _ => True).
Proof.
  unfold cache_static_assets. apply keeps_try_catch.
  - apply keeps_bind with (Q := fun _ => True); [|intros; auto with keeps].
    apply keeps_cache_addAll. apply static_clean.
  - intros e. apply keeps_bind with (Q := fun _ => True); [auto with keeps|]. intros _ _.
    apply keeps_for_each. intros u Hu. apply keeps_try_catch; [|intros; auto with keeps].
    apply keeps_bind with (Q := fun _ => True); [|intros; auto with keeps].
    apply keeps_cache_add. now apply static_clean.
Qed.

(** No script or stylesheet reference of the entry document resolves to
    a passthrough file. *)
Hypothesis document_clean :
  forall t r u key,
    network env t (resolve env "/index.html") = Resolved r ->
    In u (fst (discovered_assets (text_of r))) ->
    absolute env u = Some key ->
    is_passthrough_key key = false.

Lemma keeps_discover :
  keeps (passthrough_free env) (discover env)
    (fun urls => forall u key, In u urls -> absolute env u = Some key ->
                               is_passthrough_key key = false).
Proof.
  intros w Hw.
  assert (Hframe : caches (snd (discover env w)) = caches w
                   /\ detached (snd (discover env w)) = detached w
                   /\ match fst (discover env w) with
                      | Ok urls => forall u key, In u urls -> absolute env u = Some key ->
                                     is_passthrough_key key = false
                      | Throw _ => True
                      end).
  { unfold discover, fetch. rewrite (with_url_plain env "/index.html" _ eq_refl).
    unfold fetch_request, fetch_settled, bind, logger_log, console_write,
      modify, ret, throw.
    cbn [fst snd].
    destruct (network env (fetches w) (resolve env "/index.html")) as [r|e] eqn:Hnet.
    - specialize (document_clean (fetches w) r).
      destruct (ok r); [|cbn; repeat split; intros u key []].
      destruct (discovered_assets (text_of r)) as [urls [e|]]; cbn [fst] in document_clean;
        destruct (isDevelopment env); cbn; repeat split; intros u key Hu Hkey;
        now apply (document_clean u key).
    - destruct (isDevelopment env); cbn; repeat split; intros u key []. }
  destruct Hframe as (Hc & Hd & Hq). split; [now apply (free_same env w) | exact Hq].
Qed.

Lemma keeps_cache_additional (cache : string) (urls : list string) :
  (forall u key, In u urls -> absolute env u = Some key -> is_passthrough_key key = false) ->
  keeps (passthrough_free env) (cache_additional env cache urls) (fun _ => True).
Proof.
  intros Hurls. unfold cache_additional. apply keeps_for_each. intros u Hu.
  assert (Hclean : forall key, absolute env u = Some key -> is_passthrough_key key = false)
    by (intros key; now apply Hurls).
  repeat keeps_step.
Qed.

Lemma keeps_cache_main_page (cache : string) :
  keeps (passthrough_free env) (cache_main_page env cache) (fun _ => True).
Proof. unfold cache_main_page. repeat keeps_step. Qed.

Lemma keeps_cache_manifest (cache : string) :
  keeps (passthrough_free env) (cache_manifest env cache) (fun _ => True).
Proof. unfold cache_manifest. repeat keeps_step. Qed.

Lemma keeps_install_handler :
  keeps (passthrough_free env) (install_handler env) (fun _ => True).
Proof.
  unfold install_handler, install_body, install_rest.
  repeat first
    [ match goal with
      | |- keeps _ (bind (cache_static_assets env _) _) _ =>
          apply keeps_bind with (Q := fun _ => True);
            [apply keeps_cache_static_assets | intros ? _]
      | |- keeps _ (bind (cache_main_page env _) _) _ =>
          apply keeps_bind with (Q := fun _ => True);
            [apply keeps_cache_main_page | intros ? _]
      | |- keeps _ (bind (cache_manifest env _) _) _ =>
          apply keeps_bind with (Q := fun _ => True);
            [apply keeps_cache_manifest | intros ? _]
      | |- keeps _ (bind (discover env) _) _ =>
          eapply keeps_bind; [apply keeps_discover | intros additionalUrls Hclean]
      | |- keeps _ (bind (cache_additional env _ _) _) _ =>
          apply keeps_bind with (Q := fun _ => True);
            [now apply keeps_cache_additional | intros ? _]
      end
    | keeps_step ].
Qed.

Lemma keeps_handle (e : Event) : keeps (passthrough_free env) (handle env e) (fun _ => True).
Proof.
  destruct e as [| | req | ev]; simpl.
  - apply keeps_install_handler.
  - apply keeps_activate_handler.
  - apply keeps_bind with (Q := fun _ => True); [apply keeps_fetch_event|].
    intros _ _. now apply keeps_ret.
  - apply keeps_message_handler.
Qed.

Lemma run_events_free (es : list Event) (w : World) :
  passthrough_free env w -> passthrough_free env (run_events env es w).
Proof.
  revert w. induction es as [|e es IH]; intros w Hw; simpl; [exact Hw|].
  apply IH. now apply (keeps_handle e w).
Qed.

End PassthroughHandlers.

Section PassthroughTheorem.
Import Sw.
Variable env : Env.

Lemma passthrough_request_run (req : Request) (w : World) :
  method req = "GET" ->
  JsString.startsWith (origin env) (url req) = true ->
  is_passthrough_path (Url.pathname (url req)) = true ->
  fetch_handler env req w
  = (Ok (Respond match network env (fetches w) (url req) with
                 | Resolved response => if ok response then response else not_found_file
                 | Rejected _ => not_found_file
                 end),
     advance 1 w).
Proof.
  intros Hm Ho Hp. unfold fetch_handler. rewrite Hm, String.eqb_refl, Ho. cbv zeta.
  cbn [negb]. rewrite Hp.
  unfold respondWith, passthrough_file, fetch_request, fetch_settled. monad_unfold.
  destruct (network env (fetches w) (url req)) as [r|e]; [destruct (ok r)|]; reflexivity.
Qed.

(** C7, amended: a request for /robots.txt or /sitemap.xml is answered from
    the network in both environments, with the network's response when it is
    ok and with a 404 otherwise, and changes no cache. No sequence of
    install, activate, fetch and message events writes a passthrough path
    into a cache, provided no script or stylesheet reference of the entry
    document resolves, as the URL parser resolves it against the worker's
    location, to a URL with such a path (install stores whatever the entry
    document refers to, under the URL the reference resolves to). *)
Theorem C7_passthrough_never_cached :
  wf_location env = true ->
  (forall t r u key,
      network env t (resolve env "/index.html") = Resolved r ->
      In u (fst (discovered_assets (text_of r))) ->
      absolute env u = Some key ->
      is_passthrough_key key = false) ->
  (forall req w,
      method req = "GET" ->
      JsString.startsWith (origin env) (url req) = true ->
      is_passthrough_path (Url.pathname (url req)) = true ->
      exists w',
        fetch_handler env req w
        = (Ok (Respond match network env (fetches w) (url req) with
                       | Resolved response =>
                           if ok response then response
                           else new_Response (BodyText "Not Found") 404 "" None
                       | Rejected _ => new_Response (BodyText "Not Found") 404 "" None
                       end), w')
        /\ caches w' = caches w /\ detached w' = detached w)
  /\ (forall es w,
        passthrough_free env w ->
        passthrough_free env (run_events env es w)
        /\ free_of is_passthrough_key (caches (run_events env es w))).
Proof.
  intros Hwf Hdoc. split.
  - intros req w Hm Ho Hp. exists (advance 1 w).
    split; [now apply passthrough_request_run | split; reflexivity].
  - intros es w Hw.
    assert (H := run_events_free env Hwf Hdoc es w Hw). split; [exact H | apply H].
Qed.

End PassthroughTheorem.

Section PassthroughExamples.
Import Sw Scenarios.

Lemma C7_passthrough_never_cached_witness :
  let env := worker production "1.2.0-b9829bc4" online in
  wf_location env = true
  /\ passthrough_free env (world [])
  /\ free_of is_passthrough_key
       (caches (run_events env [Install; Activate; Fetch (get "https://nuwault.com/robots.txt" "")]
                           (world []))).
Proof.
  intros env.
  assert (Hstart : passthrough_free env (world [])).
  { split; [intros n c key r [] | intros t key []]. }
  split; [reflexivity|]. split; [exact Hstart|].
  apply (C7_passthrough_never_cached env eq_refl).
  - intros t r u key [= <-] Hin. vm_compute in Hin. contradiction.
  - exact Hstart.
Defined.

(** C7, as stated, fails for install: the assets install discovers in the
    entry document are stored whatever their path. Here the entry document
    loads /robots.txt as a script. *)
Lemma C7_counterexample :
  let env := worker production "1.2.0-b9829bc4"
               (serving "https://nuwault.com/index.html" (script_tag "/robots.txt")) in
  let w' := snd (install_handler env (world [])) in
  is_passthrough_path (Url.pathname "https://nuwault.com/robots.txt") = true
  /\ entry (CACHE_NAME env) "https://nuwault.com/robots.txt" (caches w')
     = Some (page 200 "").
Proof. vm_compute. split; reflexivity. Qed.

(** The key is the URL the reference resolves to, not its text: a script
    reference with a dot segment or a backslash that leads to /robots.txt
    puts /robots.txt into the cache as well, and a reference the parser
    refuses is not fetched. *)
Example install_stores_resolved_references :
  let stored document :=
    let env := worker production "1.2.0-b9829bc4"
                 (serving "https://nuwault.com/index.html" document) in
    let w' := snd (install_handler env (world [])) in
    (entry (CACHE_NAME env) "https://nuwault.com/robots.txt" (caches w'), fetches w') in
  stored (script_tag "/a/../robots.txt") = (Some (page 200 ""), 29)
  /\ stored (script_tag "/a/%2E%2e/./robots.txt") = (Some (page 200 ""), 29)
  /\ stored (script_tag "/x\..\robots.txt") = (Some (page 200 ""), 29)
  /\ stored (script_tag "/robots.txt#top") = (Some (page 200 ""), 29)
  /\ stored (script_tag "/assets/app.js") = (None, 29)
  /\ stored (script_tag "//exa mple/robots.txt") = (None, 28).
Proof. vm_compute. repeat split. Qed.

End PassthroughExamples.

(** ** Navigation in production *)

Section NavigationFacts.
Import Sw.
Variable env : Env.
Hypothesis api : cacheApiOk env = true.
Hypothesis production : isDevelopment env = false.

Lemma production_navigate_cached (w : World) (shell : Response) :
  shell_of env (caches w) = Some shell ->
  production_navigate env w
  = (Ok shell,
     mkWorld (caches w) (fetches w) (console w) (detached w ++ [TRevalidateShell])
             (replies w) (broadcasts w) (skipWaitingCalls w) (claims w)).
Proof.
  unfold shell_of, production_navigate. intros Hshell.
  plain_urls. unfold bind at 1. rewrite (caches_match_request_run env api).
  unfold bind at 1, or_else.
  destruct (storage_match (resolve env "/index.html") (caches w)) as [r|] eqn:Hindex.
  - injection Hshell as ->. rewrite (logger_log_production env _ production). reflexivity.
  - rewrite (caches_match_request_run env api), Hshell.
    rewrite (logger_log_production env _ production). reflexivity.
Qed.

Lemma production_navigation_run (req : Request) (w : World) (shell : Response) :
  method req = "GET" ->
  JsString.startsWith (origin env) (url req) = true ->
  is_passthrough_path (Url.pathname (url req)) = false ->
  is_favicon req = false ->
  JsString.includes "manifest.json" (url req) = false ->
  mode req = "navigate" ->
  shell_of env (caches w) = Some shell ->
  fetch_handler env req w
  = (Ok (Respond shell),
     mkWorld (caches w) (fetches w) (console w) (detached w ++ [TRevalidateShell])
             (replies w) (broadcasts w) (skipWaitingCalls w) (claims w)).
Proof.
  intros Hm Ho Hp Hf Hman Hnav Hshell.
  unfold fetch_handler. rewrite Hm, String.eqb_refl, Ho. cbv zeta. cbn [negb].
  rewrite Hp, production.
  unfold respondWith, production_respond. cbv zeta. rewrite Hp, Hf, Hman, Hnav, String.eqb_refl.
  unfold try_catch at 1, bind at 1. unfold ret at 1.
  now rewrite (production_navigate_cached w shell Hshell).
Qed.

Lemma revalidate_shell_run (w : World) :
  run_task env TRevalidateShell w
  = (Ok tt,
     match network env (fetches w) (resolve env "/index.html") with
     | Resolved response =>
         if ok response then
           if (status response =? 206)%N
           then with_caches (storage_open (CACHE_NAME env)) (advance 1 w)
           else with_caches
                  (fun st => storage_put (CACHE_NAME env) (resolve env "/index.html") response
                               (storage_put (CACHE_NAME env) (resolve env "/") response
                                  (storage_open (CACHE_NAME env) st)))
                  (advance 1 w)
         else advance 1 w
     | Rejected _ => advance 1 w
     end).
Proof.
  unfold run_task, swallow. plain_urls.
  unfold fetch_request, fetch_settled, cache_put_request, caches_open, cache_api, logger_log.
  rewrite api, production. monad_unfold.
  destruct (network env (fetches w) (resolve env "/index.html")) as [r|e]; [|reflexivity].
  destruct (ok r); [|reflexivity].
  destruct (status r =? 206)%N; reflexivity.
Qed.

Lemma shell_keys_differ : resolve env "/" <> resolve env "/index.html".
Proof.
  rewrite !resolve_plain by reflexivity.
  intros H. apply (String.app_inj (origin env)) in H. discriminate.
Qed.

(** C4, amended: in production a navigation request that reaches the
    navigation branch (a GET of the worker's origin that is no passthrough
    file, favicon or manifest URL) and finds a cached shell is answered with
    that shell without any request being awaited; one background
    revalidation is started. When it later runs it never fails: if
    /index.html is fetched with an ok status (any 2xx), other than 206, the
    entries for / and /index.html of the current generation are overwritten
    with the response; if the status is 206 the writes are refused and
    swallowed; if the fetch rejects or the status is not ok, no cache
    changes. *)
Theorem C4_production_navigation (req : Request) (w : World) (shell : Response) :
  method req = "GET" ->
  JsString.startsWith (origin env) (url req) = true ->
  is_passthrough_path (Url.pathname (url req)) = false ->
  is_favicon req = false ->
  JsString.includes "manifest.json" (url req) = false ->
  mode req = "navigate" ->
  shell_of env (caches w) = Some shell ->
  (exists started,
      fetch_handler env req w = (Ok (Respond shell), started)
      /\ caches started = caches w
      /\ fetches started = fetches w
      /\ detached started = detached w ++ [TRevalidateShell])
  /\ (forall w0, exists w',
        run_task env TRevalidateShell w0 = (Ok tt, w')
        /\ match network env (fetches w0) (resolve env "/index.html") with
           | Resolved response =>
               if ok response then
                 if (status response =? 206)%N
                 then caches w' = storage_open (CACHE_NAME env) (caches w0)
                 else entry (CACHE_NAME env) (resolve env "/") (caches w') = Some response
                      /\ entry (CACHE_NAME env) (resolve env "/index.html") (caches w')
                         = Some response
               else caches w' = caches w0
           | Rejected _ => caches w' = caches w0
           end).
Proof.
  intros Hm Ho Hp Hf Hman Hnav Hshell. split.
  - eexists. split; [now apply production_navigation_run|]. repeat split.
  - intros w0. eexists. split; [apply revalidate_shell_run|].
    destruct (network env (fetches w0) (resolve env "/index.html")) as [r|e]; [|reflexivity].
    destruct (ok r); [|reflexivity].
    destruct (status r =? 206)%N; [reflexivity|].
    cbn [caches with_caches advance].
    assert (Hhas : storage_has (CACHE_NAME env)
                     (storage_put (CACHE_NAME env) (resolve env "/") r
                        (storage_open (CACHE_NAME env) (caches w0))) = true).
    { rewrite storage_has_put. apply storage_has_open. }
    split.
    + rewrite entry_put_other by (intros H; apply shell_keys_differ; now symmetry).
      apply entry_put_same. apply storage_has_open.
    + now apply entry_put_same.
Qed.

End NavigationFacts.

Section NavigationExamples.
Import Sw Scenarios.

Lemma C4_production_navigation_witness :
  let env := worker production "1.2.0-b9829bc4" offline in
  let shell := page 200 "<html>shell</html>" in
  let w := world [("nuwault-v1.2.0-b9829bc4",
                   <["https://nuwault.com/index.html" := shell]> ∅)] in
  cacheApiOk env = true /\ isDevelopment env = false
  /\ exists started,
       fetch_handler env (navigate "https://nuwault.com/settings") w
       = (Ok (Respond shell), started)
       /\ detached started = [TRevalidateShell].
Proof.
  intros env shell w. split; [reflexivity|]. split; [reflexivity|].
  destruct (C4_production_navigation env eq_refl eq_refl
              (navigate "https://nuwault.com/settings") w shell
              eq_refl eq_refl eq_refl eq_refl eq_refl eq_refl eq_refl)
    as [(started & Hrun & _ & _ & Hd) _].
  exists started. split; [exact Hrun | exact Hd].
Defined.

(** C4, as stated, fails: the background write does not wait for a 200. Here
    /index.html comes back with status 203 and overwrites both entries of
    the shell. *)
Lemma C4_counterexample :
  let index := "https://nuwault.com/index.html" in
  let env := worker production "1.2.0-b9829bc4" (failing 203 [index]) in
  let shell := page 200 "" in
  let w := world [("nuwault-v1.2.0-b9829bc4", generation ["https://nuwault.com/"; index])] in
  let w' := snd (fetch_event env (navigate "https://nuwault.com/") w) in
  fst (fetch_event env (navigate "https://nuwault.com/") w) = Ok (Respond shell)
  /\ entry (CACHE_NAME env) index (caches w) = Some shell
  /\ entry (CACHE_NAME env) index (caches w') = Some (page 203 "")
  /\ entry (CACHE_NAME env) "https://nuwault.com/" (caches w') = Some (page 203 "")
  /\ status (page 203 "") <> 200%N.
Proof. vm_compute. repeat split; discriminate. Qed.

End NavigationExamples.

(** ** The typed fallback *)

Section FallbackFacts.
Import Sw.
Variable env : Env.
Hypothesis api : cacheApiOk env = true.



End FallbackFacts.

Section FallbackTheorem.
Import Sw.
Variable env : Env.



End FallbackTheorem.

Section FallbackExamples.
Import Sw Scenarios.



End FallbackExamples.

(** ** The guards of the fetch handler *)

Section GuardFacts.
Import Sw Scenarios.

(** A request that is not a GET, or whose URL does not start with the text
    of the worker's origin, is left to the browser and changes nothing. *)
Lemma fetch_guards (env : Env) (req : Request) (w : World) :
  String.eqb (method req) "GET" = false
  \/ JsString.startsWith (origin env) (url req) = false ->
  fetch_handler env req w = (Ok PassThrough, w).
Proof.
  intros [H | H]; unfold fetch_handler; rewrite H; [reflexivity|].
  now destruct (String.eqb (method req) "GET").
Qed.

Lemma fetch_guards_witness :
  fetch_handler (worker production "1.2.0-b9829bc4" online)
    (get "https://fonts.example/inter.woff2" "font") (world [])
  = (Ok PassThrough, world []).
Proof.
  apply (fetch_guards (worker production "1.2.0-b9829bc4" online)
           (get "https://fonts.example/inter.woff2" "font") (world [])).
  right. reflexivity.
Defined.

(** C6: the guard compares text, not origins. A URL of another origin whose
    text starts with the worker's origin (another port, or a longer host
    name) is answered by the handler, and in production a foreign manifest
    URL makes the worker fetch and store its own manifest. *)
Theorem C6_origin_guard_is_a_prefix_test :
  let dev := worker development "1.2.0-b9829bc4" (web "http://localhost:5173") in
  let other_port := get "http://localhost:51730/api/data.js" "script" in
  let prod := worker production "1.2.0-b9829bc4" (web "https://nuwault.com") in
  let other_host := get "https://nuwault.com.evil.example/manifest.json" "manifest" in
  let after := snd (fetch_event prod other_host (world [])) in
  Url.origin (url other_port) <> origin dev
  /\ (exists r, fst (fetch_handler dev other_port (world [])) = Ok (Respond r))
  /\ Url.origin (url other_host) <> origin prod
  /\ (exists r, fst (fetch_event prod other_host (world [])) = Ok (Respond r))
  /\ entry (CACHE_NAME prod) "https://nuwault.com/manifest.json" (caches after) <> None.
Proof.
  cbv zeta. split; [vm_compute; discriminate|].
  split; [eexists; vm_compute; reflexivity|].
  split; [vm_compute; discriminate|].
  split; [eexists; vm_compute; reflexivity|].
  vm_compute. discriminate.
Qed.

End GuardFacts.

(** ** Command wrappers of the page *)

Section WrapperFacts.
Import Sw PwaManager.
Variable page : Page.
Hypothesis supported : serviceWorkerInNavigator page = true.
Hypothesis registered : serviceWorkerRegistration page = Some {| active := true |}.



(** A reply that arrives when the timer has fired is not seen. *)
Lemma wait_for_reply_late {A} (ms t : N) (data : Reply) (onmessage : Reply -> Outcome A) :
  (ms <= t)%N ->
  wait_for_reply ms onmessage (Some (t, data)) = wait_for_reply ms onmessage None.
Proof.
  intros H. unfold wait_for_reply. apply N.ltb_ge in H. now rewrite H.
Qed.

End WrapperFacts.

Section WrapperExamples.
Import Sw PwaManager Scenarios.

Lemma wait_for_reply_late_witness :
  wait_for_reply 2000 (fun data => Resolve (success_of data))
    (Some (2500%N, ReplyCleared true 3))
  = wait_for_reply 2000 (fun data => Resolve (success_of data)) None.
Proof.
  apply (wait_for_reply_late 2000 2500 (ReplyCleared true 3)
           (fun data => Resolve (success_of data))).
  discriminate.
Defined.



End WrapperExamples.

Section InstallExamples.
Import Sw Scenarios.

Lemma C5_production_install_witness :
  let icon := "https://nuwault.com/assets/img/favicon/favicon.ico" in
  let env := worker production "1.2.0-b9829bc4" (failing 404 [icon]) in
  cacheApiOk env = true /\ isDevelopment env = false
  /\ exists written final,
       install_handler env (world []) = (Ok tt, final)
       /\ entry (CACHE_NAME env) "https://nuwault.com/index.html" (caches written)
          = Some (page 200 "")
       /\ entry (CACHE_NAME env) icon (caches written) = None
       /\ In {| level := ERROR;
                args := ["Failed to cache individual asset:";
                         "/assets/img/favicon/favicon.ico"; ADD_ALL_FAILED] |}
             (console written).
Proof.
  intros icon env. split; [reflexivity|]. split; [reflexivity|].
  pose proof (C5_production_install env (world [])) as H. cbv zeta in H.
  change (isDevelopment env) with false in H. change (cacheApiOk env) with true in H.
  cbv iota in H. destruct H as (written & final & _ & _ & Hrun & Hentries).
  exists written, final. split; [exact Hrun|].
  assert (Hindex := Hentries "/index.html" (Resolved (page 200 ""))).
  assert (Hicon := Hentries "/assets/img/favicon/favicon.ico" (Resolved (page 404 ""))).
  clear Hentries Hrun.
  split; [|split].
  - apply Hindex. clear. vm_compute. tauto.
  - apply Hicon. clear. vm_compute. tauto.
  - apply Hicon. clear. vm_compute. tauto.
Defined.

(** C5, as stated, fails in development: the install handler returns
    before any cache is opened, so no entry of the static manifest is
    written although every asset is available. *)
Lemma C5_counterexample :
  let env := worker development "1.2.0-b9829bc4" online in
  let w' := snd (install_handler env (world [])) in
  isDevelopment env = true
  /\ fst (install_handler env (world [])) = Ok tt
  /\ caches w' = []
  /\ fetches w' = 0.
Proof. vm_compute. repeat split. Qed.

End InstallExamples.

(** * Behaviour of the handlers, the generator and the page *)

Create HintDb inv.

Ltac inv_step :=
  match goal with
  | |- Sw.keeps _ (Sw.bind _ _) _ => apply keeps_bind with (Q := fun _ => True); [|intros ? _]
  | |- Sw.keeps _ (Sw.try_catch _ _) _ => apply keeps_try_catch; [|intros ?]
  | |- Sw.keeps _ (Sw.ret _) _ => apply keeps_ret; try exact I
  | |- Sw.keeps _ (Sw.throw _) _ => apply keeps_throw
  | |- Sw.keeps _ (Sw.respondWith _) _ => apply keeps_respondWith
  | |- Sw.keeps _ (if ?b then _ else _) _ => case_eq b; intros
  | |- Sw.keeps _ (match ?x with _ => _ end) _ => case_eq x; intros
  | |- Sw.keeps _ _ _ => solve [eauto with inv]
  end.

(** ** Invariants of the handlers

    An invariant that survives each of the elementary state changes the
    worker makes survives every handler built from them. Each lemma depends
    on the changes its computation can make, and on no other. *)

Section StateInvariants.
Import Sw SwState.
Variable env : Env.
Variable J : World -> Prop.
Variable T : Response -> Prop.

Hypothesis T_ok : forall r, ok r = true -> T r.

Hypothesis J_fetches : forall w n,
  J w -> J (mkWorld (caches w) n (console w) (detached w) (replies w) (broadcasts w)
                    (skipWaitingCalls w) (claims w)).
Hypothesis J_console : forall w l a,
  l = ERROR \/ isDevelopment env = true ->
  J w -> J (mkWorld (caches w) (fetches w) (console w ++ [{| level := l; args := a |}])
                    (detached w) (replies w) (broadcasts w) (skipWaitingCalls w) (claims w)).
Hypothesis J_open : forall w name, J w -> J (with_caches (storage_open name) w).
Hypothesis J_delete : forall w name, J w -> J (with_caches (storage_delete name) w).
Hypothesis J_put : forall w cache key r,
  T r -> (status r =? 206)%N = false -> J w -> J (with_caches (storage_put cache key r) w).
Hypothesis J_detach : forall w t,
  task_holds T t ->
  J w -> J (mkWorld (caches w) (fetches w) (console w) (detached w ++ [t]) (replies w)
                    (broadcasts w) (skipWaitingCalls w) (claims w)).
Hypothesis J_tasks : forall w t, J w -> In t (detached w) -> task_holds T t.
Hypothesis J_take : forall w,
  J w -> J (mkWorld (caches w) (fetches w) (console w) [] (replies w) (broadcasts w)
                    (skipWaitingCalls w) (claims w)).
Hypothesis J_skipWaiting : forall w,
  J w -> J (mkWorld (caches w) (fetches w) (console w) (detached w) (replies w) (broadcasts w)
                    (S (skipWaitingCalls w)) (claims w)).
Hypothesis J_claim : forall w,
  J w -> J (mkWorld (caches w) (fetches w) (console w) (detached w) (replies w) (broadcasts w)
                    (skipWaitingCalls w) (S (claims w))).
Hypothesis J_broadcast : forall w c m,
  J w -> J (mkWorld (caches w) (fetches w) (console w) (detached w) (replies w)
                    (broadcasts w ++ [(c, m)]) (skipWaitingCalls w) (claims w)).
Hypothesis J_reply : forall w p r,
  J w -> J (mkWorld (caches w) (fetches w) (console w) (detached w) (replies w ++ [(p, r)])
                    (broadcasts w) (skipWaitingCalls w) (claims w)).

Lemma inv_same {A} (m : M A) : (forall w, snd (m w) = w) -> keeps J m (fun _ => True).
Proof.
  intros Hm w Hw. rewrite Hm. split; [exact Hw | now destruct (fst (m w))].
Qed.

Lemma inv_console_write (l : Level) (a : list string) :
  l = ERROR \/ isDevelopment env = true -> keeps J (console_write l a) (fun _ => True).
Proof. intros Hl w Hw. simpl. split; [now apply J_console | exact I]. Qed.

Lemma inv_logger_log (a : list string) : keeps J (logger_log env a) (fun _ => True).
Proof.
  unfold logger_log. case_eq (isDevelopment env); intros E.
  - apply inv_console_write. now right.
  - now apply keeps_ret.
Qed.

Lemma inv_logger_warn (a : list string) : keeps J (logger_warn env a) (fun _ => True).
Proof.
  unfold logger_warn. case_eq (isDevelopment env); intros E.
  - apply inv_console_write. now right.
  - now apply keeps_ret.
Qed.

Lemma inv_logger_debug (a : list string) : keeps J (logger_debug env a) (fun _ => True).
Proof.
  unfold logger_debug. case_eq (isDevelopment env); intros E.
  - apply inv_console_write. now right.
  - now apply keeps_ret.
Qed.

Lemma inv_logger_error (a : list string) : keeps J (logger_error a) (fun _ => True).
Proof. apply inv_console_write. now left. Qed.

Lemma inv_fetch_settled (u : string) : keeps J (fetch_settled env u) (fun _ => True).
Proof. intros w Hw. simpl. split; [now apply J_fetches | exact I]. Qed.

Lemma inv_fetch_request (u : string) : keeps J (fetch_request env u) (fun _ => True).
Proof.
  intros w Hw. unfold fetch_request, fetch_settled, bind.
  destruct (network env (fetches w) u); simpl; (split; [now apply J_fetches | exact I]).
Qed.

Lemma inv_fetch (u : string) : keeps J (fetch env u) (fun _ => True).
Proof. apply keeps_with_url. intros key _. apply inv_fetch_request. Qed.

Lemma inv_caches_keys : keeps J (caches_keys env) (fun _ => True).
Proof.
  apply inv_same. intros w. unfold caches_keys, cache_api. now destruct (cacheApiOk env).
Qed.

Lemma inv_caches_match_request (u : string) :
  keeps J (caches_match_request env u) (fun _ => True).
Proof.
  apply inv_same. intros w. unfold caches_match_request, cache_api.
  now destruct (cacheApiOk env).
Qed.

Lemma inv_caches_match (u : string) : keeps J (caches_match env u) (fun _ => True).
Proof. apply keeps_with_url. intros key _. apply inv_caches_match_request. Qed.

Lemma inv_caches_open (name : string) : keeps J (caches_open env name) (fun _ => True).
Proof.
  intros w Hw. unfold caches_open, cache_api.
  destruct (cacheApiOk env); simpl; (split; [|exact I]); [now apply J_open | exact Hw].
Qed.

Lemma inv_caches_delete (name : string) : keeps J (caches_delete env name) (fun _ => True).
Proof.
  intros w Hw. unfold caches_delete, cache_api.
  destruct (cacheApiOk env); simpl; (split; [|exact I]); [now apply J_delete | exact Hw].
Qed.

Lemma inv_cache_put_request (cache key : string) (r : Response) :
  T r -> keeps J (cache_put_request env cache key r) (fun _ => True).
Proof.
  intros Hr w Hw. unfold cache_put_request, cache_api.
  destruct (cacheApiOk env); simpl; [|now split].
  destruct (status r =? 206)%N eqn:Hs; simpl; (split; [|exact I]); [exact Hw|].
  now apply J_put.
Qed.

Lemma inv_cache_put (cache u : string) (r : Response) :
  T r -> keeps J (cache_put env cache u r) (fun _ => True).
Proof. intros Hr. apply keeps_with_url. intros key _. now apply inv_cache_put_request. Qed.

Lemma inv_store_all (cache : string) (answers : list (string * FetchResult)) (w : World) :
  J w -> J (with_caches (store_all env cache answers) w).
Proof.
  revert w. induction answers as [|[u fr] answers IH]; intros w Hw.
  - destruct w; exact Hw.
  - change (with_caches (store_all env cache ((u, fr) :: answers)) w)
      with (with_caches (store_all env cache answers)
              (with_caches (fun st => store env cache st (u, fr)) w)).
    apply IH. unfold store. cbn [fst snd].
    destruct (cacheable fr) as [r|] eqn:Hc.
    + destruct (cacheable_status fr r Hc) as (_ & Hok & Hs). apply J_put; auto.
    + destruct w; exact Hw.
Qed.

Lemma inv_cache_addAll (cache : string) (urls : list string) :
  keeps J (cache_addAll env cache urls) (fun _ => True).
Proof.
  intros w Hw. destruct (cacheApiOk env) eqn:api.
  - destruct (forallb (parses env) urls) eqn:Hparse.
    + rewrite (cache_addAll_run env api) by exact Hparse. cbv zeta.
      assert (Hadv : J (advance (length urls) w)) by (unfold advance; now apply J_fetches).
      destruct (all_cacheable (settle_all env (fetches w) urls)); simpl;
        (split; [|exact I]); [|exact Hadv].
      now apply inv_store_all.
    + unfold cache_addAll, cache_api. rewrite api, Hparse. simpl. now split.
  - unfold cache_addAll, cache_api. rewrite api. simpl. now split.
Qed.

Lemma inv_cache_add (cache u : string) : keeps J (cache_add env cache u) (fun _ => True).
Proof. apply inv_cache_addAll. Qed.

Lemma inv_skipWaiting : keeps J skipWaiting (fun _ => True).
Proof. intros w Hw. simpl. split; [now apply J_skipWaiting | exact I]. Qed.

Lemma inv_clients_claim : keeps J clients_claim (fun _ => True).
Proof. intros w Hw. simpl. split; [now apply J_claim | exact I]. Qed.

Lemma inv_client_postMessage (c : nat) (m : Activated) :
  keeps J (client_postMessage c m) (fun _ => True).
Proof. intros w Hw. simpl. split; [now apply J_broadcast | exact I]. Qed.

Lemma inv_reply_on (ps : list nat) (r : Reply) : keeps J (reply_on ps r) (fun _ => True).
Proof.
  intros w Hw. destruct ps as [|p ps]; simpl; (split; [|exact I]);
    [exact Hw | now apply J_reply].
Qed.

Lemma inv_detach (t : Task) : task_holds T t -> keeps J (detach t) (fun _ => True).
Proof. intros Ht w Hw. simpl. split; [now apply J_detach | exact I]. Qed.

Lemma inv_detach_put (cache key : string) (r : Response) :
  ok r = true -> keeps J (detach (TPut cache key r)) (fun _ => True).
Proof. intros H. apply inv_detach. simpl. now apply T_ok. Qed.

Lemma status_200_ok (r : Response) (b : bool) :
  (status r =? 200)%N && b = true -> ok r = true.
Proof.
  intros H. apply andb_true_iff in H as [H _]. apply N.eqb_eq in H.
  unfold ok. now rewrite H.
Qed.

Lemma inv_detach_open_put (key : string) (r : Response) (b : bool) :
  (status r =? 200)%N && b = true -> keeps J (detach (TOpenPut key r)) (fun _ => True).
Proof. intros H. apply inv_detach. simpl. apply T_ok. eapply status_200_ok, H. Qed.

Lemma inv_detach_dynamic (key : string) (r : Response) (b : bool) :
  (status r =? 200)%N && b = true -> keeps J (detach (TCacheDynamic key r)) (fun _ => True).
Proof. intros H. apply inv_detach. simpl. apply T_ok. eapply status_200_ok, H. Qed.

Lemma inv_detach_revalidate (key : string) :
  keeps J (detach (TRevalidate key)) (fun _ => True).
Proof. now apply inv_detach. Qed.

Lemma inv_detach_shell : keeps J (detach TRevalidateShell) (fun _ => True).
Proof. now apply inv_detach. Qed.

Lemma inv_put_200 (cache key : string) (r : Response) (b : bool) :
  (status r =? 200)%N && b = true ->
  keeps J (cache_put_request env cache key r) (fun _ => True).
Proof. intros H. apply inv_cache_put_request, T_ok. eapply status_200_ok, H. Qed.

#[local] Hint Resolve inv_console_write inv_logger_log inv_logger_warn inv_logger_debug
  inv_logger_error inv_fetch_settled inv_fetch_request inv_fetch inv_caches_keys
  inv_caches_match_request inv_caches_match inv_caches_open inv_caches_delete
  inv_cache_put_request inv_cache_put inv_cache_addAll inv_cache_add inv_skipWaiting
  inv_clients_claim inv_client_postMessage inv_reply_on inv_detach_put inv_detach_open_put
  inv_detach_dynamic inv_detach_revalidate inv_detach_shell inv_put_200 T_ok : inv.

Lemma inv_run_task (t : Task) : task_holds T t -> keeps J (run_task env t) (fun _ => True).
Proof.
  intros Ht. destruct t as [key r | key r | cache key r | | key]; simpl in Ht;
    unfold run_task, swallow; repeat inv_step.
Qed.

Lemma inv_take_detached :
  keeps J take_detached (fun tasks => forall t, In t tasks -> task_holds T t).
Proof.
  intros w Hw. simpl. split; [now apply J_take|]. intros t Ht. now apply (J_tasks w).
Qed.

Lemma inv_drain : keeps J (drain env) (fun _ => True).
Proof.
  unfold drain. eapply keeps_bind; [apply inv_take_detached|]. intros tasks Htasks.
  apply keeps_for_each. intros t Ht. apply inv_run_task. now apply Htasks.
Qed.

Lemma inv_passthrough_file (req : Request) :
  keeps J (passthrough_file env req) (fun _ => True).
Proof. unfold passthrough_file. repeat inv_step. Qed.

Lemma inv_dev_navigate (req : Request) : keeps J (dev_navigate env req) (fun _ => True).
Proof. unfold dev_navigate. repeat inv_step. Qed.

Lemma inv_favicon_file (req : Request) : keeps J (favicon_file env req) (fun _ => True).
Proof. unfold favicon_file. repeat inv_step. Qed.

#[local] Hint Resolve inv_passthrough_file inv_dev_navigate inv_favicon_file : inv.

Lemma inv_dev_asset (req : Request) : keeps J (dev_asset env req) (fun _ => True).
Proof. unfold dev_asset. repeat inv_step. Qed.

Lemma inv_production_manifest : keeps J (production_manifest env) (fun _ => True).
Proof. unfold production_manifest. repeat inv_step. Qed.

Lemma inv_production_navigate : keeps J (production_navigate env) (fun _ => True).
Proof. unfold production_navigate, or_else. repeat inv_step. Qed.

Lemma inv_production_asset (req : Request) :
  keeps J (production_asset env req) (fun _ => True).
Proof. unfold production_asset. repeat inv_step. Qed.

#[local] Hint Resolve inv_dev_asset inv_production_manifest inv_production_navigate
  inv_production_asset : inv.

Lemma inv_production_respond (req : Request) :
  keeps J (production_respond env req) (fun _ => True).
Proof. unfold production_respond. cbv zeta. repeat inv_step. Qed.

#[local] Hint Resolve inv_production_respond : inv.

Lemma inv_fetch_handler (req : Request) : keeps J (fetch_handler env req) (fun _ => True).
Proof. unfold fetch_handler. cbv zeta. repeat inv_step. Qed.

Lemma inv_fetch_event (req : Request) : keeps J (fetch_event env req) (fun _ => True).
Proof.
  unfold fetch_event. eapply keeps_bind; [apply inv_fetch_handler|]. intros answer _.
  eapply keeps_bind; [apply inv_drain|]. intros _ _. now apply keeps_ret.
Qed.

Lemma inv_getAppCaches : keeps J (getAppCaches env) (fun _ => True).
Proof. unfold getAppCaches. repeat inv_step. Qed.

Lemma inv_currentCacheExists : keeps J (currentCacheExists env) (fun _ => True).
Proof. unfold currentCacheExists. repeat inv_step. Qed.

#[local] Hint Resolve inv_getAppCaches inv_currentCacheExists : inv.

Lemma inv_cleanupOldCaches : keeps J (cleanupOldCaches env) (fun _ => True).
Proof.
  unfold cleanupOldCaches. apply keeps_bind with (Q := fun _ => True); [auto with inv|].
  intros appCaches _. cbv zeta. apply keeps_map_each. intros name _. repeat inv_step.
Qed.

Lemma inv_forceCacheUpdate : keeps J (forceCacheUpdate env) (fun _ => True).
Proof. unfold forceCacheUpdate. repeat inv_step. Qed.

#[local] Hint Resolve inv_cleanupOldCaches inv_forceCacheUpdate : inv.

Lemma inv_message_handler (ev : MessageEvent) :
  keeps J (message_handler env ev) (fun _ => True).
Proof.
  unfold message_handler, on_CLEAR_CACHE, on_CLEAR_APP_CACHE, on_FORCE_UPDATE,
    on_GET_CACHE_INFO.
  repeat first [ apply keeps_map_each; intros ? _ | inv_step ].
Qed.

Lemma inv_activate_handler : keeps J (activate_handler env) (fun _ => True).
Proof.
  unfold activate_handler.
  repeat first [ apply keeps_for_each; intros ? _ | inv_step ].
Qed.

Lemma inv_cache_static_assets (cache : string) :
  keeps J (cache_static_assets env cache) (fun _ => True).
Proof.
  unfold cache_static_assets. generalize STATIC_CACHE_URLS. intros urls.
  repeat first [ apply keeps_for_each; intros ? _ | inv_step ].
Qed.

Lemma inv_discover : keeps J (discover env) (fun _ => True).
Proof.
  intros w Hw. unfold discover.
  destruct (inv_fetch "/index.html" w Hw) as [Hi _].
  destruct (fetch env "/index.html" w) as [[r|e] w1]; cbn [snd] in Hi.
  - destruct (ok r); [|now split].
    destruct (discovered_assets (text_of r)) as [urls [e|]].
    + assert (H : keeps J (bind (logger_log env
                 ["Could not extract assets from index.html, will cache dynamically:"; e])
                 (fun _ => ret urls)) (fun _ => True)) by repeat inv_step.
      exact (H w1 Hi).
    + assert (H : keeps J (bind (logger_log env ("Found additional assets to cache:" :: urls))
                 (fun _ => ret urls)) (fun _ => True)) by repeat inv_step.
      exact (H w1 Hi).
  - assert (H : keeps J (bind (logger_log env
               ["Could not extract assets from index.html, will cache dynamically:"; e])
               (fun _ => ret (@nil string))) (fun _ => True)) by repeat inv_step.
    exact (H w1 Hi).
Qed.

Lemma inv_cache_additional (cache : string) (urls : list string) :
  keeps J (cache_additional env cache urls) (fun _ => True).
Proof.
  unfold cache_additional. apply keeps_for_each. intros u _. repeat inv_step.
Qed.

Lemma inv_cache_main_page (cache : string) :
  keeps J (cache_main_page env cache) (fun _ => True).
Proof. unfold cache_main_page. repeat inv_step. Qed.

Lemma inv_cache_manifest (cache : string) :
  keeps J (cache_manifest env cache) (fun _ => True).
Proof. unfold cache_manifest. repeat inv_step. Qed.

#[local] Hint Resolve inv_cache_static_assets inv_discover inv_cache_additional
  inv_cache_main_page inv_cache_manifest : inv.

Lemma inv_install_handler : keeps J (install_handler env) (fun _ => True).
Proof. unfold install_handler, install_body, install_rest. repeat inv_step. Qed.

Lemma inv_handle (e : Event) : keeps J (handle env e) (fun _ => True).
Proof.
  destruct e as [| | req | ev]; simpl.
  - apply inv_install_handler.
  - apply inv_activate_handler.
  - apply keeps_bind with (Q := fun _ => True); [apply inv_fetch_event|].
    intros _ _. now apply keeps_ret.
  - apply inv_message_handler.
Qed.

Lemma inv_run_events (es : list Event) (w : World) : J w -> J (run_events env es w).
Proof.
  revert w. induction es as [|e es IH]; intros w Hw; simpl; [exact Hw|].
  apply IH. now apply (inv_handle e w).
Qed.

End StateInvariants.

(** ** Only successful responses are stored *)

Section SuccessfulFacts.
Import Sw SwState.

Lemma stored_open (T : Response -> Prop) (name : string)
    (st : list (string * gmap string Response)) :
  stored T st -> stored T (storage_open name st).
Proof.
  unfold storage_open, stored. intros H n c key r Hin Hlook.
  destruct (storage_has name st); [eauto|].
  apply in_app_or in Hin as [Hin | [[= <- <-] | []]]; [eauto|].
  rewrite lookup_empty in Hlook. discriminate.
Qed.

Lemma stored_delete (T : Response -> Prop) (name : string)
    (st : list (string * gmap string Response)) :
  stored T st -> stored T (storage_delete name st).
Proof.
  unfold storage_delete, stored. intros H n c key r Hin Hlook.
  apply filter_In in Hin as [Hin _]. eauto.
Qed.

Lemma stored_put (T : Response -> Prop) (cache key : string) (r : Response)
    (st : list (string * gmap string Response)) :
  T r -> stored T st -> stored T (storage_put cache key r st).
Proof.
  unfold stored. intros Hr. induction st as [|[n c] st IH]; simpl; intros H; [exact H|].
  destruct (String.eqb cache n).
  - intros n' c' key' r' [[= <- <-] | Hin] Hlook.
    + destruct (decide (key = key')) as [<- | Hne].
      * rewrite lookup_insert_eq in Hlook. now injection Hlook as <-.
      * rewrite lookup_insert_ne in Hlook by exact Hne.
        apply (H n c key' r'); [now left | exact Hlook].
    + apply (H n' c' key' r'); [now right | exact Hlook].
  - intros n' c' key' r' [[= <- <-] | Hin] Hlook.
    + apply (H n c key' r'); [now left | exact Hlook].
    + apply (IH (fun n0 c0 k0 r0 Hin0 => H n0 c0 k0 r0 (or_intror Hin0)) n' c' key' r' Hin Hlook).
Qed.

(** X1. Whatever the events the worker handles, in whatever order and
    environment, it never puts a response into a cache that is not
    successful: every cached response has a status from 200 to 299 other
    than 206, provided the caches held no other to begin with. *)
Theorem stored_responses_successful (env : Env) (es : list Event) (w : World) :
  only_successful w -> only_successful (run_events env es w).
Proof.
  apply (inv_run_events env only_successful (fun r => ok r = true)); unfold only_successful.
  - auto.
  - intros w0 n H. exact H.
  - intros w0 l a _ H. exact H.
  - intros w0 name [Hc Hd]. split; [now apply stored_open | exact Hd].
  - intros w0 name [Hc Hd]. split; [now apply stored_delete | exact Hd].
  - intros w0 cache key r Hr Hs [Hc Hd]. split; [|exact Hd].
    apply stored_put; [now split | exact Hc].
  - intros w0 t Ht [Hc Hd]. split; [exact Hc|]. cbn [detached].
    intros t' Hin. apply in_app_or in Hin as [Hin | [<- | []]]; auto.
  - intros w0 t [Hc Hd] Hin. now apply Hd.
  - intros w0 [Hc Hd]. split; [exact Hc | intros t []].
  - intros w0 H. exact H.
  - intros w0 H. exact H.
  - intros w0 c m H. exact H.
  - intros w0 p r H. exact H.
Qed.

End SuccessfulFacts.

(** ** The console in production *)

Section ConsoleFacts.
Import Sw SwState.

(** X2. In production the worker writes nothing but errors to the console,
    whatever events it handles. *)
Theorem production_console_errors_only (env : Env) (es : list Event) (w : World) :
  isDevelopment env = false ->
  only_errors w -> only_errors (run_events env es w).
Proof.
  intros Hprod.
  apply (inv_run_events env only_errors (fun _ => True)); unfold only_errors; auto.
  - intros w0 l a [-> | Hdev] H; [|congruence]. cbn [console].
    apply Forall_app. split; [exact H|]. now constructor.
  - intros; now destruct t.
Qed.

End ConsoleFacts.

(** ** Requests never evict *)

Section RetainFacts.
Import Sw SwState.

Lemma storage_lookup_app_present (name : string) (c : gmap string Response)
    (st st' : list (string * gmap string Response)) :
  storage_lookup name st = Some c -> storage_lookup name (st ++ st') = Some c.
Proof.
  induction st as [|[n c0] st IH]; simpl; [discriminate|].
  destruct (String.eqb name n); [tauto | exact IH].
Qed.

Lemma storage_has_open_other (name name' : string) (st : list (string * gmap string Response)) :
  storage_has name st = true -> storage_has name (storage_open name' st) = true.
Proof.
  unfold storage_open. destruct (storage_has name' st); [tauto|].
  unfold storage_has, storage_keys. rewrite map_app, existsb_app. intros ->. reflexivity.
Qed.

Lemma entry_open (name name' key : string) (st : list (string * gmap string Response)) :
  entry name key st <> None -> entry name key (storage_open name' st) = entry name key st.
Proof.
  unfold storage_open, entry. destruct (storage_has name' st); [reflexivity|].
  destruct (storage_lookup name st) as [c|] eqn:E; [|congruence].
  now rewrite (storage_lookup_app_present name c st _ E).
Qed.

Lemma entry_put_present (name cache key key' : string) (r : Response)
    (st : list (string * gmap string Response)) :
  entry name key st <> None -> entry name key (storage_put cache key' r st) <> None.
Proof.
  unfold entry. induction st as [|[n c] st IH]; simpl; [tauto|].
  destruct (String.eqb cache n) eqn:Ec; simpl.
  - destruct (String.eqb name n); [|tauto].
    destruct (decide (key' = key)) as [-> | Hne].
    + rewrite lookup_insert_eq. discriminate.
    + now rewrite lookup_insert_ne.
  - destruct (String.eqb name n); [tauto | exact IH].
Qed.

(** X3. Handling a request never deletes a cache and never removes an entry:
    every cache that exists before a fetch event exists after it and its
    background writes, and every key that held a response still holds
    one, the same or a newer. *)
Theorem fetch_event_retains (env : Env) (req : Request) (w : World) :
  retains (caches w) (snd (fetch_event env req w)).
Proof.
  apply (inv_fetch_event env (retains (caches w)) (fun _ => True)); unfold retains; auto.
  - intros w0 name [Hn He]. split.
    + intros n Hn0. apply storage_has_open_other. auto.
    + intros n key H. cbn [caches with_caches]. rewrite entry_open; auto.
  - intros w0 cache key r _ _ [Hn He]. split.
    + intros n Hn0. cbn [caches with_caches]. rewrite storage_has_put. auto.
    + intros n key' H. apply entry_put_present. auto.
  - intros; now destruct t.
Qed.

End RetainFacts.

(** ** Requests are always answered *)

Section AnswerFacts.
Import Sw SwState.
Variable env : Env.

Lemma safe_fetch_answer (m : M Response) :
  safe m -> forall w, exists r w', respondWith m w = (Ok (Respond r), w').
Proof.
  intros Hm w. unfold respondWith. destruct (Hm w) as (r & w' & ->). now exists r, w'.
Qed.

Lemma safe_passthrough_file (req : Request) : safe (passthrough_file env req).
Proof. apply safe_try_catch. intros e. apply safe_ret. Qed.

Lemma safe_dev_navigate (req : Request) : safe (dev_navigate env req).
Proof. apply safe_try_catch. intros e. apply safe_ret. Qed.

Lemma safe_dev_asset (req : Request) : safe (dev_asset env req).
Proof. apply safe_try_catch. intros e. apply safe_ret. Qed.

Lemma safe_production_respond (req : Request) : safe (production_respond env req).
Proof.
  apply safe_try_catch. intros e. apply safe_bind; [apply safe_logger_error | intros _].
  apply safe_try_catch. intros e'. apply safe_bind; [apply safe_logger_error | intros _].
  apply safe_ret.
Qed.

Lemma safe_swallow (m : M unit) : safe (swallow m).
Proof. apply safe_try_catch. intros e. apply safe_ret. Qed.

Lemma safe_run_task (t : Task) : safe (run_task env t).
Proof.
  destruct t; simpl; try apply safe_swallow.
  apply safe_try_catch. intros e. apply safe_logger_debug.
Qed.

Lemma safe_drain : safe (drain env).
Proof.
  unfold drain. apply safe_bind.
  - intros w. now eexists _, _.
  - intros tasks. apply safe_for_each. apply safe_run_task.
Qed.

(** X4. The worker never lets a request fail: whatever the network and the
    Cache API do, the fetch handler either leaves the request to the
    browser or answers it with a response; it never hands [respondWith] a
    promise that rejects, and the writes it starts in the background never
    throw either. *)
Theorem fetch_event_always_answers (req : Request) (w : World) :
  exists answer w',
    fetch_event env req w = (Ok answer, w')
    /\ (answer = PassThrough \/ exists r, answer = Respond r).
Proof.
  assert (Hh : exists answer w1,
             fetch_handler env req w = (Ok answer, w1)
             /\ (answer = PassThrough \/ exists r, answer = Respond r)).
  { unfold fetch_handler. cbv zeta.
    repeat match goal with
    | |- context [if ?b then _ else _] => destruct b
    end;
    try (eexists _, _; split; [reflexivity | now left]);
    match goal with
    | |- context [respondWith ?m w] =>
        let H := fresh in
        assert (H : safe m)
          by first [ apply safe_passthrough_file | apply safe_dev_navigate
                   | apply safe_dev_asset | apply safe_production_respond ];
        destruct (safe_fetch_answer m H w) as (r & w1 & ->);
        exists (Respond r), w1; split; [reflexivity | right; now exists r]
    end. }
  destruct Hh as (answer & w1 & Hrun & Hans).
  unfold fetch_event, bind. rewrite Hrun.
  destruct (safe_drain w1) as ([] & w' & ->).
  exists answer, w'. split; [reflexivity | exact Hans].
Qed.

End AnswerFacts.

(** ** Reasoning about the outcome of a computation *)

Section TripleFacts.
Import Sw SwState.

Lemma triple_ret {A} (a : A) (Post : A -> World -> Prop) (Exc : string -> World -> Prop) :
  triple (Post a) (ret a) Post Exc.
Proof. intros w Hw. exact Hw. Qed.

Lemma triple_bind {A B} (Pre : World -> Prop) (m : M A) (k : A -> M B)
    (Mid : A -> World -> Prop) (Post : B -> World -> Prop) (Exc : string -> World -> Prop) :
  triple Pre m Mid Exc -> (forall a, triple (Mid a) (k a) Post Exc) ->
  triple Pre (bind m k) Post Exc.
Proof.
  intros Hm Hk w Hw. unfold bind. specialize (Hm w Hw).
  destruct (m w) as [[a|e] w1]; [now apply Hk | exact Hm].
Qed.

Lemma triple_try_catch {A} (Pre : World -> Prop) (m : M A) (h : string -> M A)
    (Post : A -> World -> Prop) (Mid Exc : string -> World -> Prop) :
  triple Pre m Post Mid -> (forall e, triple (Mid e) (h e) Post Exc) ->
  triple Pre (try_catch m h) Post Exc.
Proof.
  intros Hm Hh w Hw. unfold try_catch. specialize (Hm w Hw).
  destruct (m w) as [[a|e] w1]; [exact Hm | now apply Hh].
Qed.

Lemma triple_weaken {A} (Pre Pre' : World -> Prop) (m : M A)
    (Post Post' : A -> World -> Prop) (Exc Exc' : string -> World -> Prop) :
  triple Pre m Post Exc ->
  (forall w, Pre' w -> Pre w) -> (forall a w, Post a w -> Post' a w) ->
  (forall e w, Exc e w -> Exc' e w) ->
  triple Pre' m Post' Exc'.
Proof.
  intros Hm Hpre Hpost Hexc w Hw. specialize (Hm w (Hpre w Hw)).
  destruct (m w) as [[a|e] w1]; auto.
Qed.

(** A computation that keeps an invariant ends in it, however it ends. *)
Lemma triple_keeps {A} (J : World -> Prop) (m : M A) :
  keeps J m (fun _ => True) -> triple J m (fun _ => J) (fun _ => J).
Proof.
  intros Hm w Hw. destruct (Hm w Hw) as [Hi _].
  destruct (m w) as [[a|e] w1]; exact Hi.
Qed.

Lemma triple_safe {A} (Pre : World -> Prop) (m : M A) (Post : A -> World -> Prop) :
  triple Pre m Post (fun _ _ => False) ->
  forall w, Pre w -> exists a w', m w = (Ok a, w') /\ Post a w'.
Proof.
  intros Hm w Hw. specialize (Hm w Hw).
  destruct (m w) as [[a|e] w1]; [now exists a, w1 | contradiction].
Qed.

Lemma triple_absurd {A} (m : M A) (Post : A -> World -> Prop) (Exc : string -> World -> Prop) :
  triple (fun _ => False) m Post Exc.
Proof. intros w []. Qed.

End TripleFacts.

(** ** What the cache work leaves alone

    Logging, requests and cache operations change nothing of what a handler
    shows of itself: replies, broadcasts, the calls of [skipWaiting] and
    [clients.claim], and the pending writes. *)

Section ControlFacts.
Import Sw SwState.
Variable env : Env.

Lemma calm_keeps {A} (m : M A) :
  (forall shown, keeps (unchanged shown) m (fun _ => True)) -> calm m.
Proof. intros H shown. apply triple_keeps, H. Qed.

Lemma calm_logger_log (a : list string) : calm (logger_log env a).
Proof. apply calm_keeps. intros shown. apply (inv_logger_log env). now intros. Qed.

Lemma calm_logger_error (a : list string) : calm (logger_error a).
Proof. apply calm_keeps. intros shown. apply (inv_logger_error env). now intros. Qed.

Lemma calm_caches_keys : calm (caches_keys env).
Proof. apply calm_keeps. intros shown. apply inv_caches_keys. Qed.

Lemma calm_caches_open (name : string) : calm (caches_open env name).
Proof. apply calm_keeps. intros shown. apply (inv_caches_open env). now intros. Qed.

Lemma calm_delete_each (names : list string) : calm (map_each names (caches_delete env)).
Proof.
  apply calm_keeps. intros shown. apply keeps_map_each. intros name _.
  apply (inv_caches_delete env). now intros.
Qed.

Lemma calm_getAppCaches : calm (getAppCaches env).
Proof. apply calm_keeps. intros shown. apply inv_getAppCaches. Qed.

Lemma calm_currentCacheExists : calm (currentCacheExists env).
Proof. apply calm_keeps. intros shown. apply inv_currentCacheExists. Qed.

Lemma calm_cleanupOldCaches : calm (cleanupOldCaches env).
Proof. apply calm_keeps. intros shown. apply (inv_cleanupOldCaches env); now intros. Qed.

Lemma calm_forceCacheUpdate : calm (forceCacheUpdate env).
Proof.
  apply calm_keeps. intros shown.
  apply (inv_forceCacheUpdate env _ (fun _ => True)); now intros.
Qed.

Lemma calm_cache_static_assets (cache : string) : calm (cache_static_assets env cache).
Proof.
  apply calm_keeps. intros shown.
  apply (inv_cache_static_assets env _ (fun _ => True)); now intros.
Qed.

Lemma calm_discover : calm (discover env).
Proof. apply calm_keeps. intros shown. apply (inv_discover env); now intros. Qed.

Lemma calm_cache_additional (cache : string) (urls : list string) :
  calm (cache_additional env cache urls).
Proof.
  apply calm_keeps. intros shown.
  apply (inv_cache_additional env _ (fun _ => True)); now intros.
Qed.

Lemma calm_cache_main_page (cache : string) : calm (cache_main_page env cache).
Proof.
  apply calm_keeps. intros shown.
  apply (inv_cache_main_page env _ (fun _ => True)); now intros.
Qed.

Lemma calm_cache_manifest (cache : string) : calm (cache_manifest env cache).
Proof.
  apply calm_keeps. intros shown.
  apply (inv_cache_manifest env _ (fun _ => True)); now intros.
Qed.

(** A calm computation that cannot throw. *)
Lemma calm_safe {A} (m : M A) (shown : _) (Exc : string -> World -> Prop) :
  calm m -> safe m -> triple (unchanged shown) m (fun _ => unchanged shown) Exc.
Proof.
  intros Hc Hs w Hw. specialize (Hc shown w Hw). destruct (Hs w) as (a & w' & E).
  rewrite E in *. exact Hc.
Qed.

(** A calm step, then the rest. *)
Lemma calm_then {A B} (m : M A) (k : A -> M B) (shown : _) (Post : B -> World -> Prop) :
  calm m ->
  (forall a, triple (unchanged shown) (k a) Post (fun _ => unchanged shown)) ->
  triple (unchanged shown) (bind m k) Post (fun _ => unchanged shown).
Proof. intros Hm Hk. eapply triple_bind; [apply Hm | exact Hk]. Qed.

Lemma safe_then {A B} (m : M A) (k : A -> M B) (shown : _) (Post : B -> World -> Prop)
    (Exc : string -> World -> Prop) :
  calm m -> safe m ->
  (forall a, triple (unchanged shown) (k a) Post Exc) ->
  triple (unchanged shown) (bind m k) Post Exc.
Proof. intros Hm Hs Hk. eapply triple_bind; [now apply calm_safe | exact Hk]. Qed.

End ControlFacts.

Ltac calm_step lemma := eapply triple_bind; [apply lemma | intros ?].

(** ** Every command is answered once *)

Section ReplyFacts.
Import Sw SwState.
Variable env : Env.
Lemma reply_on_answers (w : World) (p : nat) (ps : list nat) (r : Reply)
    (Exc : string -> World -> Prop) :
  triple (unchanged (control w)) (reply_on (p :: ps) r) (fun _ => answered w p) Exc.
Proof.
  intros w1 H. unfold unchanged, control in H. injection H as Hd Hr Hb Hs Hc.
  cbn. unfold answered. cbn. rewrite Hr. eauto 10.
Qed.

Lemma safe_reply_on (ps : list nat) (r : Reply) : safe (reply_on ps r).
Proof. destruct ps; [apply safe_ret | apply safe_modify]. Qed.

Lemma failure_answers (note : list string) (error : string) (w : World) (p : nat)
    (ps : list nat) :
  triple (unchanged (control w))
    (bind (logger_error note) (fun _ => reply_on (p :: ps) (ReplyError false error)))
    (fun _ => answered w p) (fun _ _ => False).
Proof.
  apply safe_then; [apply (calm_logger_error env) | apply safe_logger_error|].
  intros _. apply reply_on_answers.
Qed.

Lemma cache_api_rejects_keys (w : World) :
  cacheApiOk env = false -> exists error, getAppCaches env w = (Throw error, w).
Proof.
  intros H. unfold getAppCaches, caches_keys, cache_api, bind. rewrite H. now eexists.
Qed.

Lemma on_CLEAR_CACHE_answers (ev : MessageEvent) (w : World) (p : nat) (ps : list nat) :
  ports ev = p :: ps ->
  triple (unchanged (control w)) (on_CLEAR_CACHE env ev) (fun _ => answered w p)
    (fun _ _ => False).
Proof.
  intros Hp. unfold on_CLEAR_CACHE. rewrite Hp.
  apply triple_try_catch with (Mid := fun _ => unchanged (control w));
    [|intros e; apply failure_answers].
  calm_step calm_caches_keys. calm_step calm_delete_each. calm_step calm_logger_log.
  apply reply_on_answers.
Qed.

Lemma on_CLEAR_APP_CACHE_answers (ev : MessageEvent) (w : World) (p : nat) (ps : list nat) :
  ports ev = p :: ps ->
  triple (unchanged (control w)) (on_CLEAR_APP_CACHE env ev) (fun _ => answered w p)
    (fun _ _ => False).
Proof.
  intros Hp. unfold on_CLEAR_APP_CACHE. rewrite Hp.
  apply triple_try_catch with (Mid := fun _ => unchanged (control w));
    [|intros e; apply failure_answers].
  calm_step calm_getAppCaches. calm_step calm_delete_each. calm_step calm_logger_log.
  apply reply_on_answers.
Qed.

Lemma on_FORCE_UPDATE_answers (ev : MessageEvent) (w : World) (p : nat) (ps : list nat) :
  ports ev = p :: ps ->
  triple (unchanged (control w)) (on_FORCE_UPDATE env ev) (fun _ => answered w p)
    (fun _ _ => False).
Proof.
  intros Hp. unfold on_FORCE_UPDATE. rewrite Hp.
  apply triple_try_catch with (Mid := fun _ => unchanged (control w));
    [|intros e; apply failure_answers].
  calm_step calm_forceCacheUpdate. calm_step calm_cleanupOldCaches.
  calm_step calm_logger_log. apply reply_on_answers.
Qed.

Lemma on_GET_CACHE_INFO_answers (ev : MessageEvent) (w : World) (p : nat) (ps : list nat) :
  ports ev = p :: ps ->
  triple (unchanged (control w)) (on_GET_CACHE_INFO env ev) (fun _ => answered w p)
    (fun _ _ => False).
Proof.
  intros Hp. unfold on_GET_CACHE_INFO. rewrite Hp.
  apply triple_try_catch with (Mid := fun _ => unchanged (control w));
    [|intros e; apply failure_answers].
  calm_step calm_getAppCaches. calm_step calm_currentCacheExists. apply reply_on_answers.
Qed.

Lemma command_answers (w : World) (type : string) (pl : option string) (p : nat)
    (ps : list nat) :
  In type ["CLEAR_CACHE"; "CLEAR_APP_CACHE"; "FORCE_UPDATE"; "GET_CACHE_INFO"] ->
  exists reply w',
    message_handler env
      {| data := Some {| mtype := Some type; payload := pl |}; ports := p :: ps |} w
    = (Ok tt, w')
    /\ replies w' = replies w ++ [(p, reply)]
    /\ detached w' = detached w /\ broadcasts w' = broadcasts w
    /\ skipWaitingCalls w' = skipWaitingCalls w /\ claims w' = claims w.
Proof.
  intros Htype.
  set (ev := {| data := Some {| mtype := Some type; payload := pl |}; ports := p :: ps |}).
  assert (H : triple (unchanged (control w)) (message_handler env ev)
                (fun _ => answered w p) (fun _ _ => False)).
  { unfold message_handler.
    apply safe_then; [apply calm_logger_log | apply safe_logger_log | intros _].
    cbn [data ev mtype].
    destruct Htype as [<- | [<- | [<- | [<- | []]]]]; cbn [String.eqb Ascii.eqb Bool.eqb].
    - apply (on_CLEAR_CACHE_answers ev w p ps eq_refl).
    - apply (on_CLEAR_APP_CACHE_answers ev w p ps eq_refl).
    - apply (on_FORCE_UPDATE_answers ev w p ps eq_refl).
    - apply (on_GET_CACHE_INFO_answers ev w p ps eq_refl). }
  destruct (triple_safe _ _ _ H w eq_refl) as ([] & w' & Hrun & (reply & Hr) & Hrest).
  exists reply, w'. split; [exact Hrun|]. split; [exact Hr | exact Hrest].
Qed.

(** X5. Each of the four cache commands posts exactly one reply on the port it
    came with, whatever the Cache API and the network do while it is
    carried out, and the handler never throws. Nothing else the worker
    shows of itself changes: no broadcast, no call of [skipWaiting] or
    [clients.claim], no pending write. *)
Theorem command_replies_once (w : World) (type : string) (pl : option string)
    (p : nat) (ps : list nat) :
  In type ["CLEAR_CACHE"; "CLEAR_APP_CACHE"; "FORCE_UPDATE"; "GET_CACHE_INFO"] ->
  exists reply w',
    message_handler env
      {| data := Some {| mtype := Some type; payload := pl |}; ports := p :: ps |} w
    = (Ok tt, w')
    /\ replies w' = replies w ++ [(p, reply)]
    /\ detached w' = detached w /\ broadcasts w' = broadcasts w
    /\ skipWaitingCalls w' = skipWaitingCalls w /\ claims w' = claims w.
Proof. apply command_answers. Qed.

Lemma cache_api_rejects {A} (m : M A) (w : World) :
  cacheApiOk env = false -> exists error, cache_api env m w = (Throw error, w).
Proof. intros H. unfold cache_api. rewrite H. now eexists. Qed.

(** X6. When the Cache API rejects (as it does in some private browsing
    modes), each of the four cache commands answers [success: false] with
    the error and does nothing else: no request is issued and no cache
    changes. *)
Theorem command_fails_without_cache_api (w : World) (type : string) (pl : option string)
    (p : nat) (ps : list nat) :
  cacheApiOk env = false ->
  In type ["CLEAR_CACHE"; "CLEAR_APP_CACHE"; "FORCE_UPDATE"; "GET_CACHE_INFO"] ->
  exists error w',
    message_handler env
      {| data := Some {| mtype := Some type; payload := pl |}; ports := p :: ps |} w
    = (Ok tt, w')
    /\ replies w' = replies w ++ [(p, ReplyError false error)]
    /\ caches w' = caches w /\ fetches w' = fetches w.
Proof.
  intros Hapi Htype. exists "The operation is insecure.".
  unfold message_handler, on_CLEAR_CACHE, on_CLEAR_APP_CACHE, on_FORCE_UPDATE,
    on_GET_CACHE_INFO, forceCacheUpdate, getAppCaches, caches_keys, caches_delete, cache_api,
    logger_log, logger_error, console_write.
  rewrite Hapi. monad_unfold. cbn [data mtype ports reply_on].
  destruct Htype as [<- | [<- | [<- | [<- | []]]]]; cbn [String.eqb Ascii.eqb Bool.eqb];
    destruct (isDevelopment env); eexists; (split; [reflexivity|]); cbn; auto.
Qed.

(** X7. Messages that are no cache command. [SKIP_WAITING] calls
    [skipWaiting] once and is not answered, even when it comes with a
    port. A message whose type is the empty string or is not one of the
    five known types is not answered either and changes nothing but, in
    development, the console. *)
Theorem other_messages_are_not_answered (w : World) (pl : option string) (ps : list nat) :
  (exists w',
      message_handler env
        {| data := Some {| mtype := Some "SKIP_WAITING"; payload := pl |}; ports := ps |} w
      = (Ok tt, w')
      /\ skipWaitingCalls w' = S (skipWaitingCalls w)
      /\ replies w' = replies w /\ caches w' = caches w /\ fetches w' = fetches w
      /\ claims w' = claims w /\ broadcasts w' = broadcasts w)
  /\ (forall type,
        existsb (String.eqb type)
          ["SKIP_WAITING"; "CLEAR_CACHE"; "CLEAR_APP_CACHE"; "FORCE_UPDATE"; "GET_CACHE_INFO"]
        = false ->
        exists w',
          message_handler env
            {| data := Some {| mtype := Some type; payload := pl |}; ports := ps |} w
          = (Ok tt, w')
          /\ caches w' = caches w /\ quiet w w').
Proof.
  split.
  - unfold message_handler, logger_log, console_write. monad_unfold.
    destruct (isDevelopment env); eexists; (split; [reflexivity|]); cbn; auto 10.
  - intros type Hother. cbn [existsb] in Hother.
    repeat (apply orb_false_iff in Hother as [? Hother]).
    unfold message_handler, logger_log, logger_warn, console_write. monad_unfold.
    cbn [data mtype].
    repeat match goal with H : String.eqb type _ = false |- _ => rewrite H; clear H end.
    destruct (isDevelopment env), (String.eqb type "");
      eexists; (split; [reflexivity|]); cbn; (split; [reflexivity | now unfold quiet]).
Qed.

End ReplyFacts.

(** ** Activation and installation *)

Section LifecycleFacts.
Import Sw SwState.
Variable env : Env.

Lemma skipWaiting_counts (d : list Task) (rs : list (nat * Reply)) (b : list (nat * Activated))
    (s c : nat) (Exc : string -> World -> Prop) :
  triple (unchanged (d, rs, b, s, c)) skipWaiting (fun _ => unchanged (d, rs, b, S s, c)) Exc.
Proof.
  intros w H. unfold unchanged, control in *. injection H as <- <- <- <- <-. reflexivity.
Qed.

Lemma clients_claim_counts (d : list Task) (rs : list (nat * Reply))
    (b : list (nat * Activated)) (s c : nat) (Exc : string -> World -> Prop) :
  triple (unchanged (d, rs, b, s, c)) clients_claim (fun _ => unchanged (d, rs, b, s, S c)) Exc.
Proof.
  intros w H. unfold unchanged, control in *. injection H as <- <- <- <- <-. reflexivity.
Qed.

Lemma postMessage_each (message : Activated) (cs : list nat) (d : list Task)
    (rs : list (nat * Reply)) (b : list (nat * Activated)) (s c : nat)
    (Exc : string -> World -> Prop) :
  triple (unchanged (d, rs, b, s, c))
    (for_each cs (fun client => client_postMessage client message))
    (fun _ => unchanged (d, rs, b ++ map (fun client => (client, message)) cs, s, c)) Exc.
Proof.
  revert b. induction cs as [|client cs IH]; intros b; cbn [for_each map].
  - rewrite app_nil_r. intros w H. exact H.
  - eapply triple_bind with (Mid := fun _ => unchanged (d, rs, b ++ [(client, message)], s, c)).
    + intros w H. unfold unchanged, control in *. injection H as <- <- <- <- <-. reflexivity.
    + intros _. specialize (IH (b ++ [(client, message)])).
      now rewrite <- app_assoc in IH.
Qed.

(** X8. Activation claims the clients exactly once, whether the cache cleanup
    succeeds or throws, and the handler never throws. When the Cache API
    works every client is then told, once and in order, which version took
    over; when it rejects no client is told. *)
Theorem activate_claims_once (w : World) :
  exists w',
    activate_handler env w = (Ok tt, w')
    /\ claims w' = S (claims w)
    /\ broadcasts w'
       = broadcasts w
         ++ (if cacheApiOk env
             then map (fun client =>
                         (client, {| sw_version := CACHE_VERSION env;
                                     sw_cacheName := CACHE_NAME env;
                                     sw_isDevelopment := isDevelopment env |}))
                    (clients env)
             else [])
    /\ replies w' = replies w /\ skipWaitingCalls w' = skipWaitingCalls w
    /\ detached w' = detached w.
Proof.
  set (told := if cacheApiOk env then _ else _).
  assert (H : triple (unchanged (control w)) (activate_handler env)
                (fun _ => unchanged (detached w, replies w, broadcasts w ++ told,
                                     skipWaitingCalls w, S (claims w)))
                (fun _ _ => False)).
  { unfold activate_handler.
    apply safe_then; [apply calm_logger_log | apply safe_logger_log | intros _].
    destruct (cacheApiOk env) eqn:api; subst told.
    - apply triple_try_catch with (Mid := fun _ _ => False); [|intros e; apply triple_absurd].
      apply safe_then;
        [apply calm_cleanupOldCaches | now apply safe_cleanupOldCaches | intros _].
      apply safe_then; [apply calm_getAppCaches | | intros appCaches].
      { intros w0. rewrite (getAppCaches_run env api). now eexists _, _. }
      apply safe_then; [apply calm_logger_log | apply safe_logger_log | intros _].
      eapply triple_bind; [apply clients_claim_counts | intros ?].
      eapply triple_bind; [apply postMessage_each | intros ?].
      apply calm_safe; [apply calm_logger_log | apply safe_logger_log].
    - apply triple_try_catch with (Mid := fun _ => unchanged (control w)).
      + eapply triple_bind with (Mid := fun _ _ => False); [|intros bs; apply triple_absurd].
        intros w0 H0. unfold cleanupOldCaches, bind.
        destruct (cache_api_rejects_keys env w0 api) as (e & ->). exact H0.
      + intros e. rewrite app_nil_r.
        apply safe_then; [apply (calm_logger_error env) | apply safe_logger_error | intros _].
        apply triple_try_catch with (Mid := fun _ _ => False); [|intros e'; apply triple_absurd].
        apply clients_claim_counts. }
  destruct (triple_safe _ _ _ H w eq_refl) as ([] & w' & Hrun & Hshown).
  unfold unchanged, control in Hshown. injection Hshown as Hd Hr Hb Hs Hc.
  exists w'. auto 10.
Qed.

(** X9. Installation never waits and never fails: [skipWaiting] is called once
    in development and twice in production (before the cache is built and
    after it, or in the error handler when building it throws), and the
    handler never throws. It shows nothing else of itself, and in
    development it neither requests nor caches anything. *)
Theorem install_skips_waiting (w : World) :
  exists w',
    install_handler env w = (Ok tt, w')
    /\ skipWaitingCalls w' = (if isDevelopment env then 1 else 2) + skipWaitingCalls w
    /\ replies w' = replies w /\ broadcasts w' = broadcasts w /\ claims w' = claims w
    /\ detached w' = detached w
    /\ (isDevelopment env = true -> caches w' = caches w /\ fetches w' = fetches w).
Proof.
  assert (H : triple (unchanged (control w)) (install_handler env)
                (fun _ => unchanged (detached w, replies w, broadcasts w,
                                     (if isDevelopment env then 1 else 2) + skipWaitingCalls w,
                                     claims w))
                (fun _ _ => False)).
  { unfold install_handler.
    apply safe_then; [apply calm_logger_log | apply safe_logger_log | intros _].
    apply safe_then; [apply calm_logger_log | apply safe_logger_log | intros _].
    destruct (isDevelopment env); [apply skipWaiting_counts|].
    eapply triple_bind; [apply skipWaiting_counts | intros ?].
    apply triple_try_catch
      with (Mid := fun _ => unchanged (detached w, replies w, broadcasts w,
                                       S (skipWaitingCalls w), claims w)).
    - unfold install_body, install_rest.
      calm_step calm_logger_log. calm_step calm_caches_open.
      calm_step calm_cache_static_assets. calm_step calm_discover.
      calm_step calm_cache_additional. calm_step calm_cache_main_page.
      calm_step calm_cache_manifest. calm_step calm_cleanupOldCaches.
      eapply triple_bind; [apply skipWaiting_counts | intros ?].
      apply calm_safe; [apply calm_logger_log | apply safe_logger_log].
    - intros e.
      apply safe_then; [apply (calm_logger_error env) | apply safe_logger_error | intros _].
      apply skipWaiting_counts. }
  destruct (triple_safe _ _ _ H w eq_refl) as ([] & w' & Hrun & Hshown).
  unfold unchanged, control in Hshown. injection Hshown as Hd Hr Hb Hs Hc.
  exists w'. repeat (split; [assumption|]).
  intros Hdev. revert Hrun. unfold install_handler, logger_log, console_write. rewrite Hdev.
  monad_unfold. cbn. intros [= <-]. now split.
Qed.

End LifecycleFacts.

(** ** What the clearing commands delete *)

Section ClearFacts.
Import Sw SwState.
Variable env : Env.

Lemma delete_all_filter (names : list string) (st : list (string * gmap string Response)) :
  delete_all names st
  = List.filter (fun nc => negb (existsb (String.eqb (fst nc)) names)) st.
Proof.
  unfold delete_all. revert st. induction names as [|n names IH]; intros st; cbn [fold_left].
  - cbn [existsb negb]. induction st as [|nc st IHst]; [reflexivity|].
    cbn [List.filter]. now rewrite <- IHst.
  - rewrite IH. unfold storage_delete. rewrite filter_filter.
    apply filter_ext_in'. intros nc _. cbn [existsb].
    rewrite negb_orb, (String.eqb_sym (fst nc) n). reflexivity.
Qed.

Lemma delete_all_keys (st : list (string * gmap string Response)) :
  delete_all (storage_keys st) st = [].
Proof.
  rewrite delete_all_filter. apply filter_none. intros nc Hin.
  apply negb_false_iff, existsb_eqb_In. unfold storage_keys. now apply in_map.
Qed.

Lemma delete_all_owned (st : list (string * gmap string Response)) :
  delete_all (owned env st) st
  = List.filter (fun nc => negb (JsString.startsWith (CACHE_PREFIX env) (fst nc))) st.
Proof.
  rewrite delete_all_filter. apply filter_ext_in'. intros nc Hin. f_equal.
  unfold owned. destruct (JsString.startsWith (CACHE_PREFIX env) (fst nc)) eqn:E.
  - apply existsb_eqb_In, filter_In. split; [|exact E].
    unfold storage_keys. now apply in_map.
  - destruct (existsb _ _) eqn:E'; [|reflexivity].
    apply existsb_eqb_In, filter_In in E'. destruct E' as [_ E']. congruence.
Qed.

Hypothesis api : cacheApiOk env = true.

Lemma message_run (ev : MessageEvent) (w : World) :
  exists w0,
    logger_log env ["Message received:"; describe (data ev)] w = (Ok tt, w0)
    /\ caches w0 = caches w /\ quiet w w0.
Proof. apply logger_log_run. Qed.

(** X10. [CLEAR_CACHE] deletes every cache of the origin, the application's or
    not, and replies with the number of caches there were. *)
Theorem clear_cache_empties_storage (w : World) (pl : option string) (p : nat)
    (ps : list nat) :
  exists w',
    message_handler env
      {| data := Some {| mtype := Some "CLEAR_CACHE"; payload := pl |}; ports := p :: ps |} w
    = (Ok tt, w')
    /\ caches w' = []
    /\ replies w' = replies w ++ [(p, ReplyCleared true (length (caches w)))].
Proof.
  unfold message_handler. unfold bind at 1.
  destruct (message_run {| data := Some {| mtype := Some "CLEAR_CACHE"; payload := pl |};
                           ports := p :: ps |} w) as (w0 & -> & Hc0 & Hq0).
  cbn [data mtype String.eqb Ascii.eqb Bool.eqb].
  unfold on_CLEAR_CACHE. unfold try_catch, bind at 1. rewrite (caches_keys_run env api).
  unfold bind at 1.
  destruct (delete_each_run env api (storage_keys (caches w0)) w0) as (bs & w1 & -> & Hc1 & Hq1).
  unfold bind.
  destruct (logger_log_run env ["All caches cleared successfully"] w1) as (w2 & -> & Hc2 & Hq2).
  eexists. split; [reflexivity|]. cbn [caches replies ports].
  split.
  - rewrite Hc2, Hc1. apply delete_all_keys.
  - destruct Hq0 as (_ & _ & Hr0 & _), Hq1 as (_ & _ & Hr1 & _), Hq2 as (_ & _ & Hr2 & _).
    rewrite Hr2, Hr1, Hr0. unfold storage_keys. rewrite length_map, Hc0. reflexivity.
Qed.

(** X11. [CLEAR_APP_CACHE] deletes the caches whose name starts with the
    application's prefix and no other: every other cache of the origin is
    left in place with its content, in the same order. *)
Theorem clear_app_cache_spares_others (w : World) (pl : option string) (p : nat)
    (ps : list nat) :
  exists w',
    message_handler env
      {| data := Some {| mtype := Some "CLEAR_APP_CACHE"; payload := pl |};
         ports := p :: ps |} w
    = (Ok tt, w')
    /\ caches w'
       = List.filter (fun nc => negb (JsString.startsWith (CACHE_PREFIX env) (fst nc)))
           (caches w).
Proof.
  set (ev := {| data := Some {| mtype := Some "CLEAR_APP_CACHE"; payload := pl |};
                ports := p :: ps |}).
  unfold message_handler. unfold bind at 1.
  destruct (message_run ev w) as (w0 & -> & Hc0 & Hq0).
  cbn [data ev mtype String.eqb Ascii.eqb Bool.eqb].
  destruct (on_CLEAR_APP_CACHE_run env api ev p ps w0 eq_refl) as (w' & Hrun & Hc & _).
  exists w'. split; [exact Hrun|]. rewrite Hc, Hc0. apply delete_all_owned.
Qed.

Lemma prefix_app (a b c : string) : String.prefix (a +:+ b) (a +:+ c) = String.prefix b c.
Proof.
  induction a as [|x a IH]; [reflexivity|].
  change (String.prefix (String x (a +:+ b)) (String x (a +:+ c)) = String.prefix b c).
  cbn [String.prefix]. destruct (Ascii.ascii_dec x x); [exact IH | contradiction].
Qed.

Lemma current_is_owned : JsString.startsWith (CACHE_PREFIX env) (CACHE_NAME env) = true.
Proof.
  unfold JsString.startsWith, CACHE_PREFIX, CACHE_NAME. rewrite prefix_app. cbn.
  now destruct (APP_VERSION env).
Qed.

(** X12. [GET_CACHE_INFO] only reads: no cache changes and no request is made.
    The report lists the caches whose name starts with the application's
    prefix, and its flag for the current cache is set exactly when the
    current cache is one of those listed. *)
Theorem cache_info_is_read_only (w : World) (pl : option string) (p : nat) (ps : list nat) :
  let appCaches := owned env (caches w) in
  exists w',
    message_handler env
      {| data := Some {| mtype := Some "GET_CACHE_INFO"; payload := pl |};
         ports := p :: ps |} w
    = (Ok tt, w')
    /\ caches w' = caches w /\ fetches w' = fetches w
    /\ replies w'
       = replies w
         ++ [(p, ReplyInfo true (CACHE_VERSION env) (CACHE_NAME env)
                   (existsb (String.eqb (CACHE_NAME env)) appCaches) appCaches
                   (isDevelopment env))].
Proof.
  cbv zeta.
  set (ev := {| data := Some {| mtype := Some "GET_CACHE_INFO"; payload := pl |};
                ports := p :: ps |}).
  unfold message_handler. unfold bind at 1.
  destruct (message_run ev w) as (w0 & -> & Hc0 & Hq0).
  cbn [data ev mtype String.eqb Ascii.eqb Bool.eqb].
  unfold on_GET_CACHE_INFO, currentCacheExists. unfold try_catch, bind.
  rewrite (getAppCaches_run env api), (caches_keys_run env api). cbn [ports reply_on ret modify].
  eexists. split; [reflexivity|]. cbn [caches fetches replies].
  destruct Hq0 as (Hf0 & _ & Hr0 & _).
  split; [exact Hc0|]. split; [exact Hf0|].
  rewrite Hr0, Hc0. do 4 f_equal.
  destruct (existsb (String.eqb (CACHE_NAME env)) (storage_keys (caches w))) eqn:E; symmetry.
  - apply existsb_eqb_In, filter_In. split; [now apply existsb_eqb_In | apply current_is_owned].
  - destruct (existsb _ (owned _ _)) eqn:E'; [|reflexivity].
    apply existsb_eqb_In, filter_In in E'. destruct E' as [E' _].
    apply existsb_eqb_In in E'. congruence.
Qed.

End ClearFacts.

(** ** Requests answered from the network only *)

Section NetworkOnlyFacts.
Import Sw SwState.
Variable env : Env.

Lemma favicon_file_run (req : Request) (w : World) :
  favicon_file env req w
  = (Ok match network env (fetches w) (url req) with
        | Resolved response => response
        | Rejected _ => not_found_icon
        end,
     advance 1 w).
Proof.
  unfold favicon_file, fetch_request, fetch_settled. monad_unfold.
  now destruct (network env (fetches w) (url req)).
Qed.

(** X13. Take a GET request whose URL starts with the worker's origin and
    whose path is neither /robots.txt nor /sitemap.xml, and whose URL
    contains favicon.ico or favicon.svg; in development suppose also that
    the URL matches no exclusion pattern and that the request is no
    navigation. The answer is the network's response whatever its status,
    and an empty 404 'Not Found' when the request fails. Exactly one request
    is made, no cache is read or written and nothing is left pending. In
    production navigations are included. *)
Theorem favicon_is_network_only (req : Request) (w : World) :
  method req = "GET" ->
  JsString.startsWith (origin env) (url req) = true ->
  is_passthrough_path (Url.pathname (url req)) = false ->
  is_favicon req = true ->
  (if isDevelopment env
   then existsb (fun pattern => Regex.test pattern (url req)) DEV_EXCLUDE_PATTERNS = false
        /\ String.eqb (mode req) "navigate" = false
   else True) ->
  fetch_handler env req w
  = (Ok (Respond match network env (fetches w) (url req) with
                 | Resolved response => response
                 | Rejected _ =>
                     {| status := 404; statusText := "Not Found"; type := DefaultType;
                        body := BodyNull; contentType := None |}
                 end),
     advance 1 w).
Proof.
  intros Hm Ho Hp Hf Hclass.
  unfold fetch_handler. rewrite Hm, String.eqb_refl, Ho. cbv zeta. cbn [negb]. rewrite Hp.
  destruct (isDevelopment env).
  - destruct Hclass as [Hskip Hnav]. rewrite Hskip, Hnav.
    unfold respondWith, dev_asset. rewrite Hf. unfold try_catch at 1.
    now rewrite favicon_file_run.
  - unfold respondWith, production_respond. cbv zeta. rewrite Hp, Hf.
    unfold try_catch at 1. now rewrite favicon_file_run.
Qed.

(** X14. In development, take a navigation that is a GET request whose URL
    starts with the worker's origin and whose path is neither /robots.txt
    nor /sitemap.xml, and whose URL matches no exclusion pattern. It is
    answered from the network and nowhere else: an ok response is passed on;
    a failed request or a response that is not ok is answered with the
    built-in offline page with status 503. One request is made and no cache
    is read or written. *)
Theorem dev_navigation_is_network_only (req : Request) (w : World) :
  isDevelopment env = true ->
  method req = "GET" ->
  JsString.startsWith (origin env) (url req) = true ->
  is_passthrough_path (Url.pathname (url req)) = false ->
  existsb (fun pattern => Regex.test pattern (url req)) DEV_EXCLUDE_PATTERNS = false ->
  mode req = "navigate" ->
  let offline_page :=
    {| status := 503; statusText := ""; type := DefaultType; body := DEV_OFFLINE_PAGE;
       contentType := Some "text/html" |} in
  fetch_handler env req w
  = (Ok (Respond match network env (fetches w) (url req) with
                 | Resolved response => if ok response then response else offline_page
                 | Rejected _ => offline_page
                 end),
     advance 1 w).
Proof.
  intros Hdev Hm Ho Hp Hskip Hnav offline_page.
  unfold fetch_handler. rewrite Hm, String.eqb_refl, Ho. cbv zeta. cbn [negb].
  rewrite Hp, Hdev, Hskip, Hnav, String.eqb_refl.
  unfold respondWith, dev_navigate, fetch_request, fetch_settled. monad_unfold.
  destruct (network env (fetches w) (url req)) as [r|e]; [destruct (ok r)|]; reflexivity.
Qed.


End NetworkOnlyFacts.

(** ** Assets cached on first use *)

Section DynamicFacts.
Import Sw SwState.
Variable env : Env.
Hypothesis api : cacheApiOk env = true.
Hypothesis production : isDevelopment env = false.




Lemma handled_in_production (req : Request) (w : World) :
  method req = "GET" ->
  JsString.startsWith (origin env) (url req) = true ->
  is_passthrough_path (Url.pathname (url req)) = false ->
  fetch_handler env req w = respondWith (production_respond env req) w.
Proof.
  intros Hm Ho Hp. unfold fetch_handler. rewrite Hm, String.eqb_refl, Ho. cbv zeta.
  cbn [negb]. now rewrite Hp, production.
Qed.






End DynamicFacts.

(** ** The first navigation and the manifest in production *)

Section FirstVisitFacts.
Import Sw SwState.
Variable env : Env.
Hypothesis api : cacheApiOk env = true.
Hypothesis production : isDevelopment env = false.

Lemma put_task_run (cache key : string) (r : Response) (w : World) :
  run_task env (TPut cache key r) w
  = (Ok tt, if (status r =? 206)%N then w else with_caches (storage_put cache key r) w).
Proof.
  unfold run_task, swallow, try_catch, cache_put_request. rewrite (cache_api_ok env api).
  unfold throw, modify, ret. now destruct (status r =? 206)%N.
Qed.

Lemma production_navigate_first (w : World) :
  shell_of env (caches w) = None ->
  production_navigate env w
  = match network env (fetches w) (resolve env "/index.html") with
    | Resolved r =>
        if ok r
        then (Ok r,
              mkWorld (storage_open (CACHE_NAME env) (caches w)) (S (fetches w)) (console w)
                (detached w ++ [TPut (CACHE_NAME env) (resolve env "/") r;
                                TPut (CACHE_NAME env) (resolve env "/index.html") r])
                (replies w) (broadcasts w) (skipWaitingCalls w) (claims w))
        else (Ok (new_Response NotCachedPage 200 "" (Some "text/html")),
              mkWorld (caches w) (S (fetches w))
                (console w ++ [{| level := ERROR;
                                  args := ["Critical: No cache available for navigation request"] |}])
                (detached w) (replies w) (broadcasts w) (skipWaitingCalls w) (claims w))
    | Rejected _ =>
        (Ok (new_Response NotCachedPage 200 "" (Some "text/html")),
         mkWorld (caches w) (S (fetches w))
           (console w ++ [{| level := ERROR;
                             args := ["Critical: No cache available for navigation request"] |}])
           (detached w) (replies w) (broadcasts w) (skipWaitingCalls w) (claims w))
    end.
Proof.
  unfold shell_of, production_navigate. intros Hshell.
  destruct (storage_match (resolve env "/index.html") (caches w)) eqn:Hindex; [discriminate|].
  plain_urls. unfold bind at 1. rewrite (caches_match_request_run env api), Hindex.
  unfold bind at 1, or_else. rewrite (caches_match_request_run env api), Hshell.
  unfold fetch_request, fetch_settled, caches_open, logger_warn, logger_log,
    logger_error, console_write, detach.
  rewrite (cache_api_ok env api), production. monad_unfold.
  destruct (network env (fetches w) (resolve env "/index.html")) as [r|e]; [|reflexivity].
  destruct (ok r); [|reflexivity]. unfold with_caches. cbn. now rewrite <- app_assoc.
Qed.

Lemma production_navigate_branch (req : Request) (w : World) :
  is_passthrough_path (Url.pathname (url req)) = false ->
  is_favicon req = false ->
  JsString.includes "manifest.json" (url req) = false ->
  mode req = "navigate" ->
  production_respond env req w
  = try_catch (production_navigate env)
      (fun cacheError =>
         bind (logger_error ["Cache operation failed:"; cacheError])
           (fun _ => try_catch (fetch_request env (url req))
                       (fun finalError =>
                          bind (logger_error ["All fallbacks failed for:"; url req])
                            (fun _ => ret service_unavailable)))) w.
Proof.
  intros Hp Hf Hman Hnav. unfold production_respond. cbv zeta.
  rewrite Hp, Hf, Hman, Hnav, String.eqb_refl.
  unfold try_catch, bind at 1, ret at 1. reflexivity.
Qed.

(** X16. In production with a usable Cache API, take a navigation that is a
    GET request whose URL starts with the worker's origin and whose path is
    neither /robots.txt nor /sitemap.xml, whose URL contains neither
    favicon.ico, favicon.svg nor manifest.json, when no cache holds
    /index.html or / and no background work is pending. The network is asked
    for /index.html. An ok response is the answer and, unless its status is
    206, is stored in the current cache under both / and /index.html. When
    the request fails or the response is not ok, the answer is the built-in
    page with status 200 and no cache changes. *)
Theorem first_navigation (req : Request) (w : World) :
  method req = "GET" ->
  JsString.startsWith (origin env) (url req) = true ->
  is_passthrough_path (Url.pathname (url req)) = false ->
  is_favicon req = false ->
  JsString.includes "manifest.json" (url req) = false ->
  mode req = "navigate" ->
  detached w = [] ->
  shell_of env (caches w) = None ->
  exists answer w',
    fetch_event env req w = (Ok (Respond answer), w')
    /\ let built_in := {| status := 200; statusText := ""; type := DefaultType;
                          body := NotCachedPage; contentType := Some "text/html" |} in
       match network env (fetches w) (resolve env "/index.html") with
       | Resolved r =>
           if ok r
           then answer = r
                /\ ((status r =? 206)%N = false ->
                    entry (CACHE_NAME env) (resolve env "/") (caches w') = Some r
                    /\ entry (CACHE_NAME env) (resolve env "/index.html") (caches w') = Some r)
           else answer = built_in /\ caches w' = caches w
       | Rejected _ => answer = built_in /\ caches w' = caches w
       end.
Proof.
  intros Hm Ho Hp Hf Hman Hnav Hd Hshell.
  unfold fetch_event. unfold bind at 1.
  rewrite (handled_in_production env production req w Hm Ho Hp). unfold respondWith.
  rewrite (production_navigate_branch req w Hp Hf Hman Hnav). unfold try_catch at 1.
  rewrite (production_navigate_first w Hshell), Hd. cbv zeta.
  destruct (network env (fetches w) (resolve env "/index.html")) as [r|e].
  - destruct (ok r).
    + unfold drain, take_detached. unfold bind at 1, bind at 1. cbn [detached app for_each].
      unfold bind at 1. rewrite put_task_run. unfold bind at 1. rewrite put_task_run.
      unfold bind, ret. eexists _, _. split; [reflexivity|]. split; [reflexivity|].
      intros Hs. rewrite Hs. cbn [caches with_caches].
      split.
      * rewrite entry_put_other
          by (intros H; apply (shell_keys_differ env); now symmetry).
        apply entry_put_same, storage_has_open.
      * apply entry_put_same. rewrite storage_has_put. apply storage_has_open.
    + eexists _, _. split; [reflexivity|]. split; reflexivity.
  - eexists _, _. split; [reflexivity|]. split; reflexivity.
Qed.

Lemma production_manifest_run (w : World) :
  production_manifest env w
  = match storage_match (resolve env "/manifest.json") (caches w) with
    | Some cached => (Ok (Some cached), w)
    | None =>
        match network env (fetches w) (resolve env "/manifest.json") with
        | Resolved r =>
            if ok r
            then (Ok (Some r),
                  mkWorld (storage_open (CACHE_NAME env) (caches w)) (S (fetches w))
                    (console w)
                    (detached w ++ [TPut (CACHE_NAME env) (resolve env "/manifest.json") r])
                    (replies w) (broadcasts w) (skipWaitingCalls w) (claims w))
            else (Ok None, advance 1 w)
        | Rejected e =>
            (Ok (Some (new_Response DefaultManifest 200 "" (Some "application/json"))),
             mkWorld (caches w) (S (fetches w))
               (console w ++ [{| level := ERROR;
                                 args := ["Failed to fetch manifest.json:"; e] |}])
               (detached w) (replies w) (broadcasts w) (skipWaitingCalls w) (claims w))
        end
    end.
Proof.
  unfold production_manifest. plain_urls. unfold bind at 1.
  rewrite (caches_match_request_run env api).
  destruct (storage_match (resolve env "/manifest.json") (caches w)) as [cached|].
  - rewrite (logger_log_production env _ production). now destruct w.
  - unfold fetch_request, fetch_settled, caches_open, logger_log, logger_error,
      console_write, detach.
    rewrite (cache_api_ok env api), production. monad_unfold.
    destruct (network env (fetches w) (resolve env "/manifest.json")) as [r|e]; [|reflexivity].
    destruct (ok r); reflexivity.
Qed.

(** X17. In production with a usable Cache API, take a GET request whose URL
    starts with the worker's origin and whose path is neither /robots.txt
    nor /sitemap.xml, whose URL contains manifest.json and neither
    favicon.ico nor favicon.svg, when no background work is pending. It is
    answered with the cached /manifest.json when some cache holds one, with
    no request made and no change of state. With none cached the network is
    asked for /manifest.json: an ok response is the answer and, unless its
    status is 206, is stored in the current cache; when the request fails
    the answer is the built-in default manifest with status 200 and no cache
    changes. *)
Theorem manifest_request (req : Request) (w : World) :
  method req = "GET" ->
  JsString.startsWith (origin env) (url req) = true ->
  is_passthrough_path (Url.pathname (url req)) = false ->
  is_favicon req = false ->
  JsString.includes "manifest.json" (url req) = true ->
  detached w = [] ->
  let key := resolve env "/manifest.json" in
  match storage_match key (caches w) with
  | Some cached =>
      fetch_event env req w = (Ok (Respond cached), w)
  | None =>
      match network env (fetches w) key with
      | Resolved r =>
          ok r = true ->
          exists w',
            fetch_event env req w = (Ok (Respond r), w')
            /\ ((status r =? 206)%N = false -> entry (CACHE_NAME env) key (caches w') = Some r)
      | Rejected _ =>
          exists w',
            fetch_event env req w
            = (Ok (Respond {| status := 200; statusText := ""; type := DefaultType;
                              body := DefaultManifest;
                              contentType := Some "application/json" |}), w')
            /\ caches w' = caches w
      end
  end.
Proof.
  intros Hm Ho Hp Hf Hman Hd key.
  assert (Hrun : fetch_event env req w
                 = match production_manifest env w with
                   | (Ok (Some r), w1) => bind (drain env) (fun _ => ret (Respond r)) w1
                   | _ => fetch_event env req w
                   end).
  { destruct (production_manifest env w) as [[[r|]|e] w1] eqn:E; try reflexivity.
    unfold fetch_event. unfold bind at 1.
    rewrite (handled_in_production env production req w Hm Ho Hp).
    unfold respondWith, production_respond. cbv zeta. rewrite Hp, Hf, Hman.
    unfold try_catch at 1, bind at 1. now rewrite E. }
  rewrite production_manifest_run in Hrun. fold key in Hrun.
  unfold drain, take_detached in Hrun.
  destruct (storage_match key (caches w)) as [cached|].
  - rewrite Hrun. unfold bind, ret. rewrite Hd. cbn.
    clear -Hd. destruct w. cbn in Hd. now subst.
  - destruct (network env (fetches w) key) as [r|e].
    + intros Hok. rewrite Hok, Hd in Hrun. rewrite Hrun.
      unfold bind at 1, bind at 1. cbn [detached app for_each].
      unfold bind at 1. rewrite put_task_run. unfold bind, ret.
      eexists. split; [reflexivity|]. intros Hs. rewrite Hs. cbn [caches with_caches].
      apply entry_put_same, storage_has_open.
    + rewrite Hd in Hrun. rewrite Hrun. unfold bind, ret. cbn.
      eexists. split; reflexivity.
Qed.

End FirstVisitFacts.

(** ** A rebuild that succeeds *)

Section RebuildFacts.
Import Sw SwState.
Variable env : Env.
Hypothesis api : cacheApiOk env = true.

Lemma storage_lookup_delete_other (name n : string) (st : list (string * gmap string Response)) :
  String.eqb n name = false ->
  storage_lookup name (storage_delete n st) = storage_lookup name st.
Proof.
  intros Hne. unfold storage_delete. induction st as [|[m c] st IH]; [reflexivity|].
  cbn [List.filter fst storage_lookup]. destruct (String.eqb n m) eqn:E; cbn [negb storage_lookup].
  - apply String.eqb_eq in E. subst m. rewrite String.eqb_sym, Hne. exact IH.
  - destruct (String.eqb name m); [reflexivity | exact IH].
Qed.

Lemma entry_delete_all_other (name key : string) (names : list string)
    (st : list (string * gmap string Response)) :
  ~ In name names -> entry name key (delete_all names st) = entry name key st.
Proof.
  unfold entry, delete_all. revert st. induction names as [|n names IH]; intros st Hnot.
  - reflexivity.
  - cbn [fold_left]. rewrite IH by (intros H; apply Hnot; now right).
    rewrite storage_lookup_delete_other; [reflexivity|].
    apply String.eqb_neq. intros ->. apply Hnot. now left.
Qed.

Lemma storage_keys_store_all (cache : string) (answers : list (string * FetchResult))
    (st : list (string * gmap string Response)) :
  storage_keys (store_all env cache answers st) = storage_keys st.
Proof.
  unfold store_all. revert st. induction answers as [|a answers IH]; intros st; [reflexivity|].
  cbn [fold_left]. rewrite IH. unfold store.
  destruct (cacheable (snd a)); [apply storage_keys_put | reflexivity].
Qed.

Lemma owned_reopened_length (st : list (string * gmap string Response)) :
  length (owned env (storage_open (CACHE_NAME env) (storage_delete (CACHE_NAME env) st)))
  <= S (length (owned env st)).
Proof.
  unfold storage_open. rewrite storage_has_delete. unfold owned, storage_keys.
  rewrite map_app, List.filter_app, length_app. cbn [map List.filter fst].
  assert (H : length (List.filter (fun name => JsString.startsWith (CACHE_PREFIX env) name)
                        (map fst (storage_delete (CACHE_NAME env) st)))
              <= length (List.filter (fun name => JsString.startsWith (CACHE_PREFIX env) name)
                           (map fst st))).
  { unfold storage_delete. induction st as [|[n c] st IH]; [reflexivity|].
    cbn [List.filter map fst].
    destruct (String.eqb (CACHE_NAME env) n); cbn [negb map fst List.filter];
      destruct (JsString.startsWith (CACHE_PREFIX env) n); cbn [length]; lia. }
  destruct (JsString.startsWith (CACHE_PREFIX env) (CACHE_NAME env)); cbn [length]; lia.
Qed.

Lemma current_survives_cleanup (appCaches : list string) :
  length appCaches <= MAX_CACHES -> ~ In (CACHE_NAME env) (cachesToDelete env appCaches).
Proof.
  intros Hlen. unfold cachesToDelete.
  assert (Hsorted : length (sort (by_version_descending env) appCaches) = length appCaches)
    by apply Permutation_length, sort_perm.
  rewrite Hsorted. apply Nat.ltb_ge in Hlen. rewrite Hlen. cbn [app].
  destruct (negb (isDevelopment env)); [|tauto].
  intros Hin. apply filter_In in Hin as [_ Hin]. now rewrite String.eqb_refl in Hin.
Qed.

Lemma force_update_run (w : World) (ev : MessageEvent) (pl : option string) (p : nat)
    (ps : list nat) :
  data ev = Some {| mtype := Some "FORCE_UPDATE"; payload := pl |} ->
  ports ev = p :: ps ->
  all_cacheable (settle_all env (fetches w) STATIC_CACHE_URLS) = true ->
  exists w',
    message_handler env ev w = (Ok tt, w')
    /\ replies w' = replies w ++ [(p, ReplyForced true (CACHE_VERSION env))]
    /\ caches w'
       = let rebuilt :=
           store_all env (CACHE_NAME env) (settle_all env (fetches w) STATIC_CACHE_URLS)
             (storage_open (CACHE_NAME env) (storage_delete (CACHE_NAME env) (caches w))) in
         delete_all (cachesToDelete env (owned env rebuilt)) rebuilt.
Proof.
  intros Hdata Hports. unfold message_handler, on_FORCE_UPDATE, forceCacheUpdate.
  pose proof (static_parses env) as Hparse. revert Hparse.
  generalize STATIC_CACHE_URLS. intros urls Hparse Hall.
  unfold bind at 1.
  destruct (message_run env ev w) as (w0 & -> & Hc0 & Hq0).
  rewrite Hdata. cbn [mtype String.eqb Ascii.eqb Bool.eqb].
  unfold try_catch, bind at 1, bind at 1.
  destruct (logger_log_run env ["Force updating cache..."] w0) as (w1 & -> & Hc1 & Hq1).
  unfold bind at 1. rewrite (caches_delete_run env api). unfold bind at 1.
  rewrite (caches_open_run env api), (cache_addAll_run env api) by exact Hparse. cbv zeta.
  assert (Hf : fetches w1 = fetches w).
  { destruct Hq0 as (H0 & _), Hq1 as (H1 & _). congruence. }
  cbn [fetches with_caches]. rewrite Hf, Hall.
  unfold bind at 1.
  match goal with |- context [cleanupOldCaches env ?w2] =>
    destruct (cleanupOldCaches_run env api w2) as (bs & w3 & -> & Hc3 & Hq3)
  end.
  unfold bind.
  destruct (logger_log_run env ["Cache force updated successfully"] w3)
    as (w4 & -> & Hc4 & Hq4).
  rewrite Hports. eexists. split; [reflexivity|]. cbn [caches replies].
  cbn [caches with_caches advance] in Hc3. rewrite Hc1, Hc0 in Hc3.
  split; [|now rewrite Hc4, Hc3].
  destruct Hq0 as (_ & _ & Hr0 & _), Hq1 as (_ & _ & Hr1 & _), Hq3 as (_ & _ & Hr3 & _),
    Hq4 as (_ & _ & Hr4 & _).
  cbn [replies with_caches advance] in Hr3. now rewrite Hr4, Hr3, Hr1, Hr0.
Qed.

(** X18. With a usable Cache API, [FORCE_UPDATE] when every static asset can
    be fetched and the application owns fewer than five caches: the reply is
    [success: true] with the cache version, and afterwards the current cache
    holds exactly the static asset list, each entry being the response just
    fetched. Whatever else the current cache held before is gone. *)
Theorem force_update_rebuilds (w : World) (pl : option string) (p : nat) (ps : list nat) :
  length (owned env (caches w)) < MAX_CACHES ->
  all_cacheable (settle_all env (fetches w) STATIC_CACHE_URLS) = true ->
  exists w',
    message_handler env
      {| data := Some {| mtype := Some "FORCE_UPDATE"; payload := pl |}; ports := p :: ps |} w
    = (Ok tt, w')
    /\ replies w' = replies w ++ [(p, ReplyForced true (CACHE_VERSION env))]
    /\ (forall u fr,
          In (u, fr) (settle_all env (fetches w) STATIC_CACHE_URLS) ->
          entry (CACHE_NAME env) (resolve env u) (caches w') = cacheable fr
          /\ cacheable fr <> None)
    /\ (forall key,
          ~ In key (map (resolve env) STATIC_CACHE_URLS) ->
          entry (CACHE_NAME env) key (caches w') = None).
Proof.
  intros Hfew Hall.
  destruct (force_update_run w
              {| data := Some {| mtype := Some "FORCE_UPDATE"; payload := pl |};
                 ports := p :: ps |} pl p ps eq_refl eq_refl Hall)
    as (w' & Hrun & Hr & Hc).
  exists w'. split; [exact Hrun|]. split; [exact Hr|]. cbv zeta in Hc.
  assert (Hdistinct := static_keys_distinct env).
  revert Hall Hc Hdistinct. generalize STATIC_CACHE_URLS. intros urls Hall Hc Hdistinct.
  assert (Hkeep : ~ In (CACHE_NAME env)
                      (cachesToDelete env
                         (owned env
                            (store_all env (CACHE_NAME env) (settle_all env (fetches w) urls)
                               (storage_open (CACHE_NAME env)
                                  (storage_delete (CACHE_NAME env) (caches w))))))).
  { apply current_survives_cleanup. unfold owned. rewrite storage_keys_store_all.
    pose proof (owned_reopened_length (caches w)) as H. unfold owned in H.
    unfold MAX_CACHES in *. unfold owned in Hfew. lia. }
  rewrite Hc. split.
  - intros u fr Hin. rewrite entry_delete_all_other by exact Hkeep.
    assert (Hsome : cacheable fr <> None).
    { unfold all_cacheable in Hall. rewrite forallb_forall in Hall.
      specialize (Hall (u, fr) Hin). cbn [snd] in Hall. now destruct (cacheable fr). }
    split; [|exact Hsome].
    rewrite (entry_store_all env (CACHE_NAME env) u fr (settle_all env (fetches w) urls)).
    + now destruct (cacheable fr).
    + now rewrite settle_all_keys.
    + apply storage_has_open.
    + exact Hin.
  - intros key Hnot. rewrite entry_delete_all_other by exact Hkeep.
    rewrite entry_store_other by now rewrite settle_all_keys.
    unfold entry. rewrite storage_lookup_reopened. apply lookup_empty.
Qed.

End RebuildFacts.

Example dotenv_examples :
  let env := DotEnv.loadEnvironmentVariables
               (fun name =>
                  if String.eqb name ".env"
                  then Some ("# build settings" +:+ String (ascii_of_nat 10)
                             ("VITE_APP_NAME = nuwault " +:+ String (ascii_of_nat 13)
                                (String (ascii_of_nat 10) "VITE_APP_KEY=a=b==")))
                  else None) ∅ in
  env !! "VITE_APP_NAME " = Some "nuwault"
  /\ env !! "VITE_APP_NAME" = None
  /\ env !! "VITE_APP_KEY" = Some "a=b=="
  /\ DotEnv.trim "  a b  " = "a b"
  /\ DotEnv.split "=" (JsString.chars "a==b") = map JsString.chars ["a"; ""; "b"]
  /\ DotEnv.split "=" [] = [[]].
Proof. vm_compute. repeat split. Qed.

(** ** Reading the environment files *)

Section DotEnvFacts.
Import DotEnv.

Lemma of_chars_chars (s : string) : JsString.of_chars (JsString.chars s) = s.
Proof. apply string_of_list_ascii_of_string. Qed.

Lemma chars_of_chars (l : list ascii) : JsString.chars (JsString.of_chars l) = l.
Proof. apply list_ascii_of_string_of_list_ascii. Qed.

Lemma trim_start_app (a b : list ascii) (c : ascii) :
  is_space c = false ->
  trim_start (a ++ c :: b)
  = match trim_start a with
    | [] => c :: b
    | y => y ++ c :: b
    end.
Proof.
  intros Hc. induction a as [|x a IH]; cbn [app trim_start].
  - now rewrite Hc.
  - destruct (is_space x); [exact IH | reflexivity].
Qed.

Lemma trim_start_snoc (a : list ascii) (c : ascii) :
  trim_start (a ++ [c])
  = match trim_start a with
    | [] => if is_space c then [] else [c]
    | y => y ++ [c]
    end.
Proof.
  induction a as [|x a IH]; cbn [app trim_start]; [reflexivity|].
  destruct (is_space x); [exact IH | reflexivity].
Qed.

Lemma trim_end_cons (c : ascii) (x : list ascii) :
  trim_end (c :: x)
  = match trim_end x with
    | [] => if is_space c then [] else [c]
    | y => c :: y
    end.
Proof.
  unfold trim_end. cbn [rev]. rewrite trim_start_snoc.
  destruct (trim_start (rev x)) as [|a l]; [now destruct (is_space c)|].
  rewrite rev_app_distr. cbn [rev app].
  destruct (rev l ++ [a]) eqn:E; [|reflexivity].
  now destruct (rev l).
Qed.

Lemma trim_end_app (a b : list ascii) (c : ascii) :
  is_space c = false -> trim_end (a ++ c :: b) = a ++ c :: trim_end b.
Proof.
  intros Hc. induction a as [|x a IH]; cbn [app].
  - rewrite trim_end_cons. destruct (trim_end b); [now rewrite Hc | reflexivity].
  - rewrite trim_end_cons, IH. now destruct a.
Qed.

Lemma trim_start_idem (x : list ascii) : trim_start (trim_start x) = trim_start x.
Proof.
  induction x as [|c x IH]; [reflexivity|]. cbn [trim_start].
  destruct (is_space c) eqn:E; [exact IH|]. cbn [trim_start]. now rewrite E.
Qed.

Lemma trim_end_idem (x : list ascii) : trim_end (trim_end x) = trim_end x.
Proof. unfold trim_end. now rewrite rev_involutive, trim_start_idem. Qed.

Lemma trim_commute (x : list ascii) : trim_start (trim_end x) = trim_end (trim_start x).
Proof.
  induction x as [|c x IH]; [reflexivity|].
  rewrite trim_end_cons. cbn [trim_start].
  destruct (is_space c) eqn:E.
  - rewrite <- IH. destruct (trim_end x); [reflexivity|]. cbn [trim_start]. now rewrite E.
  - rewrite trim_end_cons. destruct (trim_end x); cbn [trim_start]; now rewrite E.
Qed.

Lemma split_nonempty (sep : ascii) (s : list ascii) : split sep s <> [].
Proof.
  induction s as [|c s IH]; cbn [split]; [discriminate|].
  destruct (Ascii.eqb c sep); [discriminate|]. now destruct (split sep s).
Qed.

Lemma split_app (sep : ascii) (a b : list ascii) :
  forallb (fun c => negb (Ascii.eqb c sep)) a = true ->
  split sep (a ++ sep :: b) = a :: split sep b.
Proof.
  induction a as [|x a IH]; cbn [app split forallb]; intros H.
  - now rewrite Ascii.eqb_refl.
  - apply andb_true_iff in H as [Hx Ha]. apply negb_true_iff in Hx.
    now rewrite Hx, (IH Ha).
Qed.

Lemma split_without (sep : ascii) (a : list ascii) :
  forallb (fun c => negb (Ascii.eqb c sep)) a = true -> split sep a = [a].
Proof.
  induction a as [|x a IH]; cbn [split forallb]; intros H; [reflexivity|].
  apply andb_true_iff in H as [Hx Ha]. apply negb_true_iff in Hx.
  now rewrite Hx, (IH Ha).
Qed.

Lemma join_split (sep : ascii) (s : list ascii) : join sep (split sep s) = s.
Proof.
  induction s as [|c s IH]; [reflexivity|]. cbn [split].
  destruct (Ascii.eqb c sep) eqn:E.
  - apply Ascii.eqb_eq in E. subst c. cbn [join].
    destruct (split sep s) eqn:Es; [now apply split_nonempty in Es|].
    cbn [app]. now rewrite IH.
  - destruct (split sep s) as [|part parts] eqn:Es; [now apply split_nonempty in Es|].
    destruct parts; cbn [join] in *; cbn [app]; now rewrite IH.
Qed.

(** X19. A line [name=value] sets [name] to the trimmed [value], whatever
    [value] is: the equals signs it contains are kept, the white space
    around it (a carriage return left by a Windows line ending included)
    is dropped. The name is the text before the first equals sign as it
    stands, so white space between the name and the equals sign becomes
    part of the name. *)
Theorem assignment_keeps_value (env : gmap string string) (name value : string) :
  name <> "" ->
  JsString.startsWith "#" name = false ->
  trim_start (JsString.chars name) = JsString.chars name ->
  forallb (fun c => negb (Ascii.eqb c "=")) (JsString.chars name) = true ->
  parse_line env (name +:+ "=" +:+ value) = <[name := trim value]> env.
Proof.
  intros Hne Hhash Hstart Hnoeq.
  destruct name as [|n name]; [congruence|]. clear Hne.
  assert (Hn : is_space n = false).
  { cbn [JsString.chars list_ascii_of_string trim_start] in Hstart.
    destruct (is_space n); [|reflexivity]. exfalso.
    assert (Hlen : length (trim_start (list_ascii_of_string name))
                   <= length (list_ascii_of_string name)).
    { clear. induction (list_ascii_of_string name) as [|c l IH]; cbn [trim_start]; [lia|].
      destruct (is_space c); cbn [length]; lia. }
    rewrite Hstart in Hlen. cbn [length] in Hlen. lia. }
  assert (Htrim : trim (String n name +:+ "=" +:+ value)
                  = String n name +:+ "=" +:+ JsString.of_chars (trim_end (JsString.chars value))).
  { unfold trim. rewrite !chars_append.
    change (JsString.chars (String n name)) with (n :: JsString.chars name).
    cbn [app trim_start]. rewrite Hn.
    change (n :: JsString.chars name ++ JsString.chars "=" ++ JsString.chars value)
      with ((n :: JsString.chars name) ++ "="%char :: JsString.chars value).
    rewrite trim_end_app by reflexivity.
    rewrite <- (of_chars_chars (String n name +:+ "=" +:+ _)).
    rewrite !chars_append, chars_of_chars. reflexivity. }
  unfold parse_line. cbv zeta. rewrite Htrim.
  change (String n name +:+ "=" +:+ ?x) with (String n (name +:+ "=" +:+ x)).
  assert (Hhash' : JsString.startsWith "#" (String n (name +:+ "=" +:+
                      JsString.of_chars (trim_end (JsString.chars value)))) = false).
  { revert Hhash. unfold JsString.startsWith. cbn [String.prefix].
    destruct (Ascii.ascii_dec "#" n); [|reflexivity]. now destruct name. }
  rewrite Hhash'. cbn [String.eqb negb andb].
  change (String n (name +:+ "=" +:+ ?x)) with (String n name +:+ "=" +:+ x).
  rewrite !chars_append, chars_of_chars.
  change (JsString.chars "=" ++ ?x) with ("="%char :: x).
  rewrite split_app by exact Hnoeq.
  rewrite of_chars_chars. cbn [String.eqb negb andb].
  destruct (split "=" (trim_end (JsString.chars value))) as [|part parts] eqn:Es;
    [now apply split_nonempty in Es|].
  cbn [length Nat.ltb Nat.leb]. rewrite <- Es, join_split.
  f_equal. unfold trim. rewrite chars_of_chars.
  now rewrite <- trim_commute, trim_end_idem, trim_commute.
Qed.

Lemma parse_line_assigned (env : gmap string string) (line : string) :
  match assigned line with
  | Some name => exists value, forall e, parse_line e line = <[name := value]> e
  | None => parse_line env line = env
  end.
Proof.
  unfold assigned, parse_line. cbv zeta.
  destruct (negb (String.eqb (trim line) "") && negb (JsString.startsWith "#" (trim line)));
    [|reflexivity].
  destruct (split "=" (JsString.chars (trim line))) as [|key valueParts]; [reflexivity|].
  destruct (negb (String.eqb (JsString.of_chars key) "") && (0 <? length valueParts)%nat);
    [|reflexivity].
  now eexists.
Qed.

Lemma parse_line_other (env : gmap string string) (line name : string) :
  assigned line <> Some name -> parse_line env line !! name = env !! name.
Proof.
  intros Hother. pose proof (parse_line_assigned env line) as H.
  destruct (assigned line) as [n|]; [|now rewrite H].
  destruct H as (value & H). rewrite H. apply lookup_insert_ne. congruence.
Qed.

Lemma fold_no_assignment (ls : list string) (env : gmap string string) (name : string) :
  (forall line, In line ls -> assigned line <> Some name) ->
  fold_left parse_line ls env !! name = env !! name.
Proof.
  revert env. induction ls as [|l ls IH]; intros env Hnone; [reflexivity|].
  cbn [fold_left]. rewrite IH by (intros line Hin; apply Hnone; now right).
  apply parse_line_other. apply Hnone. now left.
Qed.

Lemma fold_assignment (ls : list string) (env env' : gmap string string) (name : string) :
  (exists line, In line ls /\ assigned line = Some name) ->
  fold_left parse_line ls env !! name = fold_left parse_line ls env' !! name.
Proof.
  revert env env'. induction ls as [|l ls IH]; intros env env' (line & Hin & Hline);
    [contradiction|].
  cbn [fold_left].
  destruct (existsb (fun line => match assigned line with
                                 | Some n => String.eqb n name
                                 | None => false
                                 end) ls) eqn:E.
  - apply IH. apply existsb_exists in E as (line' & Hin' & Hline').
    exists line'. split; [exact Hin'|].
    destruct (assigned line') as [n|]; [|discriminate].
    apply String.eqb_eq in Hline'. now subst.
  - assert (Hnone : forall line', In line' ls -> assigned line' <> Some name).
    { intros line' Hin' Hline'.
      assert (Hex : existsb (fun line => match assigned line with
                                         | Some n => String.eqb n name
                                         | None => false
                                         end) ls = true).
      { apply existsb_exists. exists line'. split; [exact Hin'|].
        rewrite Hline'. apply String.eqb_refl. }
      congruence. }
    rewrite !fold_no_assignment by exact Hnone.
    destruct Hin as [-> | Hin]; [|exfalso; now apply (Hnone line)].
    pose proof (parse_line_assigned env line) as H. rewrite Hline in H.
    destruct H as (value & H). now rewrite !H, !lookup_insert_eq.
Qed.

(** X20. The files are read in the order .env.development.local, .env.local,
    .env.development, .env, and each assignment overwrites: a name that
    some line of .env assigns ends with the value .env gives it, whatever
    the three files read before it contain and whatever the environment
    held. *)
Theorem last_file_wins (files files' : string -> option string)
    (env env' : gmap string string) (envContent name : string) :
  files ".env" = Some envContent ->
  files' ".env" = Some envContent ->
  (exists line, In line (lines envContent) /\ assigned line = Some name) ->
  loadEnvironmentVariables files env !! name = loadEnvironmentVariables files' env' !! name.
Proof.
  intros Hf Hf' Hline. unfold loadEnvironmentVariables, envFiles. cbn [fold_left].
  rewrite Hf, Hf'. now apply fold_assignment.
Qed.

Lemma includes_char (c : ascii) (s : string) :
  JsString.includes (String c "") s = false ->
  forallb (fun x => negb (Ascii.eqb x c)) (JsString.chars s) = true.
Proof.
  unfold JsString.chars. induction s as [|x s IH]; [reflexivity|].
  cbn [JsString.includes String.prefix list_ascii_of_string forallb].
  destruct (Ascii.ascii_dec c x) as [<- | Hne].
  - now destruct s.
  - cbn [orb]. intros H. rewrite (IH H), andb_true_r. apply negb_true_iff.
    apply Ascii.eqb_neq. congruence.
Qed.

Lemma not_assigned (line : string) :
  trim line = ""
  \/ JsString.startsWith "#" (trim line) = true
  \/ JsString.includes "=" (trim line) = false
  \/ JsString.startsWith "=" (trim line) = true ->
  assigned line = None.
Proof.
  unfold assigned. cbv zeta. intros [-> | [-> | [H | H]]]; [reflexivity | | |].
  - now rewrite andb_false_r.
  - rewrite (split_without _ _ (includes_char _ _ H)). cbn [length Nat.ltb Nat.leb].
    rewrite andb_false_r. now destruct (_ && _).
  - destruct (trim line) as [|c t]; [discriminate|].
    unfold JsString.startsWith in H. cbn [String.prefix] in H.
    destruct (Ascii.ascii_dec "=" c) as [<- | Hne]; [|discriminate].
    change (JsString.chars (String "=" t)) with ("="%char :: JsString.chars t).
    cbn [split Ascii.eqb Bool.eqb]. reflexivity.
Qed.

(** X21. A line that, once trimmed, is empty, starts with [#], holds no
    equals sign or starts with the equals sign sets nothing; files made
    of such lines, and files that do not exist, leave the environment as
    it was. *)
Theorem comments_set_nothing (files : string -> option string) (env : gmap string string) :
  (forall name envContent line,
     files name = Some envContent -> In line (lines envContent) ->
     trim line = ""
     \/ JsString.startsWith "#" (trim line) = true
     \/ JsString.includes "=" (trim line) = false
     \/ JsString.startsWith "=" (trim line) = true) ->
  loadEnvironmentVariables files env = env.
Proof.
  intros Hlines.
  assert (Hfile : forall name e,
             match files name with
             | Some envContent => fold_left parse_line (lines envContent) e
             | None => e
             end = e).
  { intros name e. destruct (files name) as [envContent|] eqn:Hf; [|reflexivity].
    assert (Hl : forall line, In line (lines envContent) -> assigned line = None).
    { intros line Hin. apply not_assigned. now apply (Hlines name envContent). }
    clear Hlines. induction (lines envContent) as [|l ls IH] in e, Hl |- *; [reflexivity|].
    cbn [fold_left].
    pose proof (parse_line_assigned e l) as H.
    rewrite Hl in H by now left.
    rewrite H. apply IH. intros line Hin. apply Hl. now right. }
  unfold loadEnvironmentVariables, envFiles. cbn [fold_left]. now rewrite !Hfile.
Qed.

End DotEnvFacts.

(** ** The build hash *)

Section BuildHashFacts.
Import SwGenerator.


Lemma hex_digit_is_hex (d : N) : is_hex (Sha256.hex_digit d) = true.
Proof.
  unfold Sha256.hex_digit.
  assert (Hall : forallb (fun k => is_hex (JsString.digit_char (N.of_nat k))) (seq 0 16) = true)
    by (vm_compute; reflexivity).
  rewrite forallb_forall in Hall.
  specialize (Hall (N.to_nat (d mod 16))). rewrite N2Nat.id in Hall. apply Hall.
  apply in_seq. assert (Hb : (d mod 16 < 16)%N) by (apply N.mod_upper_bound; discriminate).
  generalize dependent (d mod 16)%N. intros x _ Hb. lia.
Qed.

Lemma hex_bytes_are_hex (bs : list N) (k : string) :
  forallb is_hex (JsString.chars k) = true ->
  forallb is_hex (JsString.chars (fold_right Sha256.hex_byte k bs)) = true.
Proof.
  intros Hk. induction bs as [|b bs IH]; [exact Hk|].
  cbn [fold_right]. unfold Sha256.hex_byte at 1.
  cbn [JsString.chars list_ascii_of_string forallb].
  rewrite !hex_digit_is_hex. exact IH.
Qed.

Lemma forallb_chars_append (P : ascii -> bool) (a b : string) :
  forallb P (JsString.chars (a +:+ b))
  = forallb P (JsString.chars a) && forallb P (JsString.chars b).
Proof. now rewrite chars_append, forallb_app. Qed.

Lemma sha256_hex_is_hex (s : string) :
  forallb is_hex (JsString.chars (Sha256.sha256_hex s)) = true.
Proof.
  unfold Sha256.sha256_hex, Sha256.hex_state, Sha256.hex_word, Sha256.hex_bytes.
  rewrite !forallb_chars_append, !hex_bytes_are_hex; reflexivity.
Qed.

Lemma append_assoc (a b c : string) : (a +:+ b) +:+ c = a +:+ (b +:+ c).
Proof.
  induction a as [|x a IH]; [reflexivity|].
  change (String x ((a +:+ b) +:+ c) = String x (a +:+ (b +:+ c))). now rewrite IH.
Qed.

Lemma substring_forallb (P : ascii -> bool) (n : nat) (s : string) :
  forallb P (JsString.chars s) = true ->
  forallb P (JsString.chars (String.substring 0 n s)) = true.
Proof.
  revert s. induction n as [|n IH]; intros [|c s]; cbn; try reflexivity.
  intros H. apply andb_true_iff in H as [Hc Hs]. rewrite Hc. now apply IH.
Qed.

(** X22. Whatever the clock and the random source give, the build hash is
    eight lower-case hexadecimal digits, and the cache version is the
    application version, a hyphen, for the versions 0.0.0 and 1.0.0 the
    base-36 time and another hyphen, and the build hash; the environment
    variable NODE_ENV plays no part in it. *)
Theorem build_hash_is_hex (p : Process) (appVersion : string) (reads : nat) :
  let buildHash := fst (generateBuildHash p (S reads)) in
  String.length buildHash = 8
  /\ forallb is_hex (JsString.chars buildHash) = true
  /\ (exists middle,
        fst (generateCacheVersion p appVersion reads)
        = appVersion +:+ "-" +:+ middle +:+ buildHash)
  /\ forall nodeEnv,
       generateCacheVersion
         {| now := now p; randomBytes := randomBytes p; NODE_ENV := nodeEnv |} appVersion reads
       = generateCacheVersion p appVersion reads.
Proof.
  cbv zeta. split; [apply generateBuildHash_length|]. split.
  - unfold generateBuildHash, JsString.substring_to. cbn [fst].
    apply substring_forallb, sha256_hex_is_hex.
  - split; [|reflexivity].
    unfold generateCacheVersion, generateBuildHash. cbn [fst].
    destruct (negb (appVersion =? "0.0.0")%string && negb (appVersion =? "1.0.0")%string).
    + now exists "".
    + eexists (_ +:+ "-"). cbn [fst]. now rewrite append_assoc.
Qed.

End BuildHashFacts.

(** ** The assets install discovers *)

Section DiscoverFacts.
Import Sw.

Lemma includes_tail (sub : string) (c : ascii) (s : string) :
  JsString.includes sub s = true -> JsString.includes sub (String c s) = true.
Proof. intros H. cbn [JsString.includes]. rewrite H. apply orb_true_r. Qed.

Lemma includes_substring_from (sub : string) (n : nat) (s : string) :
  JsString.includes sub (JsString.substring_from n s) = true -> JsString.includes sub s = true.
Proof.
  revert s. induction n as [|n IH]; intros s; [tauto|].
  destruct s as [|c s]; [tauto|]. cbn [JsString.substring_from]. intros H.
  apply includes_tail. now apply IH.
Qed.

Lemma normalize_asset_path (src : string) :
  JsString.includes "://" src = false ->
  JsString.startsWith "/" (normalize_asset src) = true
  /\ JsString.includes "://" (normalize_asset src) = false.
Proof.
  intros Hsrc. unfold normalize_asset.
  destruct (JsString.startsWith "./" src) eqn:Hdot.
  - split.
    + unfold JsString.startsWith in *.
      destruct src as [|a src]; [discriminate|]. cbn [String.prefix] in Hdot.
      destruct (Ascii.ascii_dec "." a); [|discriminate].
      destruct src as [|b src]; [discriminate|]. cbn [String.prefix] in Hdot.
      destruct (Ascii.ascii_dec "/" b) as [<- | ]; [|discriminate].
      cbn. now destruct src.
    + destruct (JsString.includes "://" (JsString.substring_from 1 src)) eqn:E; [|reflexivity].
      apply includes_substring_from in E. congruence.
  - destruct (JsString.startsWith "/" src) eqn:Hslash; [now split|].
    change ("/" +:+ src) with (String "/" src). split; [now destruct src|].
    cbn [JsString.includes]. rewrite Hsrc. reflexivity.
Qed.

Lemma collect_assets_paths (attr : Regex.regex) (matches additionalUrls : list string) :
  Forall (fun u => JsString.startsWith "/" u = true /\ JsString.includes "://" u = false)
    additionalUrls ->
  Forall (fun u => JsString.startsWith "/" u = true /\ JsString.includes "://" u = false)
    (fst (collect_assets attr matches additionalUrls)).
Proof.
  revert additionalUrls. induction matches as [|m matches IH]; intros urls Hurls; [exact Hurls|].
  cbn [collect_assets]. destruct (Regex.match_group attr m) as [src|]; [|exact Hurls].
  apply IH. destruct (JsString.includes "://" src) eqn:E; [exact Hurls|].
  apply Forall_app. split; [exact Hurls|]. constructor; [|constructor].
  now apply normalize_asset_path.
Qed.

(** X23. Whatever text the entry document holds, every additional asset
    reference that install goes on to fetch starts with a slash and does not
    contain the characters ://. *)
Theorem discovered_assets_are_paths (text : string) :
  Forall (fun u => JsString.startsWith "/" u = true /\ JsString.includes "://" u = false)
    (fst (discovered_assets text)).
Proof.
  unfold discovered_assets.
  pose proof (collect_assets_paths SRC_ATTR (Regex.match_all SCRIPT_TAG text) [] (List.Forall_nil _))
    as Hscripts.
  destruct (collect_assets SRC_ATTR (Regex.match_all SCRIPT_TAG text) []) as [urls [e|]];
    [exact Hscripts|].
  now apply collect_assets_paths.
Qed.

End DiscoverFacts.

(** ** The page and the worker together *)

Section PageFacts.
Import Sw PwaManager.
Variable env : Env.
Variable page : Page.
Hypothesis supported : serviceWorkerInNavigator page = true.







Hypothesis active : registration_active page = true.

(** X25. With an active worker that answers in time, [clearCache],
    [clearAppCache] and [forceCacheUpdate] resolve with the [success]
    flag of the one reply the worker posts for the command, whatever the
    worker met carrying it out, and do nothing to the caches themselves. *)
Theorem wrappers_report_the_reply (w : World) (pl : option string) (p : nat) (ps : list nat)
    (t : N) :
  ((t < 2000)%N ->
   exists reply w',
     message_handler env
       {| data := Some {| mtype := Some "CLEAR_CACHE"; payload := pl |}; ports := p :: ps |} w
     = (Ok tt, w')
     /\ replies w' = replies w ++ [(p, reply)]
     /\ clearCache page (Some (t, reply)) (caches w')
        = {| value := success_of reply; storage := caches w'; waited := t |})
  /\ ((t < 10000)%N ->
      exists reply w',
        message_handler env
          {| data := Some {| mtype := Some "CLEAR_APP_CACHE"; payload := pl |};
             ports := p :: ps |} w
        = (Ok tt, w')
        /\ replies w' = replies w ++ [(p, reply)]
        /\ clearAppCache page (Some (t, reply)) (caches w')
           = {| value := success_of reply; storage := caches w'; waited := t |})
  /\ ((t < 15000)%N ->
      exists reply w',
        message_handler env
          {| data := Some {| mtype := Some "FORCE_UPDATE"; payload := pl |};
             ports := p :: ps |} w
        = (Ok tt, w')
        /\ replies w' = replies w ++ [(p, reply)]
        /\ PwaManager.forceCacheUpdate page (Some (t, reply)) (caches w')
           = {| value := success_of reply; storage := caches w'; waited := t |}).
Proof.
  repeat split; intros Ht; apply N.ltb_lt in Ht.
  - destruct (command_answers env w "CLEAR_CACHE" pl p ps) as (reply & w' & Hrun & Hr & _);
      [now left|].
    exists reply, w'. split; [exact Hrun|]. split; [exact Hr|].
    unfold clearCache, wait_for_reply. now rewrite supported, active, Ht.
  - destruct (command_answers env w "CLEAR_APP_CACHE" pl p ps) as (reply & w' & Hrun & Hr & _);
      [right; now left|].
    exists reply, w'. split; [exact Hrun|]. split; [exact Hr|].
    unfold clearAppCache, wait_for_reply. now rewrite supported, active, Ht.
  - destruct (command_answers env w "FORCE_UPDATE" pl p ps) as (reply & w' & Hrun & Hr & _);
      [right; right; now left|].
    exists reply, w'. split; [exact Hrun|]. split; [exact Hr|].
    unfold PwaManager.forceCacheUpdate, wait_for_reply. now rewrite supported, active, Ht.
Qed.

End PageFacts.

(** ** Cached assets *)

Section RevalidateFacts.
Import Sw SwState.
Variable env : Env.
Hypothesis api : cacheApiOk env = true.
Hypothesis production : isDevelopment env = false.



End RevalidateFacts.

(** ** Assets in development *)

Section DevAssetFacts.
Import Sw SwState.
Variable env : Env.
Hypothesis api : cacheApiOk env = true.
Hypothesis development : isDevelopment env = true.




End DevAssetFacts.

(** ** Offline after the install *)

Section OfflineFacts.
Import Sw SwState.
Variable env : Env.
Hypothesis api : cacheApiOk env = true.
Hypothesis production : isDevelopment env = false.

Lemma stored_delete_all (T : Response -> Prop) (names : list string)
    (st : list (string * gmap string Response)) :
  stored T st -> stored T (delete_all names st).
Proof.
  unfold delete_all. revert st. induction names as [|n names IH]; intros st H; [exact H|].
  cbn [fold_left]. now apply IH, stored_delete.
Qed.

Lemma stored_store_all (cache : string) (answers : list (string * FetchResult))
    (st : list (string * gmap string Response)) :
  stored successful st -> stored successful (store_all env cache answers st).
Proof.
  unfold store_all. revert st. induction answers as [|[u fr] answers IH]; intros st H; [exact H|].
  cbn [fold_left]. apply IH. unfold store. cbn [fst snd].
  destruct (cacheable fr) as [r|] eqn:E; [|exact H].
  apply stored_put; [|exact H]. apply cacheable_status in E as (_ & Hok & Hs). now split.
Qed.

Lemma storage_match_present (name key : string) (st : list (string * gmap string Response)) :
  entry name key st <> None -> storage_match key st <> None.
Proof.
  unfold entry. induction st as [|[n c] st IH]; simpl; [tauto|].
  destruct (c !! key) eqn:Hc; [discriminate|].
  destruct (String.eqb name n); [now rewrite Hc | exact IH].
Qed.

Lemma storage_match_stored (T : Response -> Prop) (key : string) (r : Response)
    (st : list (string * gmap string Response)) :
  stored T st -> storage_match key st = Some r -> T r.
Proof.
  unfold stored. induction st as [|[n c] st IH]; simpl; intros H Hm; [discriminate|].
  destruct (c !! key) as [r'|] eqn:Hc.
  - injection Hm as <-. apply (H n c key r'); [now left | exact Hc].
  - apply IH; [|exact Hm]. intros n0 c0 k0 r0 Hin. apply (H n0 c0 k0 r0). now right.
Qed.

Lemma keeps_installed_put (w : World) (cache key : string) (r : Response) :
  ok r = true -> (status r =? 206)%N = false ->
  shell_installed env w -> shell_installed env (with_caches (storage_put cache key r) w).
Proof.
  intros Hok Hs (He & Hn & Hst). unfold shell_installed. cbn [caches with_caches].
  split; [now apply entry_put_present|]. split.
  - unfold owned in *. now rewrite storage_keys_put.
  - apply stored_put; [now split | exact Hst].
Qed.

Lemma keeps_installed_cleanup :
  keeps (shell_installed env) (cleanupOldCaches env) (fun _ => True).
Proof.
  intros w (He & Hn & Hst).
  destruct (cleanupOldCaches_run env api w) as (bs & w' & Hrun & Hc & _).
  rewrite Hrun. cbn [fst snd]. split; [|trivial]. unfold shell_installed. rewrite Hc.
  split; [|split].
  - rewrite entry_delete_all_other; [exact He|]. now apply current_survives_cleanup.
  - rewrite owned_delete_all. etransitivity; [apply filter_length_le | exact Hn].
  - now apply stored_delete_all.
Qed.

Lemma keeps_installed_rest (cache : string) :
  keeps (shell_installed env) (install_rest env cache) (fun _ => True).
Proof.
  assert (Hf : forall w n, shell_installed env w ->
             shell_installed env (mkWorld (caches w) n (console w) (detached w) (replies w)
                                    (broadcasts w) (skipWaitingCalls w) (claims w)))
    by (intros w n H; exact H).
  assert (Hl : forall w l a, l = ERROR \/ isDevelopment env = true -> shell_installed env w ->
             shell_installed env
               (mkWorld (caches w) (fetches w) (console w ++ [{| level := l; args := a |}])
                  (detached w) (replies w) (broadcasts w) (skipWaitingCalls w) (claims w)))
    by (intros w l a _ H; exact H).
  assert (Hp : forall w c key r, ok r = true -> (status r =? 206)%N = false ->
             shell_installed env w ->
             shell_installed env (with_caches (storage_put c key r) w))
    by (intros; now apply keeps_installed_put).
  unfold install_rest.
  apply keeps_bind with (Q := fun _ => True); [now apply inv_discover | intros urls _].
  apply keeps_bind with (Q := fun _ => True);
    [now apply (inv_cache_additional env _ (fun r => ok r = true)) | intros _ _].
  apply keeps_bind with (Q := fun _ => True);
    [now apply (inv_cache_main_page env _ (fun r => ok r = true)) | intros _ _].
  apply keeps_bind with (Q := fun _ => True);
    [now apply (inv_cache_manifest env _ (fun r => ok r = true)) | intros _ _].
  apply keeps_bind with (Q := fun _ => True); [apply keeps_installed_cleanup | intros _ _].
  apply keeps_bind with (Q := fun _ => True);
    [apply inv_skipWaiting; intros w H; exact H | intros _ _].
  now apply inv_logger_log.
Qed.

Lemma index_is_static : In "/index.html" STATIC_CACHE_URLS.
Proof. right. now left. Qed.

Lemma settle_all_covers (t : nat) (urls : list string) (u : string) :
  In u urls -> exists fr, In (u, fr) (settle_all env t urls).
Proof.
  revert t. induction urls as [|v urls IH]; intros t; simpl; [tauto|].
  intros [-> | Hin].
  - eexists. now left.
  - destruct (IH (S t) Hin) as (fr & H). exists fr. now right.
Qed.

Lemma installed_after_static (urls : list string) (t : nat)
    (st : list (string * gmap string Response)) (w : World) :
  In "/index.html" urls ->
  List.NoDup (map (resolve env) urls) ->
  all_cacheable (settle_all env t urls) = true ->
  length (owned env st) < MAX_CACHES ->
  stored successful st ->
  caches w = store_all env (CACHE_NAME env) (settle_all env t urls)
               (storage_open (CACHE_NAME env) st) ->
  shell_installed env w.
Proof.
  intros Hin Hnd Hall Hfew Hst Hc. unfold shell_installed. rewrite Hc. split; [|split].
  - destruct (settle_all_covers t urls _ Hin) as (fr & Hfr).
    rewrite (entry_store_all env (CACHE_NAME env) "/index.html" fr (settle_all env t urls)).
    + unfold all_cacheable in Hall. rewrite forallb_forall in Hall.
      specialize (Hall _ Hfr). cbn [snd] in Hall. now destruct (cacheable fr).
    + now rewrite settle_all_keys.
    + apply storage_has_open.
    + exact Hfr.
  - unfold owned. rewrite storage_keys_store_all. unfold storage_open.
    destruct (storage_has (CACHE_NAME env) st); [unfold owned in Hfew; lia|].
    unfold storage_keys. rewrite map_app, List.filter_app, length_app. cbn [map fst List.filter].
    unfold owned, storage_keys in Hfew.
    destruct (JsString.startsWith _ _); cbn [length]; lia.
  - now apply stored_store_all, stored_open.
Qed.

Lemma install_installs (w : World) :
  length (owned env (caches w)) < MAX_CACHES ->
  stored successful (caches w) ->
  all_cacheable (settle_all env (fetches w) STATIC_CACHE_URLS) = true ->
  shell_installed env (snd (install_handler env w)).
Proof.
  intros Hfew Hst Hall.
  pose (opened := with_caches (storage_open (CACHE_NAME env)) (snd (skipWaiting w))).
  destruct (cache_static_assets_run env api (CACHE_NAME env) opened)
    as (written & extra & Hstatic & Hc & _). cbv zeta in Hc.
  change (fetches opened) with (fetches w) in Hc. rewrite Hall in Hc.
  assert (Hw : shell_installed env written).
  { pose proof index_is_static as Hi. pose proof (static_keys_distinct env) as Hnd.
    revert Hall Hc Hi Hnd. generalize STATIC_CACHE_URLS. intros urls Hall Hc Hi Hnd.
    now apply (installed_after_static urls (fetches w) (caches w)). }
  assert (Hrun : install_handler env w
                 = try_catch (install_rest env (CACHE_NAME env))
                     (fun error =>
                        bind (logger_error ["Error during service worker installation:"; error])
                          (fun _ => skipWaiting)) written).
  { unfold install_handler, install_body. rewrite production.
    rewrite !(logger_log_production _ _ production). unfold skipWaiting at 1.
    unfold try_catch. unfold bind at 1, ret at 1. unfold bind at 1, ret at 1.
    unfold modify at 1. unfold bind at 1. unfold bind at 1, ret at 1. unfold bind at 1.
    rewrite (caches_open_run env api).
    change (with_caches (storage_open (CACHE_NAME env)) _) with opened.
    unfold bind at 1. now rewrite Hstatic. }
  rewrite Hrun. unfold try_catch.
  destruct (keeps_installed_rest (CACHE_NAME env) written Hw) as [Hrest _].
  destruct (install_rest env (CACHE_NAME env) written) as [[[]|e] final]; cbn [snd] in *;
    [exact Hrest|].
  unfold logger_error, console_write, skipWaiting. monad_unfold. exact Hrest.
Qed.

(** X28. Take a production install with a usable Cache API during which
    every static asset is fetched successfully, started when the application
    owns fewer than five caches and the caches hold successful responses
    only. After it, a navigation that is a GET request whose URL starts with
    the worker's origin and whose path is neither /robots.txt nor
    /sitemap.xml, and whose URL contains neither favicon.ico, favicon.svg
    nor manifest.json, is answered at once with a cached response whose
    status is ok, with no request made before the answer and no cache
    changed: the application opens without a network. *)
Theorem installed_app_opens_offline (w : World) (req : Request) :
  length (owned env (caches w)) < MAX_CACHES ->
  stored successful (caches w) ->
  all_cacheable (settle_all env (fetches w) STATIC_CACHE_URLS) = true ->
  method req = "GET" ->
  JsString.startsWith (origin env) (url req) = true ->
  is_passthrough_path (Url.pathname (url req)) = false ->
  is_favicon req = false ->
  JsString.includes "manifest.json" (url req) = false ->
  mode req = "navigate" ->
  let installed := snd (install_handler env w) in
  exists shell started,
    fetch_handler env req installed = (Ok (Respond shell), started)
    /\ ok shell = true
    /\ fetches started = fetches installed
    /\ caches started = caches installed.
Proof.
  intros Hfew Hst Hall Hm Ho Hp Hf Hman Hnav installed.
  destruct (install_installs w Hfew Hst Hall) as (He & _ & Hstored).
  fold installed in He, Hstored.
  apply storage_match_present in He.
  destruct (storage_match (resolve env "/index.html") (caches installed)) as [shell|] eqn:Hshell;
    [|congruence].
  assert (Hs : shell_of env (caches installed) = Some shell)
    by (unfold shell_of; now rewrite Hshell).
  exists shell. eexists.
  split; [apply (production_navigation_run env api production req installed shell); assumption|].
  split; [|split; reflexivity].
  now apply (storage_match_stored successful _ shell _ Hstored Hshell).
Qed.

End OfflineFacts.

(** ** Worked examples *)

Section StateExamples.
Import Sw SwState Scenarios.

Lemma stored_responses_successful_witness :
  let env := worker production "1.2.0-b9829bc4" online in
  only_successful
    (run_events env [Install; Activate; Fetch (navigate "https://nuwault.com/")] (world [])).
Proof.
  intros env. apply (stored_responses_successful env). split.
  - intros name c key r [].
  - intros t [].
Defined.

Lemma production_console_errors_only_witness :
  let env := worker production "1.2.0-b9829bc4" offline in
  only_errors (run_events env [Install; Activate; Message (command "FORCE_UPDATE")] (world [])).
Proof.
  intros env. apply (production_console_errors_only env _ _ eq_refl). constructor.
Defined.

End StateExamples.

Section CommandReplyExamples.
Import Sw SwState Scenarios.

Lemma command_replies_once_witness :
  let env := worker production "1.2.0-b9829bc4" offline in
  exists reply w',
    message_handler env
      {| data := Some {| mtype := Some "FORCE_UPDATE"; payload := None |}; ports := [7] |}
      (world [])
    = (Ok tt, w')
    /\ replies w' = [(7, reply)].
Proof.
  intros env.
  destruct (command_replies_once env (world []) "FORCE_UPDATE" None 7 []
              (or_intror (or_intror (or_introl eq_refl))))
    as (reply & w' & Hrun & Hr & _).
  exists reply, w'. split; [exact Hrun | exact Hr].
Defined.

Lemma command_fails_without_cache_api_witness :
  let env := {| location := production; APP_NAME := "nuwault";
                APP_VERSION := "1.2.0-b9829bc4"; network := online; cacheApiOk := false;
                localeCompare := String.compare; clients := [1];
                parseUrl := fun _ => None |} in
  cacheApiOk env = false
  /\ exists error w',
       message_handler env
         {| data := Some {| mtype := Some "CLEAR_CACHE"; payload := None |}; ports := [7] |}
         (world [("fonts", ∅)])
       = (Ok tt, w')
       /\ replies w' = [(7, ReplyError false error)]
       /\ caches w' = [("fonts", ∅)].
Proof.
  intros env. split; [reflexivity|].
  destruct (command_fails_without_cache_api env (world [("fonts", ∅)]) "CLEAR_CACHE" None 7 []
              eq_refl (or_introl eq_refl))
    as (error & w' & Hrun & Hr & Hc & _).
  exists error, w'. split; [exact Hrun|]. split; [exact Hr | exact Hc].
Defined.

Lemma clear_cache_empties_storage_witness :
  let env := worker production "1.2.0-b9829bc4" online in
  exists w',
    message_handler env
      {| data := Some {| mtype := Some "CLEAR_CACHE"; payload := None |}; ports := [7] |}
      (world [("nuwault-v1.2.0-b9829bc4", ∅); ("fonts", ∅)])
    = (Ok tt, w')
    /\ caches w' = []
    /\ replies w' = [(7, ReplyCleared true 2)].
Proof.
  intros env.
  apply (clear_cache_empties_storage env eq_refl
           (world [("nuwault-v1.2.0-b9829bc4", ∅); ("fonts", ∅)]) None 7 []).
Defined.

Lemma clear_app_cache_spares_others_witness :
  let env := worker production "1.2.0-b9829bc4" online in
  exists w',
    message_handler env
      {| data := Some {| mtype := Some "CLEAR_APP_CACHE"; payload := None |}; ports := [7] |}
      (world [("nuwault-v1.2.0-b9829bc4", ∅); ("fonts", ∅)])
    = (Ok tt, w')
    /\ caches w' = [("fonts", ∅)].
Proof.
  intros env.
  apply (clear_app_cache_spares_others env eq_refl
           (world [("nuwault-v1.2.0-b9829bc4", ∅); ("fonts", ∅)]) None 7 []).
Defined.

Lemma cache_info_is_read_only_witness :
  let env := worker production "1.2.0-b9829bc4" online in
  exists w',
    message_handler env
      {| data := Some {| mtype := Some "GET_CACHE_INFO"; payload := None |}; ports := [7] |}
      (world [("nuwault-v1.1.0", ∅); ("fonts", ∅)])
    = (Ok tt, w')
    /\ caches w' = [("nuwault-v1.1.0", ∅); ("fonts", ∅)]
    /\ fetches w' = 0
    /\ replies w'
       = [(7, ReplyInfo true "1.2.0-b9829bc4" "nuwault-v1.2.0-b9829bc4" false
                ["nuwault-v1.1.0"] false)].
Proof.
  intros env.
  apply (cache_info_is_read_only env eq_refl
           (world [("nuwault-v1.1.0", ∅); ("fonts", ∅)]) None 7 []).
Defined.

Lemma force_update_rebuilds_witness :
  let env := worker production "1.2.0-b9829bc4" online in
  exists w',
    message_handler env
      {| data := Some {| mtype := Some "FORCE_UPDATE"; payload := None |}; ports := [7] |}
      (world [("nuwault-v1.2.0-b9829bc4", generation ["https://nuwault.com/old.js"])])
    = (Ok tt, w')
    /\ replies w' = [(7, ReplyForced true "1.2.0-b9829bc4")]
    /\ entry (CACHE_NAME env) "https://nuwault.com/old.js" (caches w') = None.
Proof.
  intros env.
  destruct (force_update_rebuilds env eq_refl
              (world [("nuwault-v1.2.0-b9829bc4", generation ["https://nuwault.com/old.js"])])
              None 7 [] ltac:(vm_compute; lia) ltac:(vm_compute; reflexivity))
    as (w' & Hrun & Hr & _ & Hother).
  exists w'. split; [exact Hrun|]. split; [exact Hr|].
  apply Hother. vm_compute. intros H.
  repeat (destruct H as [H | H]; [discriminate H|]). exact H.
Defined.

End CommandReplyExamples.

Section RequestExamples.
Import Sw SwState Scenarios.

Lemma favicon_is_network_only_witness :
  let env := worker production "1.2.0-b9829bc4" offline in
  let w := world [("nuwault-v1.2.0-b9829bc4", generation ["https://nuwault.com/favicon.ico"])] in
  fetch_handler env (get "https://nuwault.com/favicon.ico" "image") w
  = (Ok (Respond not_found_icon), advance 1 w).
Proof.
  intros env w.
  apply (favicon_is_network_only env (get "https://nuwault.com/favicon.ico" "image") w
           eq_refl eq_refl eq_refl eq_refl I).
Defined.

Lemma dev_navigation_is_network_only_witness :
  let env := worker development "1.2.0-b9829bc4" (failing 500 ["http://localhost:5173/"]) in
  exists answer,
    fetch_handler env (navigate "http://localhost:5173/") (world [])
    = (Ok (Respond answer), advance 1 (world []))
    /\ status answer = 503%N.
Proof.
  intros env. eexists. split.
  - apply (dev_navigation_is_network_only env (navigate "http://localhost:5173/") (world [])
             eq_refl eq_refl eq_refl eq_refl ltac:(vm_compute; reflexivity) eq_refl).
  - reflexivity.
Defined.


Lemma first_navigation_witness :
  let env := worker production "1.2.0-b9829bc4" offline in
  exists answer w',
    fetch_event env (navigate "https://nuwault.com/") (world []) = (Ok (Respond answer), w')
    /\ status answer = 200%N /\ body answer = NotCachedPage /\ caches w' = [].
Proof.
  intros env.
  destruct (first_navigation env eq_refl eq_refl (navigate "https://nuwault.com/") (world [])
              eq_refl eq_refl eq_refl eq_refl eq_refl eq_refl eq_refl eq_refl)
    as (answer & w' & Hrun & Hanswer).
  exists answer, w'. split; [exact Hrun|]. cbv zeta in Hanswer.
  change (network env (fetches (world [])) (resolve env "/index.html"))
    with (Rejected "Failed to fetch") in Hanswer.
  destruct Hanswer as [-> Hc]. split; [reflexivity|]. split; [reflexivity | exact Hc].
Defined.

Lemma manifest_request_witness :
  let env := worker production "1.2.0-b9829bc4" offline in
  let cached := page 200 "{}" in
  let w := world [("nuwault-v1.2.0-b9829bc4",
                   <["https://nuwault.com/manifest.json" := cached]> ∅)] in
  fetch_event env (get "https://nuwault.com/manifest.json" "manifest") w
  = (Ok (Respond cached), w).
Proof.
  intros env cached w.
  apply (manifest_request env eq_refl eq_refl
           (get "https://nuwault.com/manifest.json" "manifest") w
           eq_refl eq_refl eq_refl eq_refl eq_refl eq_refl).
Defined.



Lemma installed_app_opens_offline_witness :
  let env := worker production "1.2.0-b9829bc4" online in
  let installed := snd (install_handler env (world [])) in
  exists shell started,
    fetch_handler env (navigate "https://nuwault.com/settings") installed
    = (Ok (Respond shell), started)
    /\ ok shell = true.
Proof.
  intros env installed.
  destruct (installed_app_opens_offline env eq_refl eq_refl (world [])
              (navigate "https://nuwault.com/settings")
              ltac:(vm_compute; lia) (fun name c key r (H : In (name, c) []) => match H with end)
              ltac:(vm_compute; reflexivity)
              eq_refl eq_refl eq_refl eq_refl eq_refl eq_refl)
    as (shell & started & Hrun & Hok & _).
  exists shell, started. split; [exact Hrun | exact Hok].
Defined.

End RequestExamples.

Section DotEnvExamples.
Import DotEnv.

Lemma assignment_keeps_value_witness :
  parse_line ∅ ("VITE_APP_KEY" +:+ "=" +:+ " a=b== ") = <["VITE_APP_KEY" := "a=b=="]> ∅.
Proof.
  apply (assignment_keeps_value ∅ "VITE_APP_KEY" " a=b== ");
    [discriminate | reflexivity | reflexivity | reflexivity].
Defined.

Lemma last_file_wins_witness :
  let files := fun name : string =>
                 if String.eqb name ".env" then Some "VITE_APP_NAME=nuwault"
                 else if String.eqb name ".env.local" then Some "VITE_APP_NAME=local"
                 else None in
  let files' := fun name : string =>
                  if String.eqb name ".env" then Some "VITE_APP_NAME=nuwault" else None in
  loadEnvironmentVariables files ∅ !! "VITE_APP_NAME"
  = loadEnvironmentVariables files' (<["VITE_APP_NAME" := "shell"]> ∅) !! "VITE_APP_NAME".
Proof.
  intros files files'.
  apply (last_file_wins files files' ∅ (<["VITE_APP_NAME" := "shell"]> ∅)
           "VITE_APP_NAME=nuwault" "VITE_APP_NAME" eq_refl eq_refl).
  exists "VITE_APP_NAME=nuwault". split; [now left | reflexivity].
Defined.

Lemma comments_set_nothing_witness :
  let files := fun name : string =>
                 if String.eqb name ".env" then Some "# VITE_APP_NAME=nuwault" else None in
  loadEnvironmentVariables files (<["VITE_APP_NAME" := "shell"]> ∅)
  = <["VITE_APP_NAME" := "shell"]> ∅.
Proof.
  intros files. apply (comments_set_nothing files).
  intros name envContent line Hfile Hin. subst files. cbv beta in Hfile.
  destruct (String.eqb name ".env"); [|discriminate].
  injection Hfile as <-. destruct Hin as [<- | []]. right. left. reflexivity.
Defined.

End DotEnvExamples.

Section PageExamples.
Import Sw PwaManager Scenarios.


Lemma wrappers_report_the_reply_witness :
  let env := worker production "1.2.0-b9829bc4" online in
  let page := {| serviceWorkerInNavigator := true;
                 serviceWorkerRegistration := Some {| active := true |};
                 cachesUsable := true |} in
  exists reply w',
    message_handler env (command "CLEAR_CACHE") (world [("fonts", ∅)]) = (Ok tt, w')
    /\ replies w' = [(7, reply)]
    /\ clearCache page (Some (150%N, reply)) (caches w')
       = {| value := success_of reply; storage := caches w'; waited := 150 |}.
Proof.
  intros env page.
  destruct (wrappers_report_the_reply env page eq_refl eq_refl (world [("fonts", ∅)])
              None 7 [] 150) as [H _].
  apply H. reflexivity.
Defined.

End PageExamples.
